(** * dqn.cpp: screen preprocessing, replay memory and minibatch assembly

    A shallow embedding of [src/dqn.cpp].  The C++ [double] is IEEE-754
    binary64 with round-to-nearest-even, every operation rounded on its own
    (the evaluation the x86-64 ABI prescribes); it is embedded with the
    executable specification [SpecFloat] of the standard library, so that
    every function below computes bit for bit what the compiled code
    computes.  [int] is a 32-bit two's complement integer, [size_t] a
    64-bit and [uint8_t] an 8-bit unsigned one.  Integers are values of
    [Z]; the conversions between the types and the linear index into the
    pixel array carry their range checks.  Failing [assert]s and undefined
    behaviour are explicit outcomes.

    The file has two parts: the embedding (machine numbers, palette,
    [PreprocessScreen], the agent with [SelectAction], [AddTransition] and
    [Update], reference quantities and concrete instances, then the text
    written by [DrawFrame] and [PrintQValues] and the arrays of
    [PredictNextFrame]), then the properties (grayscale, the frame cell by
    cell, concrete screens, rounding in binary64, the weights of the
    resampling, the agent, and further properties of each function). *)

From Stdlib Require Import ZArith List Bool Lia SpecFloat Ascii.
Import ListNotations.
Local Open Scope Z_scope.

(** ** Outcomes *)

(** The [assert]s of the file, by what they guard. *)
Inductive assertion : Set :=
| RgbRange            (* RGBToGrayscale: 0 <= rgb[k] <= 255 *)
| HeightAboveWidth    (* PreprocessScreen: raw_screen_height > raw_screen_width *)
| XRatioRange         (* PreprocessScreen: 0 <= x_ratio_in_resulting_pixel <= 1 *)
| YRatioRange         (* PreprocessScreen: 0 <= y_ratio_in_resulting_pixel <= 1 *)
| ActionRange         (* Update: action < kOutputCount *)
| RewardRange.        (* Update: -1 <= reward <= 1 *)

(** The ways in which the file can leave defined behaviour. *)
Inductive undefined : Set :=
| OutOfBounds         (* an array, pointer, vector or deque read or written outside its extent *)
| FloatToInt          (* a floating value converted to an integer type that cannot hold it *)
| IntOverflow         (* signed [int] arithmetic leaving the range of [int] *)
| PopEmpty            (* pop_front on an empty deque *)
| InvertedBounds.     (* std::uniform_int_distribution<int>(a, b) built with b < a *)

Inductive result (A : Type) : Type :=
| Ok (a : A)
| AssertFailed (which : assertion)
| Undefined (why : undefined).
Arguments Ok {A} a.
Arguments AssertFailed {A} which.
Arguments Undefined {A} why.

Definition bind {A B : Type} (r : result A) (k : A -> result B) : result B :=
  match r with
  | Ok a => k a
  | AssertFailed w => AssertFailed w
  | Undefined u => Undefined u
  end.

Notation "x <- e ;; k" := (bind e (fun x => k))
  (at level 61, e at next level, right associativity).
Notation "e1 ;;; e2" := (bind e1 (fun _ => e2))
  (at level 61, right associativity).

Definition assert (b : bool) (which : assertion) : result unit :=
  if b then Ok tt else AssertFailed which.

(** ** Machine numbers *)

Definition INT_MIN : Z := - 2 ^ 31.
Definition INT_MAX : Z := 2 ^ 31 - 1.

Definition fits_int (z : Z) : bool := (INT_MIN <=? z) && (z <=? INT_MAX).

(** IEEE-754 binary64 ([double]) and binary32 ([float]). *)
Module Fp.

Definition double : Set := spec_float.

Definition add : double -> double -> double := SFadd 53 1024.
Definition sub : double -> double -> double := SFsub 53 1024.
Definition mul : double -> double -> double := SFmul 53 1024.
Definition div : double -> double -> double := SFdiv 53 1024.
Definition leb : double -> double -> bool := SFleb.
Definition ltb : double -> double -> bool := SFltb.

(** Conversion of an integer to [double] (exact below 2^53 in absolute
    value, rounded to nearest even above). *)
Definition of_int (n : Z) : double := binary_normalize 53 1024 n 0 false.

(** Conversion of an integer to [float], and the division of [float]. *)
Definition f32_of_int (n : Z) : spec_float := binary_normalize 24 128 n 0 false.
Definition f32_div : spec_float -> spec_float -> spec_float := SFdiv 24 128.

(** [std::floor] as an integer: the largest integer not above [x]
    ([Z.shiftl] with a negative count shifts right, rounding down). *)
Definition floor (x : spec_float) : option Z :=
  match x with
  | S754_zero _ => Some 0
  | S754_finite s m e => Some (Z.shiftl (cond_Zopp s (Zpos m)) e)
  | _ => None
  end.

(** Truncation toward zero, the rule of a floating-to-integer conversion. *)
Definition trunc (x : spec_float) : option Z :=
  match x with
  | S754_zero _ => Some 0
  | S754_finite s m e => Some (cond_Zopp s (Z.shiftl (Zpos m) e))
  | _ => None
  end.

(** [static_cast<int>(x)]: undefined when the truncated value does not fit. *)
Definition to_int (x : spec_float) : result Z :=
  match trunc x with
  | Some z => if fits_int z then Ok z else Undefined FloatToInt
  | None => Undefined FloatToInt
  end.

(** [static_cast<int>(std::floor(x))]. *)
Definition floor_to_int (x : double) : result Z :=
  match floor x with
  | Some z => if fits_int z then Ok z else Undefined FloatToInt
  | None => Undefined FloatToInt
  end.

(** Conversion of a [double] to [uint8_t]. *)
Definition to_uint8 (x : double) : result Z :=
  match trunc x with
  | Some z => if (0 <=? z) && (z <=? 255) then Ok z else Undefined FloatToInt
  | None => Undefined FloatToInt
  end.

(** The literals of the file, each the binary64 (binary32 for [2.0f])
    number nearest to the decimal written in the source. *)
Definition d0_0  : double := S754_zero false.
Definition d1_0  : double := S754_finite false 0x10000000000000 (-52).
Definition d0_21 : double := S754_finite false 0x1ae147ae147ae1 (-55).
Definition d0_72 : double := S754_finite false 0x170a3d70a3d70a (-53).
Definition d0_07 : double := S754_finite false 0x11eb851eb851ec (-56).
Definition d0_92 : double := S754_finite false 0x1d70a3d70a3d71 (-53).
Definition f2_0  : spec_float := S754_finite false 0x800000 (-22).

End Fp.

(** ** Palette decoding and grayscale *)

Definition ntsc_to_rgb : list Z := [
    0x000000; 0; 0x4a4a4a; 0; 0x6f6f6f; 0; 0x8e8e8e; 0;
    0xaaaaaa; 0; 0xc0c0c0; 0; 0xd6d6d6; 0; 0xececec; 0;
    0x484800; 0; 0x69690f; 0; 0x86861d; 0; 0xa2a22a; 0;
    0xbbbb35; 0; 0xd2d240; 0; 0xe8e84a; 0; 0xfcfc54; 0;
    0x7c2c00; 0; 0x904811; 0; 0xa26221; 0; 0xb47a30; 0;
    0xc3903d; 0; 0xd2a44a; 0; 0xdfb755; 0; 0xecc860; 0;
    0x901c00; 0; 0xa33915; 0; 0xb55328; 0; 0xc66c3a; 0;
    0xd5824a; 0; 0xe39759; 0; 0xf0aa67; 0; 0xfcbc74; 0;
    0x940000; 0; 0xa71a1a; 0; 0xb83232; 0; 0xc84848; 0;
    0xd65c5c; 0; 0xe46f6f; 0; 0xf08080; 0; 0xfc9090; 0;
    0x840064; 0; 0x97197a; 0; 0xa8308f; 0; 0xb846a2; 0;
    0xc659b3; 0; 0xd46cc3; 0; 0xe07cd2; 0; 0xec8ce0; 0;
    0x500084; 0; 0x68199a; 0; 0x7d30ad; 0; 0x9246c0; 0;
    0xa459d0; 0; 0xb56ce0; 0; 0xc57cee; 0; 0xd48cfc; 0;
    0x140090; 0; 0x331aa3; 0; 0x4e32b5; 0; 0x6848c6; 0;
    0x7f5cd5; 0; 0x956fe3; 0; 0xa980f0; 0; 0xbc90fc; 0;
    0x000094; 0; 0x181aa7; 0; 0x2d32b8; 0; 0x4248c8; 0;
    0x545cd6; 0; 0x656fe4; 0; 0x7580f0; 0; 0x8490fc; 0;
    0x001c88; 0; 0x183b9d; 0; 0x2d57b0; 0; 0x4272c2; 0;
    0x548ad2; 0; 0x65a0e1; 0; 0x75b5ef; 0; 0x84c8fc; 0;
    0x003064; 0; 0x185080; 0; 0x2d6d98; 0; 0x4288b0; 0;
    0x54a0c5; 0; 0x65b7d9; 0; 0x75cceb; 0; 0x84e0fc; 0;
    0x004030; 0; 0x18624e; 0; 0x2d8169; 0; 0x429e82; 0;
    0x54b899; 0; 0x65d1ae; 0; 0x75e7c2; 0; 0x84fcd4; 0;
    0x004400; 0; 0x1a661a; 0; 0x328432; 0; 0x48a048; 0;
    0x5cba5c; 0; 0x6fd26f; 0; 0x80e880; 0; 0x90fc90; 0;
    0x143c00; 0; 0x355f18; 0; 0x527e2d; 0; 0x6e9c42; 0;
    0x87b754; 0; 0x9ed065; 0; 0xb4e775; 0; 0xc8fc84; 0;
    0x303800; 0; 0x505916; 0; 0x6d762b; 0; 0x88923e; 0;
    0xa0ab4f; 0; 0xb7c25f; 0; 0xccd86e; 0; 0xe0ec7c; 0;
    0x482c00; 0; 0x694d14; 0; 0x866a26; 0; 0xa28638; 0;
    0xbb9f47; 0; 0xd2b656; 0; 0xe8cc63; 0; 0xfce070; 0
  ].

(** Reading cell [i] of an array: undefined outside its extent. *)
Definition read {A : Type} (a : list A) (i : Z) : result A :=
  if i <? 0 then Undefined OutOfBounds
  else match nth_error a (Z.to_nat i) with
       | Some v => Ok v
       | None => Undefined OutOfBounds
       end.

(** [pixel_t] is an unsigned byte; the triple is [r; g; b]. *)
Definition PixelToRGB (pixel : Z) : result (Z * Z * Z) :=
  rgb <- read ntsc_to_rgb pixel ;;
  let r := Z.shiftr rgb 16 in
  let g := Z.land (Z.shiftr rgb 8) 0xFF in
  let b := Z.land rgb 0xFF in
  Ok (r, g, b).

Definition in_byte (c : Z) : bool := (0 <=? c) && (c <=? 255).

Definition RGBToGrayscale (rgb : Z * Z * Z) : result Z :=
  let '(r, g, b) := rgb in
  assert (in_byte r) RgbRange ;;;
  assert (in_byte g) RgbRange ;;;
  assert (in_byte b) RgbRange ;;;
  Fp.to_uint8
    (Fp.add (Fp.add (Fp.mul (Fp.of_int r) Fp.d0_21)
                    (Fp.mul (Fp.of_int g) Fp.d0_72))
            (Fp.mul (Fp.of_int b) Fp.d0_07)).

Definition PixelToGrayscale (pixel : Z) : result Z :=
  rgb <- PixelToRGB pixel ;;
  RGBToGrayscale rgb.

(** ** Screen preprocessing *)

(** Writing cell [i] of an array: undefined outside its extent. *)
Definition write {A : Type} (a : list A) (i : Z) (v : A) : result (list A) :=
  if (i <? 0) || (Z.of_nat (length a) <=? i) then Undefined OutOfBounds
  else Ok (firstn (Z.to_nat i) a ++ v :: skipn (S (Z.to_nat i)) a).

(** Signed arithmetic whose result must fit an [int]. *)
Definition int_arith (z : Z) : result Z :=
  if fits_int z then Ok z else Undefined IntOverflow.

(** [n] rounds of a counting loop from [k] upwards, threading the state. *)
Fixpoint loop {A : Type} (n : nat) (k : Z) (body : Z -> A -> result A) (acc : A)
  : result A :=
  match n with
  | O => Ok acc
  | S n' => acc' <- body k acc ;; loop n' (k + 1) body acc'
  end.

(** [for (k = first; k <= last; ++k)] and [for (k = first; k < bound; ++k)]. *)
Definition for_upto {A : Type} (first last : Z) (body : Z -> A -> result A) (acc : A)
  : result A :=
  loop (Z.to_nat (last + 1 - first)) first body acc.

Definition for_below {A : Type} (first bound : Z) (body : Z -> A -> result A) (acc : A)
  : result A :=
  loop (Z.to_nat (bound - first)) first body acc.

(** [ALEScreen]: [getArray] holds [width * height] palette codes, row by row. *)
Record ALEScreen : Type := {
  width : Z;
  height : Z;
  getArray : list Z
}.

(** The share of source pixel [p] that lies in output cell [k] along one
    axis: [x_ratio_in_resulting_pixel] and [y_ratio_in_resulting_pixel] of
    the source, which differ in the names only. *)
Definition ratio_in_resulting_pixel
    (ratio : Fp.double) (start k first last p : Z) : Fp.double :=
  if p =? first then
    Fp.sub (Fp.sub (Fp.of_int (p + 1)) (Fp.mul (Fp.of_int k) ratio)) (Fp.of_int start)
  else if p =? last then
    Fp.add (Fp.sub (Fp.mul ratio (Fp.of_int (k + 1))) (Fp.of_int p)) (Fp.of_int start)
  else Fp.d1_0.

Definition ratio_in_range (w : Fp.double) : bool :=
  Fp.leb Fp.d0_0 w && Fp.leb w Fp.d1_0.

(** The bounds of the source pixels under output cell [k] along one axis. *)
Definition cell_bounds (ratio : Fp.double) (start k : Z) : result (Z * Z) :=
  lo <- Fp.floor_to_int (Fp.mul (Fp.of_int k) ratio) ;;
  hi <- Fp.floor_to_int (Fp.mul (Fp.of_int (k + 1)) ratio) ;;
  Ok (start + lo, start + hi).

(** The two inner loops of [PreprocessScreen] for output cell [(i, j)]:
    [visit x y x_w y_w] stands for the statements of the innermost body
    that follow the assertions. *)
Definition for_covered_pixels {A : Type}
    (x_ratio y_ratio : Fp.double) (start_x start_y i j : Z)
    (visit : Z -> Z -> Fp.double -> Fp.double -> A -> result A) (acc : A)
  : result A :=
  xs <- cell_bounds x_ratio start_x j ;;
  ys <- cell_bounds y_ratio start_y i ;;
  let '(first_x, last_x) := xs in
  let '(first_y, last_y) := ys in
  for_upto first_x last_x (fun x acc =>
    let x_ratio_in_resulting_pixel :=
      ratio_in_resulting_pixel x_ratio start_x j first_x last_x x in
    assert (ratio_in_range x_ratio_in_resulting_pixel) XRatioRange ;;;
    for_upto first_y last_y (fun y acc =>
      let y_ratio_in_resulting_pixel :=
        ratio_in_resulting_pixel y_ratio start_y i first_y last_y y in
      assert (ratio_in_range y_ratio_in_resulting_pixel) YRatioRange ;;;
      visit x y x_ratio_in_resulting_pixel y_ratio_in_resulting_pixel acc) acc) acc.

(** The weight the source gives a pixel: [(x_w / x_ratio) * (y_w / y_ratio)]. *)
Definition pixel_weight (x_ratio y_ratio x_w y_w : Fp.double) : Fp.double :=
  Fp.mul (Fp.div x_w x_ratio) (Fp.div y_w y_ratio).

(** The innermost body: read the pixel, convert it, and add its share to
    [resulting_color], a [uint8_t]: the sum is formed in [double] and
    converted back to [uint8_t] at every [+=]. *)
Definition accumulate_color
    (raw_pixels : list Z) (raw_screen_width : Z) (x_ratio y_ratio : Fp.double)
    (x y : Z) (x_w y_w : Fp.double) (resulting_color : Z) : result Z :=
  idx <- int_arith (y * raw_screen_width + x) ;;
  pixel <- read raw_pixels idx ;;
  grayscale <- PixelToGrayscale pixel ;;
  Fp.to_uint8
    (Fp.add (Fp.of_int resulting_color)
            (Fp.mul (pixel_weight x_ratio y_ratio x_w y_w) (Fp.of_int grayscale))).

(** The crop geometry computed at the head of [PreprocessScreen]. *)
Record geometry : Type := {
  start_x : Z;
  start_y : Z;
  x_ratio : Fp.double;
  y_ratio : Fp.double
}.

Section Preprocess.

(** [kCroppedFrameSize] is declared in dqn.hpp. *)
Variable kCroppedFrameSize : Z.

Definition crop_geometry (raw_screen_width raw_screen_height : Z) : result geometry :=
  cropped_screen_height <-
    Fp.to_int (Fp.mul Fp.d0_92 (Fp.of_int raw_screen_height)) ;;
  start_y <-
    Fp.to_int (Fp.f32_div
                 (Fp.f32_of_int (raw_screen_height - cropped_screen_height))
                 Fp.f2_0) ;;
  let start_x := 8 in
  let cropped_screen_width := raw_screen_width - start_x in
  Ok {| start_x := start_x;
        start_y := start_y;
        x_ratio := Fp.div (Fp.of_int cropped_screen_width)
                          (Fp.of_int kCroppedFrameSize);
        y_ratio := Fp.div (Fp.of_int cropped_screen_height)
                          (Fp.of_int kCroppedFrameSize) |}.

(** The value stored in output cell [(i, j)]. *)
Definition resample_cell (raw_screen : ALEScreen) (g : geometry) (i j : Z) : result Z :=
  for_covered_pixels (x_ratio g) (y_ratio g) (start_x g) (start_y g) i j
    (accumulate_color (getArray raw_screen) (width raw_screen) (x_ratio g) (y_ratio g))
    0.

Definition PreprocessScreen (raw_screen : ALEScreen) : result (list Z) :=
  let raw_screen_width := width raw_screen in
  let raw_screen_height := height raw_screen in
  assert (raw_screen_width <? raw_screen_height) HeightAboveWidth ;;;
  let screen := repeat 0 (Z.to_nat (kCroppedFrameSize * kCroppedFrameSize)) in
  g <- crop_geometry raw_screen_width raw_screen_height ;;
  for_below 0 kCroppedFrameSize (fun i screen =>
    for_below 0 kCroppedFrameSize (fun j screen =>
      resulting_color <- resample_cell raw_screen g i j ;;
      write screen (i * kCroppedFrameSize + j) resulting_color) screen) screen.

End Preprocess.

(** ** The agent: action selection, replay memory, minibatch assembly *)

(** [size_t] is 64 bits wide; passing a [size_t] where an [int] is expected
    keeps the low 32 bits, read as two's complement. *)
Definition size_t_wrap (z : Z) : Z := z mod 2 ^ 64.

Definition int_of_size_t (u : Z) : Z :=
  let low := u mod 2 ^ 32 in
  if low <? 2 ^ 31 then low else low - 2 ^ 32.

(** [v.size() - 1], as the [int] argument of a distribution. *)
Definition size_minus_1 {A : Type} (v : list A) : Z :=
  int_of_size_t (size_t_wrap (Z.of_nat (length v) - 1)).

(** [std::fill(a.begin() + from, a.begin() + to, v)]. *)
Definition fill {A : Type} (a : list A) (from to : Z) (v : A) : result (list A) :=
  if (from <? 0) || (to <? from) || (Z.of_nat (length a) <? to)
  then Undefined OutOfBounds
  else Ok (firstn (Z.to_nat from) a
             ++ repeat v (Z.to_nat (to - from))
             ++ skipn (Z.to_nat to) a).

(** [std::copy(src.begin(), src.end(), a.begin() + at)]. *)
Definition copy {A : Type} (src a : list A) (at_ : Z) : result (list A) :=
  if (at_ <? 0) || (Z.of_nat (length a) <? at_ + Z.of_nat (length src))
  then Undefined OutOfBounds
  else Ok (firstn (Z.to_nat at_) a
             ++ src
             ++ skipn (Z.to_nat at_ + length src) a).

(** [pop_front] of a deque. *)
Definition pop_front {A : Type} (q : list A) : result (list A) :=
  match q with
  | [] => Undefined PopEmpty
  | _ :: q' => Ok q'
  end.

(** A [float] compared with a [double] is first widened, which is exact. *)
Definition widen (x : spec_float) : Fp.double :=
  match x with
  | S754_finite s m e => binary_round 53 1024 s m e
  | _ => x
  end.

(** A processed frame: [kCroppedFrameDataSize] intensities, row by row. *)
Definition FrameData : Type := list Z.

(** [InputFrames]: the [kInputFrameCount] frames of one decision point. *)
Definition InputFrames : Type := list FrameData.

Section Agent.

(** Declared outside dqn.cpp: the action type of the emulator with its
    conversion to [int], the random engine with what
    [std::uniform_int_distribution<int>(a, b)] draws from it when
    [a <= b] (the draw then lies in [[a, b]]), and the constants of
    dqn.hpp.  The distribution is never consulted outside [a <= b]: see
    [draw]. *)
Variable Action : Type.
Variable action_to_int : Action -> Z.
Variable Engine : Type.
Variable uniform_int_distribution : Z -> Z -> Engine -> Z * Engine.

Variable kCroppedFrameSize : Z.
Variable kInputFrameCount : Z.
Variable kMinibatchSize : Z.
Variable kOutputCount : Z.

Definition kCroppedFrameDataSize : Z := kCroppedFrameSize * kCroppedFrameSize.
Definition kInputDataSize : Z := kCroppedFrameDataSize * kInputFrameCount.

(** [Transition]: the fields are [std::get<0>] to [std::get<3>]; the last
    is empty for a terminal transition. *)
Record Transition : Type := {
  tr_frames : InputFrames;
  tr_action : Action;
  tr_reward : spec_float;
  tr_next : option FrameData
}.

(** The members of [DQN] that [SelectAction], [AddTransition] and the
    assembly of [Update] read or write, and the random engine they share.
    The network ([net_], [solver_], the input layers, [deconv_blob_]) is
    not embedded: nothing below says what [InputDataIntoLayers] and
    [solver_->Step(1)] do to it at the end of [Update]. *)
Record DQN : Type := {
  legal_actions_ : list Action;
  replay_memory_capacity_ : Z;
  replay_memory_ : list Transition;
  random_engine : Engine
}.

Definition with_engine (d : DQN) (g : Engine) : DQN :=
  {| legal_actions_ := legal_actions_ d;
     replay_memory_capacity_ := replay_memory_capacity_ d;
     replay_memory_ := replay_memory_ d;
     random_engine := g |}.

Definition with_memory (d : DQN) (m : list Transition) : DQN :=
  {| legal_actions_ := legal_actions_ d;
     replay_memory_capacity_ := replay_memory_capacity_ d;
     replay_memory_ := m;
     random_engine := random_engine d |}.

(** [std::uniform_int_distribution<int>(a, b)(random_engine)].  The
    constructor requires [a <= b]; with [b < a] the behaviour is undefined
    at the call, and nothing is drawn. *)
Definition draw (a b : Z) (g : Engine) : result (Z * Engine) :=
  if a <=? b then Ok (uniform_int_distribution a b g)
  else Undefined InvertedBounds.

Definition SelectAction (last_frames : InputFrames) (epsilon : Fp.double) (d : DQN)
  : result (Action * DQN) :=
  drawn <- draw 0 (size_minus_1 (legal_actions_ d)) (random_engine d) ;;
  let '(random_idx, g) := drawn in
  a <- read (legal_actions_ d) random_idx ;;
  Ok (a, with_engine d g).

Definition AddTransition (transition : Transition) (d : DQN) : result DQN :=
  m <- (if Z.of_nat (length (replay_memory_ d)) =? replay_memory_capacity_ d
        then pop_front (replay_memory_ d)
        else Ok (replay_memory_ d)) ;;
  Ok (with_memory d (m ++ [transition])).

(** The first loop of [Update]: [n] draws appended to [transitions]. *)
Fixpoint sample_transitions (n : nat) (d : DQN) (transitions : list Z)
  : result (list Z * DQN) :=
  match n with
  | O => Ok (transitions, d)
  | S n' =>
      drawn <- draw 0 (size_minus_1 (replay_memory_ d)) (random_engine d) ;;
      let '(random_transition_idx, g) := drawn in
      sample_transitions n' (with_engine d g) (transitions ++ [random_transition_idx])
  end.

(** The copies of the frames of a transition into row [i] of [frames_input]. *)
Definition copy_input_frames (frames : InputFrames) (i : Z) (frames_input : list Z)
  : result (list Z) :=
  for_below 0 kInputFrameCount (fun j frames_input =>
    frame_data <- read frames j ;;
    copy frame_data frames_input (i * kInputDataSize + j * kCroppedFrameDataSize))
    frames_input.

(** The part of the second loop of [Update] that writes row [i] of
    [target_input]. *)
Definition assemble_target (transition : Transition) (i : Z) (target_input : list Z)
  : result (list Z) :=
  match tr_next transition with
  | None =>
      fill target_input (i * kCroppedFrameDataSize)
           ((i + 1) * kCroppedFrameDataSize) 0
  | Some next_frame_data =>
      copy next_frame_data target_input (i * kCroppedFrameDataSize)
  end.

Definition reward_in_range (reward : spec_float) : bool :=
  Fp.leb (SFopp Fp.d1_0) (widen reward) && Fp.leb (widen reward) Fp.d1_0.

(** One round of the second loop of [Update]. *)
Definition assemble_row (d : DQN) (transitions : list Z) (i : Z)
    (io : list Z * list Z) : result (list Z * list Z) :=
  let '(frames_input, target_input) := io in
  idx <- read transitions i ;;
  transition <- read (replay_memory_ d) idx ;;
  assert (action_to_int (tr_action transition) <? kOutputCount) ActionRange ;;;
  assert (reward_in_range (tr_reward transition)) RewardRange ;;;
  target_input <- assemble_target transition i target_input ;;
  frames_input <- copy_input_frames (tr_frames transition) i frames_input ;;
  Ok (frames_input, target_input).

(** [Update], up to the call of [InputDataIntoLayers]: the result is the
    pair of arrays handed to the network.  [frames_input] and
    [target_input] are uninitialised locals; their indeterminate first
    contents are arguments. *)
Definition Update (frames_input target_input : list Z) (d : DQN)
  : result (list Z * list Z * DQN) :=
  sampled <- sample_transitions (Z.to_nat kMinibatchSize) d [] ;;
  let '(transitions, d) := sampled in
  io <- for_below 0 kMinibatchSize (assemble_row d transitions)
          (frames_input, target_input) ;;
  Ok (io, d).

(** The calls of [AddTransition] for a sequence of transitions, oldest first. *)
Fixpoint push_all (ts : list Transition) (d : DQN) : result DQN :=
  match ts with
  | [] => Ok d
  | t :: ts' => d' <- AddTransition t d ;; push_all ts' d'
  end.

(** Row [i] of a tensor whose rows hold [n] values. *)
Definition row (n i : Z) (tensor : list Z) : list Z :=
  firstn (Z.to_nat n) (skipn (Z.to_nat (i * n)) tensor).

(** What the types and the assertions of [Update] require of a stored
    transition: [kInputFrameCount] frames of [kCroppedFrameDataSize] values
    each, a next frame of that size if there is one, an action below
    [kOutputCount] and a reward in [[-1, 1]]. *)
Definition frame_sized (f : FrameData) : Prop :=
  Z.of_nat (length f) = kCroppedFrameDataSize.

Definition valid_transition (t : Transition) : Prop :=
  Z.of_nat (length (tr_frames t)) = kInputFrameCount /\
  Forall frame_sized (tr_frames t) /\
  (forall f, tr_next t = Some f -> frame_sized f) /\
  action_to_int (tr_action t) < kOutputCount /\
  reward_in_range (tr_reward t) = true.

End Agent.

Arguments tr_frames {Action} t.
Arguments tr_action {Action} t.
Arguments tr_reward {Action} t.
Arguments tr_next {Action} t.
Arguments legal_actions_ {Action Engine} d.
Arguments replay_memory_capacity_ {Action Engine} d.
Arguments replay_memory_ {Action Engine} d.
Arguments random_engine {Action Engine} d.
Arguments with_engine {Action Engine} d g.
Arguments with_memory {Action Engine} d m.
Arguments draw {Engine} uniform_int_distribution a b g.
Arguments SelectAction {Action Engine} uniform_int_distribution last_frames epsilon d.
Arguments AddTransition {Action Engine} transition d.
Arguments push_all {Action Engine} ts d.
Arguments sample_transitions {Action Engine} uniform_int_distribution n d transitions.
Arguments assemble_target {Action} kCroppedFrameSize transition i target_input.
Arguments assemble_row {Action} action_to_int {Engine}
  kCroppedFrameSize kInputFrameCount kOutputCount d transitions i io.
Arguments Update {Action} action_to_int {Engine} uniform_int_distribution
  kCroppedFrameSize kInputFrameCount kMinibatchSize kOutputCount
  frames_input target_input d.
Arguments valid_transition {Action} action_to_int
  kCroppedFrameSize kInputFrameCount kOutputCount t.

(** The row that [Update] is to assemble for a transition. *)
Definition target_of {Action : Type} (kCroppedFrameSize : Z) (t : Transition Action) : list Z :=
  match tr_next t with
  | None => repeat 0 (Z.to_nat (kCroppedFrameDataSize kCroppedFrameSize))
  | Some next_frame_data => next_frame_data
  end.

(** The last [n] elements of a list. *)
Definition keep_last {A : Type} (n : nat) (l : list A) : list A :=
  skipn (length l - n) l.

(** ** Reference quantities of the specification *)

(** The cell value as the specification words it: the shares are summed in
    [double] and the sum is converted to an intensity once, at the end. *)
Definition accumulate_sum
    (raw_pixels : list Z) (raw_screen_width : Z) (x_ratio y_ratio : Fp.double)
    (x y : Z) (x_w y_w : Fp.double) (sum : Fp.double) : result Fp.double :=
  idx <- int_arith (y * raw_screen_width + x) ;;
  pixel <- read raw_pixels idx ;;
  grayscale <- PixelToGrayscale pixel ;;
  Ok (Fp.add sum (Fp.mul (pixel_weight x_ratio y_ratio x_w y_w) (Fp.of_int grayscale))).

Definition weighted_sum_converted_once (raw_screen : ALEScreen) (g : geometry) (i j : Z)
  : result Z :=
  sum <- for_covered_pixels (x_ratio g) (y_ratio g) (start_x g) (start_y g) i j
           (accumulate_sum (getArray raw_screen) (width raw_screen) (x_ratio g) (y_ratio g))
           Fp.d0_0 ;;
  Fp.to_uint8 sum.

(** The values [resulting_color] takes for cell [(i, j)], one after each
    [+=], together with the last. *)
Definition resample_cell_steps (raw_screen : ALEScreen) (g : geometry) (i j : Z)
  : result (Z * list Z) :=
  for_covered_pixels (x_ratio g) (y_ratio g) (start_x g) (start_y g) i j
    (fun x y x_w y_w acc =>
       c <- accumulate_color (getArray raw_screen) (width raw_screen)
              (x_ratio g) (y_ratio g) x y x_w y_w (fst acc) ;;
       Ok (c, snd acc ++ [c]))
    (0, []).

(** The weights of the pixels the inner loops visit for cell [(i, j)], in
    the order of the visit, and their sum. *)
Definition cell_weights (g : geometry) (i j : Z) : result (list Fp.double) :=
  for_covered_pixels (x_ratio g) (y_ratio g) (start_x g) (start_y g) i j
    (fun _ _ x_w y_w acc => Ok (acc ++ [pixel_weight (x_ratio g) (y_ratio g) x_w y_w]))
    [].

Definition sum_of (ws : list Fp.double) : Fp.double := fold_left Fp.add ws Fp.d0_0.

(** [|s - 1| <= 1e-9]. *)
Definition d1em9 : Fp.double := Fp.div (Fp.of_int 1) (Fp.of_int 1000000000).

Definition near_one (s : Fp.double) : bool :=
  Fp.leb (Fp.sub s Fp.d1_0) d1em9 && Fp.leb (Fp.sub Fp.d1_0 s) d1em9.

(** The linear indices at which the inner loops read [raw_pixels] for cell
    [(i, j)], in the order of the reads. *)
Definition cell_indices (raw_screen_width : Z) (g : geometry) (i j : Z) : result (list Z) :=
  for_covered_pixels (x_ratio g) (y_ratio g) (start_x g) (start_y g) i j
    (fun x y _ _ acc => idx <- int_arith (y * raw_screen_width + x) ;; Ok (acc ++ [idx]))
    [].

(** ** Concrete instances *)

(** Modelled from the spec: dqn.hpp, which declares [kCroppedFrameSize], is
    not among the sources; the specification gives 84 for the edge of a
    frame. *)
Definition kCroppedFrameSize_spec : Z := 84.

(** A screen of one colour. *)
Definition uniform_screen (w h code : Z) : ALEScreen :=
  {| width := w; height := h; getArray := repeat code (Z.to_nat (w * h)) |}.

(** A linear congruential engine with a distribution that reduces modulo
    the width of the range; for [a <= b], the only bounds [draw] passes on,
    it meets the contract of the distribution. *)
Definition lcg_next (g : Z) : Z := (g * 1103515245 + 12345) mod 2 ^ 31.

Definition lcg_uniform (a b : Z) (g : Z) : Z * Z :=
  (a + lcg_next g mod (b - a + 1), lcg_next g).

(** [src] laid over [a] from position [p] on: what [std::copy] and
    [std::fill] leave in the destination. *)
Definition splice {A : Type} (a : list A) (p : nat) (src : list A) : list A :=
  firstn p a ++ src ++ skipn (p + length src) a.

(** A small agent for the examples: frames of 2 x 2 values, two frames to
    a decision point, minibatches of three, a replay memory for three
    transitions, the engine [lcg_uniform]. *)
Definition demo_frame (v : Z) : FrameData := repeat v 4.

Definition demo_transition (a : Z) (next : option FrameData) : Transition Z :=
  {| tr_frames := [demo_frame 1; demo_frame 2];
     tr_action := a;
     tr_reward := S754_zero false;
     tr_next := next |}.

Definition demo_agent (memory : list (Transition Z)) : DQN Z Z :=
  {| legal_actions_ := [0; 1; 3; 4];
     replay_memory_capacity_ := 3;
     replay_memory_ := memory;
     random_engine := 2024 |}.

(** Four transitions to push, and a memory of one terminal and one
    non-terminal transition. *)
Definition demo_pushes : list (Transition Z) :=
  [demo_transition 1 None; demo_transition 2 None;
   demo_transition 3 None; demo_transition 4 None].

Definition demo_memory : list (Transition Z) :=
  [demo_transition 0 None; demo_transition 1 (Some [7; 8; 9; 10])].

(** The integers from 0 up to [n], excluded. *)
Definition Z_below (n : nat) : list Z := map Z.of_nat (seq 0 n).

(** ** Notions for the rounding lemmas *)

(** The exponent binary64 gives a number whose leading bit has weight
    [2 ^ (e - 1)]: [fexp 53 1024]. *)
Definition fexp64 (e : Z) : Z := Z.max (e - 53) (-1074).

(** A shift record that has lost no bit so far. *)
Definition exact_rec (r : shr_record) : Prop := shr_r r = false /\ shr_s r = false.

(** The three outcomes of [binary_round_aux] on a mantissa that needs no
    left shift: [m1] is the mantissa after the first shift and the rounding,
    [f] its exponent. *)
Inductive rounded (s : bool) (f m1 : Z) : spec_float -> Prop :=
| rounded_zero : m1 = 0 -> rounded s f m1 (S754_zero s)
| rounded_plain :
    0 < m1 < 2 ^ 53 -> fexp64 (Zdigits2 m1 + f) = f ->
    rounded s f m1 (if f <=? 971 then S754_finite s (Z.to_pos m1) f
                    else S754_infinity s)
| rounded_carry :
    m1 = 2 ^ 53 ->
    rounded s f m1 (if f + 1 <=? 971 then S754_finite s (Z.to_pos (2 ^ 52)) (f + 1)
                    else S754_infinity s).

(** A binary64 number in canonical form. *)
Definition valid64 (x : spec_float) : Prop := valid_binary 53 1024 x = true.

(** [enclosed lo hi x]: [x] is a zero or a finite number of non-positive
    exponent, and [lo <= x <= hi]. *)
Definition enclosed (lo hi : Z) (x : spec_float) : Prop :=
  match x with
  | S754_zero _ => lo <= 0 <= hi
  | S754_finite s m e =>
      e <= 0 /\ lo * 2 ^ (- e) <= cond_Zopp s (Z.pos m) <= hi * 2 ^ (- e)
  | _ => False
  end.

(** A run stopped by one of the two assertions on the weights. *)
Definition ratio_assertion_failed {A : Type} (r : result A) : Prop :=
  r = AssertFailed XRatioRange \/ r = AssertFailed YRatioRange.

(** ** Drawing a frame *)

(** The digits of [std::hex]. *)
Definition hex_digit (d : Z) : ascii :=
  nth (Z.to_nat d)
      ["0"; "1"; "2"; "3"; "4"; "5"; "6"; "7";
       "8"; "9"; "a"; "b"; "c"; "d"; "e"; "f"]%char "0"%char.

(** The digits of [n], most significant first, for at most [width] digits. *)
Fixpoint hex_digits (width : nat) (n : Z) : list ascii :=
  match width with
  | O => []
  | S width' =>
      (if n <? 16 then [] else hex_digits width' (n / 16)) ++ [hex_digit (n mod 16)]
  end.

(** [o << std::hex << n] for an [int]: the value is written as the
    unsigned number of the same 32 bits, which has at most eight digits,
    with neither prefix nor padding.  The stream [o] is the text written so
    far. *)
Definition put_hex (o : list ascii) (n : Z) : list ascii :=
  o ++ hex_digits 8 (n mod 2 ^ 32).

(** [o << std::endl]. *)
Definition newline : ascii := ascii_of_nat 10.

Definition put_endl (o : list ascii) : list ascii := o ++ [newline].

Section Drawing.

Variable kCroppedFrameSize : Z.

(** A cell of a frame is a [uint8_t], promoted to [int] for the division. *)
Definition DrawFrame (frame : FrameData) : result (list ascii) :=
  for_below 0 kCroppedFrameSize (fun row o =>
    o <- for_below 0 kCroppedFrameSize (fun col o =>
           cell <- read frame (row * kCroppedFrameSize + col) ;;
           Ok (put_hex o (Z.quot cell 16))) o ;;
    Ok (put_endl o)) [].

(** Line [row] of the drawing of a frame of bytes: one digit for each cell,
    then the end of the line. *)
Definition frame_line (frame : FrameData) (row : Z) : list ascii :=
  map (fun col => hex_digit (nth (Z.to_nat (row * kCroppedFrameSize + col)) frame 0 / 16))
      (Z_below (Z.to_nat kCroppedFrameSize))
  ++ [newline].

End Drawing.

(** ** Printing the action values *)

(** The three assertions at the head of [PrintQValues]. *)
Inductive print_assertion : Set :=
| QValuesNotEmpty     (* !q_values.empty() *)
| ActionsNotEmpty     (* !actions.empty() *)
| SameSize.           (* q_values.size() == actions.size() *)

(** [o.width(w); o << s]: a stream adjusts to the right unless told
    otherwise, so the field is filled with spaces on the left up to [w]
    characters; a longer string is written whole. *)
Definition put_width (o : list ascii) (w : Z) (s : list ascii) : list ascii :=
  o ++ repeat " "%char (Z.to_nat (w - Z.of_nat (length s))) ++ s.

Definition PLAYER_A_ : list ascii := ["P"; "L"; "A"; "Y"; "E"; "R"; "_"; "A"; "_"]%char.

Section Printing.

(** Declared outside dqn.cpp: the action type of the emulator with
    [action_to_string], [boost::algorithm::replace_all_copy], and
    [std::to_string] for a [float]. *)
Variable Action : Type.
Variable action_to_string : Action -> list ascii.
Variable replace_all_copy : list ascii -> list ascii -> list ascii -> list ascii.
Variable to_string : spec_float -> list ascii.

(** One round of the loop of [PrintQValues]; its counter is an [int], and
    the size of a string is too far from the end of [size_t] for
    [column_size] to wrap. *)
Definition print_column (q_values : list spec_float) (actions : list Action)
    (i : Z) (bufs : list ascii * list ascii) : result (list ascii * list ascii) :=
  let '(actions_buf, q_values_buf) := bufs in
  action <- read actions i ;;
  let a_str := replace_all_copy (action_to_string action) PLAYER_A_ [] in
  q_value <- read q_values i ;;
  let q_str := to_string q_value in
  let column_size := Z.max (Z.of_nat (length a_str)) (Z.of_nat (length q_str)) + 1 in
  let actions_buf := put_width actions_buf column_size a_str in
  let q_values_buf := put_width q_values_buf column_size q_str in
  int_arith (i + 1) ;;;
  Ok (actions_buf, q_values_buf).

(** [inl] names the assertion that stopped the call; otherwise [inr] holds
    the outcome of the loop and the text. *)
Definition PrintQValues (q_values : list spec_float) (actions : list Action)
  : print_assertion + result (list ascii) :=
  match q_values, actions with
  | [], _ => inl QValuesNotEmpty
  | _ :: _, [] => inl ActionsNotEmpty
  | _ :: _, _ :: _ =>
      if negb (length q_values =? length actions)%nat then inl SameSize
      else inr (bufs <- for_below 0 (Z.of_nat (length q_values))
                          (print_column q_values actions) ([], []) ;;
                let '(actions_buf, q_values_buf) := bufs in
                Ok (put_endl actions_buf ++ put_endl q_values_buf))
  end.

(** The two fields of a column. *)
Definition column (action : Action) (q_value : spec_float) : list ascii * list ascii :=
  let a_str := replace_all_copy (action_to_string action) PLAYER_A_ [] in
  let q_str := to_string q_value in
  let column_size := Z.max (Z.of_nat (length a_str)) (Z.of_nat (length q_str)) + 1 in
  (put_width [] column_size a_str, put_width [] column_size q_str).

End Printing.

Arguments print_column {Action} action_to_string replace_all_copy to_string
  q_values actions i bufs.
Arguments PrintQValues {Action} action_to_string replace_all_copy to_string
  q_values actions.
Arguments column {Action} action_to_string replace_all_copy to_string action q_value.

(** ** The inputs of a prediction *)

(** [DQN::PredictNextFrame], up to the call of [InputDataIntoLayers]: the
    result is the pair of arrays handed to the network.  The indeterminate
    first contents of the two local arrays are arguments. *)
Definition PredictNextFrame (kCroppedFrameSize kInputFrameCount : Z)
    (input_frames : InputFrames) (frames_input target_input : list Z)
  : result (list Z * list Z) :=
  frames_input <- fill frames_input 0 (Z.of_nat (length frames_input)) 0 ;;
  target_input <- fill target_input 0 (Z.of_nat (length target_input)) 0 ;;
  frames_input <-
    for_below 0 kInputFrameCount (fun j frames_input =>
      frame_data <- read input_frames j ;;
      copy frame_data frames_input (j * kCroppedFrameDataSize kCroppedFrameSize))
      frames_input ;;
  Ok (frames_input, target_input).

(** ** Checks against integer arithmetic *)

(** The two conversions at the head of [crop_geometry] against the values
    that integer arithmetic gives for them. *)
Definition crop_rows_agree (H : Z) : bool :=
  match Fp.to_int (Fp.mul Fp.d0_92 (Fp.of_int H)) with
  | Ok c =>
      (c =? 92 * H / 100) &&
      match Fp.to_int (Fp.f32_div (Fp.f32_of_int (H - c)) Fp.f2_0) with
      | Ok sy => sy =? (H - c) / 2
      | _ => false
      end
  | _ => false
  end.

(** The decoding of a palette entry against the packing it undoes. *)
Definition decodes (pixel : Z) : bool :=
  match read ntsc_to_rgb pixel, PixelToRGB pixel with
  | Ok rgb, Ok (r, g, b) =>
      in_byte r && in_byte g && in_byte b &&
      (rgb =? r * 65536 + g * 256 + b) &&
      (if Z.odd pixel then rgb =? 0 else true)
  | _, _ => false
  end.

(** [enclosed_at k lo hi x]: [x] is a zero or a finite number whose
    exponent is at most [- k], and [lo <= x * 2 ^ k <= hi]. *)
Definition enclosed_at (k lo hi : Z) (x : spec_float) : Prop :=
  match x with
  | S754_zero _ => lo <= 0 <= hi
  | S754_finite s m e =>
      e <= - k /\
      lo * 2 ^ (- e - k) <= cond_Zopp s (Z.pos m) <= hi * 2 ^ (- e - k)
  | _ => False
  end.

(** ** Bounds for the shares of the pixels *)

(** The greatest multiple of [2 ^ (- k)] that is not above, and the least
    that is not below, a number that is not negative, both in units of
    [2 ^ (- k)]. *)
Definition share_bounds (k : Z) (w : spec_float) : option (Z * Z) :=
  match w with
  | S754_zero _ => Some (0, 0)
  | S754_finite false m e =>
      if e <=? - k
      then Some (Z.pos m / 2 ^ (- e - k), - ((- Z.pos m) / 2 ^ (- e - k)))
      else None
  | _ => None
  end.

(** The share of source pixel [p] in output cell [cell] along one axis, as
    [pixel_weight] divides it, and its bounds at the scale [2 ^ (- 20)]
    ([-1] when there is none). *)
Definition axis_share (ratio : Fp.double) (start cell first last p : Z) : Fp.double :=
  Fp.div (ratio_in_resulting_pixel ratio start cell first last p) ratio.

Definition axis_lower (ratio : Fp.double) (start cell first last p : Z) : Z :=
  match share_bounds 20 (axis_share ratio start cell first last p) with
  | Some (l, _) => l
  | None => -1
  end.

Definition axis_upper (ratio : Fp.double) (start cell first last p : Z) : Z :=
  match share_bounds 20 (axis_share ratio start cell first last p) with
  | Some (_, u) => u
  | None => -1
  end.

(** The sum of the first [n] values of [u] from [first] on. *)
Fixpoint sum_from (u : Z -> Z) (first : Z) (n : nat) : Z :=
  match n with
  | O => 0
  | S n' => sum_from u first n' + u (first + Z.of_nat n')
  end.

(** An axis of [cells] output cells is within bounds when every cell covers
    at most [span] source pixels, all in [[low, high]], every share has its
    bounds, and the bounds of a cell sum to 1 up to [8 * 2 ^ (- 20)]. *)
Definition axis_within (ratio : Fp.double) (start low high span : Z) (cells : nat)
  : bool :=
  forallb (fun cell =>
    match cell_bounds ratio start cell with
    | Ok (first, last) =>
        (low <=? first) && (last <=? high) && (last + 1 - first <=? span) &&
        forallb (fun n => 0 <=? axis_lower ratio start cell first last (first + n))
                (Z_below (Z.to_nat (last + 1 - first))) &&
        (sum_from (axis_upper ratio start cell first last) first
                  (Z.to_nat (last + 1 - first)) <=? 2 ^ 20 + 8) &&
        (2 ^ 20 - 8 <=? sum_from (axis_lower ratio start cell first last) first
                                 (Z.to_nat (last + 1 - first)))
    | _ => false
    end) (Z_below cells).

(** The bounds of cell [k] along an axis of [cells] cells over [size]
    source pixels against the values that integer arithmetic gives. *)
Definition grid_agrees (ratio : Fp.double) (start size cells k : Z) : bool :=
  match cell_bounds ratio start k with
  | Ok (first, last) =>
      (first =? start + size * k / cells) && (last =? start + size * (k + 1) / cells)
  | _ => false
  end.

(** ** Further instances *)

(** A screen of 12 x 30 pixels of one gray, and the frame of 4 x 4 cells
    that [PreprocessScreen] makes of it. *)
Definition small_screen : ALEScreen := uniform_screen 12 30 2.

Definition small_frame : FrameData :=
  [68; 68; 68; 68; 67; 67; 67; 67; 67; 67; 67; 67; 68; 68; 68; 68].

(** Two frames of 2 x 2 cells that differ in the low four bits of every
    cell only. *)
Definition tiny_frame : FrameData := [0; 16; 255; 128].
Definition tiny_frame' : FrameData := [15; 31; 240; 143].

(** Stand-ins for the conversions to text that [PrintQValues] calls. *)
Definition demo_action_to_string (a : Z) : list ascii :=
  PLAYER_A_ ++ (if a =? 0 then ["N"; "O"; "O"; "P"]%char else ["F"; "I"; "R"; "E"]%char).

Definition demo_replace_all_copy (s pattern replacement : list ascii) : list ascii :=
  skipn (length pattern) s.

Definition demo_to_string (q : spec_float) : list ascii :=
  match q with
  | S754_zero _ => ["0"; "."; "0"; "0"; "0"; "0"; "0"; "0"]%char
  | _ => ["1"; "."; "0"; "0"; "0"; "0"; "0"; "0"]%char
  end.

(** An agent with no legal action, of a given capacity and memory. *)
Definition idle_agent (capacity : Z) (memory : list (Transition Z)) : DQN Z Z :=
  {| legal_actions_ := [];
     replay_memory_capacity_ := capacity;
     replay_memory_ := memory;
     random_engine := 2024 |}.

(** * Properties *)

(** ** Grayscale *)

(** C7.  Under binary64 arithmetic the three products of the all-white
    triple sum to 254.99999999999997, so the conversion to [uint8_t] yields
    254 and not 255; the all-black triple yields 0. *)
Theorem RGBToGrayscale_white_black :
  RGBToGrayscale (255, 255, 255) = Ok 254 /\ RGBToGrayscale (0, 0, 0) = Ok 0.
Proof. split; vm_compute; reflexivity. Qed.

(** The loss is met on the palette itself: code 12 decodes to the gray
    (214, 214, 214), whose intensity comes out as 213. *)
Lemma palette_gray_loses_one :
  PixelToRGB 12 = Ok (214, 214, 214) /\ PixelToGrayscale 12 = Ok 213.
Proof. split; vm_compute; reflexivity. Qed.

(** The sum of the three products itself, before the conversion. *)
Lemma white_sum_below_255 :
  let s := Fp.add (Fp.add (Fp.mul (Fp.of_int 255) Fp.d0_21)
                          (Fp.mul (Fp.of_int 255) Fp.d0_72))
                  (Fp.mul (Fp.of_int 255) Fp.d0_07) in
  s = S754_finite false 8972014882652159 (-45) /\
  Fp.of_int 255 = S754_finite false 8972014882652160 (-45).
Proof. split; vm_compute; reflexivity. Qed.

(** The literals are the correctly rounded quotients of their decimals. *)
Lemma literals_nearest :
  Fp.d0_21 = Fp.div (Fp.of_int 21) (Fp.of_int 100) /\
  Fp.d0_72 = Fp.div (Fp.of_int 72) (Fp.of_int 100) /\
  Fp.d0_07 = Fp.div (Fp.of_int 7) (Fp.of_int 100) /\
  Fp.d0_92 = Fp.div (Fp.of_int 92) (Fp.of_int 100) /\
  Fp.d1_0 = Fp.of_int 1 /\
  Fp.f2_0 = Fp.f32_of_int 2.
Proof. repeat split; vm_compute; reflexivity. Qed.

(** Every palette entry decodes to a triple that passes the assertions of
    [RGBToGrayscale], and to an intensity. *)
Lemma PixelToGrayscale_defined :
  forall pixel, 0 <= pixel <= 255 ->
    exists v, PixelToGrayscale pixel = Ok v /\ 0 <= v <= 255.
Proof.
  intros pixel Hp.
  assert (Hall : forallb (fun p => match PixelToGrayscale p with
                                   | Ok v => (0 <=? v) && (v <=? 255)
                                   | _ => false
                                   end)
                         (map Z.of_nat (seq 0 256)) = true)
    by (vm_compute; reflexivity).
  rewrite forallb_forall in Hall.
  specialize (Hall pixel).
  assert (Hin : In pixel (map Z.of_nat (seq 0 256))).
  { apply in_map_iff. exists (Z.to_nat pixel). split; [lia|].
    apply in_seq. lia. }
  specialize (Hall Hin).
  destruct (PixelToGrayscale pixel) as [v| |]; try discriminate.
  exists v. split; [reflexivity|]. lia.
Qed.

(** ** Loops and arrays *)

Lemma bind_Ok :
  forall (A B : Type) (r : result A) (k : A -> result B) (b : B),
    bind r k = Ok b -> exists a, r = Ok a /\ k a = Ok b.
Proof.
  intros A B [a| |] k b H; simpl in H; try discriminate.
  exists a. split; [reflexivity|exact H].
Qed.

(** An invariant kept by every round of a loop that returns holds at the end. *)
Lemma loop_invariant :
  forall (A : Type) (Inv : Z -> A -> Prop) (body : Z -> A -> result A)
         (n : nat) (k : Z) (acc acc' : A),
    Inv k acc ->
    (forall k' a a', k <= k' < k + Z.of_nat n ->
                     Inv k' a -> body k' a = Ok a' -> Inv (k' + 1) a') ->
    loop n k body acc = Ok acc' ->
    Inv (k + Z.of_nat n) acc'.
Proof.
  intros A Inv body n.
  induction n as [|n IH]; intros k acc acc' Hinv Hstep Hloop.
  - simpl in Hloop. injection Hloop as <-.
    replace (k + Z.of_nat 0) with k by lia. exact Hinv.
  - simpl in Hloop. apply bind_Ok in Hloop as (a1 & Hbody & Hrest).
    replace (k + Z.of_nat (S n)) with ((k + 1) + Z.of_nat n) by lia.
    apply (IH (k + 1) a1 acc').
    + apply (Hstep k acc a1); [lia|exact Hinv|exact Hbody].
    + intros k' a a' Hk'. apply Hstep. lia.
    + exact Hrest.
Qed.

(** A loop whose rounds all return and keep an invariant returns, and the invariant holds at the end. *)
Lemma loop_total :
  forall (A : Type) (Inv : Z -> A -> Prop) (body : Z -> A -> result A)
         (n : nat) (k : Z) (acc : A),
    Inv k acc ->
    (forall k' a, k <= k' < k + Z.of_nat n -> Inv k' a ->
                  exists a', body k' a = Ok a' /\ Inv (k' + 1) a') ->
    exists acc', loop n k body acc = Ok acc' /\ Inv (k + Z.of_nat n) acc'.
Proof.
  intros A Inv body n.
  induction n as [|n IH]; intros k acc Hinv Hstep.
  - exists acc. split; [reflexivity|].
    replace (k + Z.of_nat 0) with k by lia. exact Hinv.
  - destruct (Hstep k acc ltac:(lia) Hinv) as (a1 & Hbody & Hinv1).
    destruct (IH (k + 1) a1 Hinv1) as (acc' & Hloop & Hfinal).
    + intros k' a Hk'. apply Hstep. lia.
    + exists acc'. split; [cbn [loop]; rewrite Hbody; exact Hloop|].
      replace (k + Z.of_nat (S n)) with (k + 1 + Z.of_nat n) by lia. exact Hfinal.
Qed.

Lemma write_Ok :
  forall (A : Type) (a a' : list A) (i : Z) (v : A),
    write a i v = Ok a' ->
    0 <= i < Z.of_nat (length a) /\
    a' = firstn (Z.to_nat i) a ++ v :: skipn (S (Z.to_nat i)) a.
Proof.
  intros A a a' i v H. unfold write in H.
  destruct (i <? 0) eqn:E1; simpl in H; [discriminate|].
  destruct (Z.of_nat (length a) <=? i) eqn:E2; simpl in H; [discriminate|].
  injection H as <-. split; [lia|reflexivity].
Qed.

Lemma write_length :
  forall (A : Type) (a a' : list A) (i : Z) (v : A),
    write a i v = Ok a' -> length a' = length a.
Proof.
  intros A a a' i v H. apply write_Ok in H as [Hi ->].
  rewrite length_app, length_firstn. cbn [length]. rewrite length_skipn. lia.
Qed.

Lemma write_nth_same :
  forall (A : Type) (a a' : list A) (i : Z) (v d : A),
    write a i v = Ok a' -> nth (Z.to_nat i) a' d = v.
Proof.
  intros A a a' i v d H. apply write_Ok in H as [Hi ->].
  rewrite app_nth2; rewrite length_firstn; [|lia].
  replace (Z.to_nat i - Nat.min (Z.to_nat i) (length a))%nat with 0%nat by lia.
  reflexivity.
Qed.

Lemma write_nth_other :
  forall (A : Type) (a a' : list A) (i : Z) (v d : A) (k : nat),
    write a i v = Ok a' -> k <> Z.to_nat i -> nth k a' d = nth k a d.
Proof.
  intros A a a' i v d k H Hk. apply write_Ok in H as [Hi ->].
  destruct (Nat.lt_ge_cases k (Z.to_nat i)) as [Hlt|Hge].
  - rewrite app_nth1 by (rewrite length_firstn; lia).
    rewrite nth_firstn. destruct (k <? Z.to_nat i)%nat eqn:E;
      [reflexivity|apply Nat.ltb_ge in E; lia].
  - rewrite app_nth2 by (rewrite length_firstn; lia).
    rewrite length_firstn.
    replace (Nat.min (Z.to_nat i) (length a)) with (Z.to_nat i) by lia.
    destruct (k - Z.to_nat i)%nat as [|m] eqn:Em; [lia|].
    cbn [nth]. rewrite nth_skipn. f_equal. lia.
Qed.

(** ** The frame of [PreprocessScreen], cell by cell *)

Lemma cell_index_injective :
  forall S i j i' j',
    0 <= i < S -> 0 <= j < S -> 0 <= i' < S -> 0 <= j' < S ->
    Z.to_nat (i * S + j) = Z.to_nat (i' * S + j') -> i = i' /\ j = j'.
Proof.
  intros S i j i' j' Hi Hj Hi' Hj' H.
  assert (H1 : 0 <= i * S) by nia.
  assert (H2 : 0 <= i' * S) by nia.
  assert (E : i * S + j = i' * S + j') by lia.
  destruct (Z.lt_trichotomy i i') as [L|[L|L]].
  - assert ((i + 1) * S <= i' * S) by nia. lia.
  - subst. lia.
  - assert ((i' + 1) * S <= i * S) by nia. lia.
Qed.

(** When [PreprocessScreen] returns a frame, the crop geometry is defined
    and cell [i * kCroppedFrameSize + j] of the frame holds the value of
    [resample_cell] at [(i, j)]. *)
Lemma PreprocessScreen_cells :
  forall (S : Z) (raw_screen : ALEScreen) (frame : list Z),
    PreprocessScreen S raw_screen = Ok frame ->
    width raw_screen < height raw_screen /\
    length frame = Z.to_nat (S * S) /\
    exists g,
      crop_geometry S (width raw_screen) (height raw_screen) = Ok g /\
      forall i j, 0 <= i < S -> 0 <= j < S ->
        resample_cell raw_screen g i j = Ok (nth (Z.to_nat (i * S + j)) frame 0).
Proof.
  intros S raw_screen frame H. unfold PreprocessScreen in H.
  apply bind_Ok in H as ([] & Hassert & H).
  unfold assert in Hassert.
  destruct (width raw_screen <? height raw_screen) eqn:Hwh; [|discriminate].
  apply Z.ltb_lt in Hwh.
  apply bind_Ok in H as (g & Hg & H).
  split; [exact Hwh|].
  set (cellok := fun (scr : list Z) (i j : Z) =>
         resample_cell raw_screen g i j = Ok (nth (Z.to_nat (i * S + j)) scr 0)).
  set (Outer := fun (i : Z) (scr : list Z) =>
         length scr = Z.to_nat (S * S) /\
         forall i' j', 0 <= i' < i -> 0 <= j' < S -> cellok scr i' j').
  assert (Hfinal : Outer (0 + Z.of_nat (Z.to_nat (S - 0))) frame).
  { unfold for_below in H.
    apply (loop_invariant _ Outer _ _ _ _ _) with (3 := H).
    - split; [apply repeat_length|]. intros; lia.
    - intros i scr scr' Hi [Hlen Hdone] Hrow.
      set (Inner := fun (j : Z) (s : list Z) =>
             length s = Z.to_nat (S * S) /\
             (forall i' j', 0 <= i' < i -> 0 <= j' < S -> cellok s i' j') /\
             (forall j', 0 <= j' < j -> cellok s i j')).
      assert (Hin : Inner (0 + Z.of_nat (Z.to_nat (S - 0))) scr').
      { apply (loop_invariant _ Inner _ _ _ _ _) with (3 := Hrow).
        - split; [exact Hlen|]. split; [exact Hdone|]. intros; lia.
        - intros j s s' Hj (Hl & Hprev & Hcur) Hbody.
          apply bind_Ok in Hbody as (c & Hc & Hw).
          pose proof (write_Ok _ _ _ _ _ Hw) as [Hrange _].
          split; [rewrite (write_length _ _ _ _ _ Hw); exact Hl|].
          split.
          + intros i' j' Hi' Hj'. unfold cellok.
            rewrite (write_nth_other _ _ _ _ _ 0 _ Hw).
            * apply Hprev; assumption.
            * intro E. apply cell_index_injective in E; lia.
          + intros j' Hj'. unfold cellok.
            destruct (Z.eq_dec j' j) as [->|Hne].
            * rewrite (write_nth_same _ _ _ _ _ 0 Hw). exact Hc.
            * rewrite (write_nth_other _ _ _ _ _ 0 _ Hw).
              -- apply Hcur. lia.
              -- intro E. apply cell_index_injective in E; lia. }
      destruct Hin as (Hl & Hprev & Hcur).
      split; [exact Hl|].
      intros i' j' Hi' Hj'.
      destruct (Z.eq_dec i' i) as [->|Hne].
      + apply Hcur. lia.
      + apply Hprev; lia. }
  destruct Hfinal as [Hlen Hcells].
  split; [exact Hlen|].
  exists g. split; [exact Hg|].
  intros i j Hi Hj. apply Hcells; lia.
Qed.

(** Conversely, [PreprocessScreen] returns a frame as soon as the screen is
    higher than wide, the crop geometry is defined and every cell has a
    value. *)
Lemma PreprocessScreen_total :
  forall (S : Z) (raw_screen : ALEScreen) (g : geometry),
    width raw_screen < height raw_screen ->
    crop_geometry S (width raw_screen) (height raw_screen) = Ok g ->
    (forall i j, 0 <= i < S -> 0 <= j < S ->
       exists v, resample_cell raw_screen g i j = Ok v) ->
    exists frame, PreprocessScreen S raw_screen = Ok frame.
Proof.
  intros S raw_screen g Hwh Hg Hcells. unfold PreprocessScreen, assert.
  replace (width raw_screen <? height raw_screen) with true
    by (symmetry; apply Z.ltb_lt; exact Hwh).
  cbn [bind]. rewrite Hg. cbn [bind]. unfold for_below.
  set (Sized := fun (_ : Z) (scr : list Z) => length scr = Z.to_nat (S * S)).
  destruct (loop_total _ Sized
              (fun i screen =>
                 loop (Z.to_nat (S - 0)) 0
                   (fun j screen =>
                      resulting_color <- resample_cell raw_screen g i j ;;
                      write screen (i * S + j) resulting_color) screen)
              (Z.to_nat (S - 0)) 0 (repeat 0 (Z.to_nat (S * S))))
    as (frame & Hloop & _).
  - apply repeat_length.
  - intros i scr Hi Hscr.
    destruct (loop_total _ Sized
                (fun j screen =>
                   resulting_color <- resample_cell raw_screen g i j ;;
                   write screen (i * S + j) resulting_color)
                (Z.to_nat (S - 0)) 0 scr Hscr) as (scr' & Hrow & Hscr').
    + intros j a Hj Ha.
      destruct (Hcells i j ltac:(lia) ltac:(lia)) as (v & Hv).
      rewrite Hv. cbn [bind]. unfold write, Sized in *.
      assert (0 <= i * S) by nia.
      assert ((i + 1) * S <= S * S) by nia.
      replace ((i * S + j <? 0) || (Z.of_nat (length a) <=? i * S + j)) with false.
      * eexists. split; [reflexivity|].
        rewrite length_app, length_firstn. cbn [length]. rewrite length_skipn. lia.
      * symmetry. apply orb_false_iff. split; [apply Z.ltb_ge|apply Z.leb_gt]; lia.
    + exists scr'. split; [exact Hrow|exact Hscr'].
  - exists frame. exact Hloop.
Qed.

(** ** Resampling on concrete screens *)

(** The crop geometry of the 160 x 210 screen of the emulator. *)
Lemma crop_geometry_160_210 :
  crop_geometry kCroppedFrameSize_spec 160 210 =
  Ok {| start_x := 8; start_y := 8;
        x_ratio := S754_finite false 8149370754289469 (-52);
        y_ratio := S754_finite false 5173778143348248 (-51) |}.
Proof. vm_compute. reflexivity. Qed.

(** Output cell (0, 0) of the 160 x 210 screen whose pixels all have
    palette code 2. *)
Lemma resample_cell_uniform_160_210 :
  resample_cell (uniform_screen 160 210 2)
    {| start_x := 8; start_y := 8;
       x_ratio := S754_finite false 8149370754289469 (-52);
       y_ratio := S754_finite false 5173778143348248 (-51) |} 0 0 = Ok 71.
Proof. vm_compute. reflexivity. Qed.

(** C1.  On the 160 x 210 screen whose pixels all have palette code 2
    (intensity 74) the six shares of output cell (0, 0) are added to a
    [uint8_t] one by one, each addition dropping the fraction: the cell
    receives 71, while the sum formed in [double] and converted once is 73. *)
Theorem resample_cell_converts_at_every_step :
  exists g,
    crop_geometry kCroppedFrameSize_spec 160 210 = Ok g /\
    PixelToGrayscale 2 = Ok 74 /\
    resample_cell (uniform_screen 160 210 2) g 0 0 = Ok 71 /\
    weighted_sum_converted_once (uniform_screen 160 210 2) g 0 0 = Ok 73.
Proof.
  eexists. split; [exact crop_geometry_160_210|].
  split; [vm_compute; reflexivity|].
  split; [exact resample_cell_uniform_160_210|].
  vm_compute; reflexivity.
Qed.

(** The six additions of that cell, one by one. *)
Example resample_cell_steps_uniform_160_210 :
  resample_cell_steps (uniform_screen 160 210 2)
    {| start_x := 8; start_y := 8;
       x_ratio := S754_finite false 8149370754289469 (-52);
       y_ratio := S754_finite false 5173778143348248 (-51) |} 0 0
  = Ok (71, [17; 34; 39; 53; 67; 71]).
Proof. vm_compute. reflexivity. Qed.

(** The same through [PreprocessScreen]: the first cell of any frame it
    returns for that screen is 71. *)
Lemma PreprocessScreen_uniform_first_cell :
  forall frame,
    PreprocessScreen kCroppedFrameSize_spec (uniform_screen 160 210 2) = Ok frame ->
    nth 0 frame 0 = 71.
Proof.
  intros frame H.
  apply PreprocessScreen_cells in H as (_ & _ & g & Hg & Hcells).
  specialize (Hcells 0 0 ltac:(unfold kCroppedFrameSize_spec; lia)
                    ltac:(unfold kCroppedFrameSize_spec; lia)).
  assert (E : Ok g = Ok {| start_x := 8; start_y := 8;
                           x_ratio := S754_finite false 8149370754289469 (-52);
                           y_ratio := S754_finite false 5173778143348248 (-51) |})
    by (rewrite <- Hg, <- crop_geometry_160_210; reflexivity).
  injection E as ->.
  rewrite resample_cell_uniform_160_210 in Hcells. injection Hcells as Hcells.
  symmetry. exact Hcells.
Qed.

(** C5.  On a 50 x 60 screen both ratios are below 1, the first and the
    last pixel of cell (0, 0) coincide on either axis, the [else if] branch
    is never taken, and the single weight of the cell is about 3.05. *)
Theorem cell_weights_not_normalised_when_upscaling :
  exists g w,
    crop_geometry kCroppedFrameSize_spec 50 60 = Ok g /\
    cell_bounds (x_ratio g) (start_x g) 0 = Ok (8, 8) /\
    cell_bounds (y_ratio g) (start_y g) 0 = Ok (2, 2) /\
    cell_weights g 0 0 = Ok [w] /\
    Fp.ltb (Fp.of_int 3) (sum_of [w]) = true /\
    near_one (sum_of [w]) = false.
Proof.
  exists {| start_x := 8; start_y := 2;
            x_ratio := S754_finite false 4503599627370496 (-53);
            y_ratio := S754_finite false 5897570940604221 (-53) |}.
  exists (S754_finite false 6878224885438576 (-51)).
  repeat split; vm_compute; reflexivity.
Qed.

Lemma Z_below_In : forall n k, 0 <= k < Z.of_nat n -> In k (Z_below n).
Proof.
  intros n k Hk. apply in_map_iff. exists (Z.to_nat k).
  split; [lia|apply in_seq; lia].
Qed.

(** On the 160 x 210 screen of the emulator the weights sum to 1 within
    1e-9 in every cell of the diagonal; a weight is the product of a factor
    that depends on the column and one that depends on the row, and the
    diagonal runs through all of both. *)
Lemma cell_weights_normalised_160_210 :
  exists g,
    crop_geometry kCroppedFrameSize_spec 160 210 = Ok g /\
    forall i, 0 <= i < 84 ->
      exists ws, cell_weights g i i = Ok ws /\ near_one (sum_of ws) = true.
Proof.
  eexists. split; [exact crop_geometry_160_210|].
  intros i Hi.
  set (g := {| start_x := 8 |}).
  assert (Hall : forallb (fun i =>
                   match cell_weights g i i with
                   | Ok ws => near_one (sum_of ws)
                   | _ => false
                   end) (Z_below 84) = true)
    by (vm_cast_no_check (eq_refl true)).
  rewrite forallb_forall in Hall.
  specialize (Hall i (Z_below_In 84 i Hi)).
  destruct (cell_weights g i i) as [ws| |]; try discriminate.
  exists ws. split; [reflexivity|exact Hall].
Qed.

(** C10.  On a 16 x 20 screen the last output cell reads index 320 = 16 * 20,
    one past the end of the pixel array: the cell has no defined value, and
    [PreprocessScreen] returns no frame. *)
Theorem PreprocessScreen_reads_past_the_end :
  length (getArray (uniform_screen 16 20 0)) = 320%nat /\
  exists g,
    crop_geometry kCroppedFrameSize_spec 16 20 = Ok g /\
    cell_bounds (x_ratio g) (start_x g) 83 = Ok (15, 16) /\
    cell_bounds (y_ratio g) (start_y g) 83 = Ok (18, 19) /\
    cell_indices 16 g 83 83 = Ok [303; 319; 304; 320] /\
    resample_cell (uniform_screen 16 20 0) g 83 83 = Undefined OutOfBounds /\
    forall frame, PreprocessScreen kCroppedFrameSize_spec (uniform_screen 16 20 0) <> Ok frame.
Proof.
  split; [vm_compute; reflexivity|].
  exists {| start_x := 8; start_y := 1;
            x_ratio := S754_finite false 6862628003612184 (-56);
            y_ratio := S754_finite false 7720456504063707 (-55) |}.
  assert (Hg : crop_geometry kCroppedFrameSize_spec 16 20 =
               Ok {| start_x := 8; start_y := 1;
                     x_ratio := S754_finite false 6862628003612184 (-56);
                     y_ratio := S754_finite false 7720456504063707 (-55) |})
    by (vm_compute; reflexivity).
  assert (Hcell : resample_cell (uniform_screen 16 20 0)
                    {| start_x := 8; start_y := 1;
                       x_ratio := S754_finite false 6862628003612184 (-56);
                       y_ratio := S754_finite false 7720456504063707 (-55) |} 83 83
                  = Undefined OutOfBounds)
    by (vm_compute; reflexivity).
  split; [exact Hg|].
  split; [vm_compute; reflexivity|].
  split; [vm_compute; reflexivity|].
  split; [vm_compute; reflexivity|].
  split; [exact Hcell|].
  intros frame H.
  apply PreprocessScreen_cells in H as (_ & _ & g & Hg' & Hcells).
  specialize (Hcells 83 83 ltac:(unfold kCroppedFrameSize_spec; lia)
                    ltac:(unfold kCroppedFrameSize_spec; lia)).
  assert (E : Ok g = Ok {| start_x := 8; start_y := 1;
                           x_ratio := S754_finite false 6862628003612184 (-56);
                           y_ratio := S754_finite false 7720456504063707 (-55) |})
    by (rewrite <- Hg, <- Hg'; reflexivity).
  injection E as ->.
  rewrite Hcell in Hcells. discriminate.
Qed.

(** On the 160 x 210 screen the columns read for a cell lie in [[8, 160]]
    and the rows in [[8, 201]], so that every index read lies inside the
    array; at the right edge column 160 is read, which is the first pixel of
    the next row. *)
Lemma cell_indices_160_210 :
  exists g,
    crop_geometry kCroppedFrameSize_spec 160 210 = Ok g /\
    (forall j, 0 <= j < 84 ->
       exists first_x last_x,
         cell_bounds (x_ratio g) (start_x g) j = Ok (first_x, last_x) /\
         8 <= first_x <= last_x /\ last_x <= 160) /\
    (forall i, 0 <= i < 84 ->
       exists first_y last_y,
         cell_bounds (y_ratio g) (start_y g) i = Ok (first_y, last_y) /\
         8 <= first_y <= last_y /\ last_y <= 201) /\
    (forall x y, 8 <= x <= 160 -> 8 <= y <= 201 -> 0 <= y * 160 + x < 160 * 210) /\
    cell_indices 160 g 0 83 = Ok [1438; 1598; 1758; 1439; 1599; 1759; 1440; 1600; 1760].
Proof.
  eexists. split; [exact crop_geometry_160_210|].
  set (g := {| start_x := 8 |}).
  assert (Hall : forall ratio start bound,
            forallb (fun k => match cell_bounds ratio start k with
                              | Ok (first, last) =>
                                  (8 <=? first) && (first <=? last) && (last <=? bound)
                              | _ => false
                              end) (Z_below 84) = true ->
            forall k, 0 <= k < 84 ->
              exists first last,
                cell_bounds ratio start k = Ok (first, last) /\
                8 <= first <= last /\ last <= bound).
  { intros ratio start bound H k Hk.
    rewrite forallb_forall in H. specialize (H k (Z_below_In 84 k Hk)).
    destruct (cell_bounds ratio start k) as [[first last]| |]; try discriminate.
    exists first, last. split; [reflexivity|]. lia. }
  split; [apply Hall; vm_compute; reflexivity|].
  split; [apply Hall; vm_compute; reflexivity|].
  split; [intros; lia|].
  vm_compute; reflexivity.
Qed.

(** ** Rounding in binary64

    [SpecFloat] rounds in two steps: a right shift of the mantissa that
    keeps 53 bits and remembers what was lost, then the choice between the
    mantissa and its successor.  The lemmas below say what the steps return
    ([binary_round_aux_cases]), that every result is in canonical form
    ([valid64]), and that a sum or difference whose exact value lies between
    two integers of at most 52 bits is rounded to a number between the same
    two integers ([SFadd_enclosed]). *)

Lemma fexp_fexp64 : forall e, fexp 53 1024 e = fexp64 e.
Proof. intros e. reflexivity. Qed.

(** A mantissa of [d] binary digits lies in [[2 ^ (d - 1), 2 ^ d)]. *)
Lemma digits2_pos_bounds :
  forall m, 2 ^ (Zpos (digits2_pos m) - 1) <= Zpos m < 2 ^ Zpos (digits2_pos m).
Proof.
  induction m as [m IH|m IH|]; cbn [digits2_pos].
  - rewrite Pos2Z.inj_succ.
    replace (Z.succ (Z.pos (digits2_pos m)) - 1) with (Z.succ (Z.pos (digits2_pos m) - 1)) by lia.
    rewrite !Z.pow_succ_r by lia. lia.
  - rewrite Pos2Z.inj_succ.
    replace (Z.succ (Z.pos (digits2_pos m)) - 1) with (Z.succ (Z.pos (digits2_pos m) - 1)) by lia.
    rewrite !Z.pow_succ_r by lia. lia.
  - simpl. lia.
Qed.

Lemma Zdigits2_bounds :
  forall m, 0 < m -> 0 < Zdigits2 m /\ 2 ^ (Zdigits2 m - 1) <= m < 2 ^ Zdigits2 m.
Proof.
  intros [|p|p] H; try lia. simpl. split; [lia|apply digits2_pos_bounds].
Qed.

Lemma Zdigits2_unique :
  forall m a, 2 ^ (a - 1) <= m < 2 ^ a -> 0 < m -> Zdigits2 m = a.
Proof.
  intros m a Ha Hm.
  destruct (Zdigits2_bounds m Hm) as (Hd & Hlo & Hhi).
  assert (0 < a).
  { destruct (Z.lt_trichotomy a 0) as [L|[L|L]]; try lia.
    - rewrite (Z.pow_neg_r 2 a) in Ha by lia. lia.
    - subst. rewrite Z.pow_0_r in Ha. lia. }
  destruct (Z.lt_trichotomy (Zdigits2 m) a) as [L|[L|L]]; [|exact L|].
  - assert (2 ^ Zdigits2 m <= 2 ^ (a - 1)) by (apply Z.pow_le_mono_r; lia). lia.
  - assert (2 ^ a <= 2 ^ (Zdigits2 m - 1)) by (apply Z.pow_le_mono_r; lia). lia.
Qed.

Lemma Zdigits2_nonneg : forall m, 0 <= Zdigits2 m.
Proof. intros [|p|p]; simpl; lia. Qed.

(** [iter_pos] is the iteration over [nat]. *)
Lemma iter_pos_nat :
  forall (A : Type) (f : A -> A) (p : positive) (x : A),
    iter_pos f p x = Nat.iter (Pos.to_nat p) f x.
Proof.
  intros A f p. induction p as [p IH|p IH|]; intros x; cbn [iter_pos].
  - rewrite !IH. rewrite Pos2Nat.inj_xI.
    replace (S (2 * Pos.to_nat p)) with (Pos.to_nat p + Pos.to_nat p + 1)%nat by lia.
    rewrite !Nat.iter_add. simpl. reflexivity.
  - rewrite !IH. rewrite Pos2Nat.inj_xO.
    replace (2 * Pos.to_nat p)%nat with (Pos.to_nat p + Pos.to_nat p)%nat by lia.
    rewrite Nat.iter_add. reflexivity.
  - reflexivity.
Qed.

(** One step of the shift halves the mantissa, and loses nothing on an even one. *)
Lemma shr_1_spec :
  forall r, 0 <= shr_m r ->
    shr_m (shr_1 r) = shr_m r / 2 /\
    (exact_rec r -> shr_m r mod 2 = 0 -> exact_rec (shr_1 r)).
Proof.
  intros [m r s] Hm. simpl in Hm. unfold exact_rec.
  destruct m as [|p|p]; try lia.
  - simpl. split; [reflexivity|]. intros [-> ->] _. split; reflexivity.
  - destruct p as [p|p|]; cbn [shr_1 shr_m shr_r shr_s].
    + split; [rewrite Pos2Z.inj_xI; apply Z.div_unique with (r := 1); lia|].
      intros _ H. rewrite Pos2Z.inj_xI in H.
      replace (2 * Z.pos p + 1) with (1 + Z.pos p * 2) in H by lia.
      rewrite Z.mod_add in H by lia. discriminate.
    + split; [rewrite Pos2Z.inj_xO; apply Z.div_unique with (r := 0); lia|].
      intros [-> ->] _. split; reflexivity.
    + split; [reflexivity|]. intros _ H. discriminate.
Qed.

(** [n] steps divide by [2 ^ n], and lose nothing on a multiple of [2 ^ n]. *)
Lemma iter_shr_1_spec :
  forall (n : nat) r, 0 <= shr_m r ->
    0 <= shr_m (Nat.iter n shr_1 r) /\
    shr_m (Nat.iter n shr_1 r) = shr_m r / 2 ^ Z.of_nat n /\
    (exact_rec r -> shr_m r mod 2 ^ Z.of_nat n = 0 -> exact_rec (Nat.iter n shr_1 r)).
Proof.
  induction n as [|n IH]; intros r Hm.
  - simpl. rewrite Z.div_1_r. split; [exact Hm|]. split; [reflexivity|]. intros H _. exact H.
  - change (Nat.iter (S n) shr_1 r) with (shr_1 (Nat.iter n shr_1 r)).
    destruct (IH r Hm) as (H0 & Hdiv & Hex).
    destruct (shr_1_spec _ H0) as (Hdiv1 & Hex1).
    rewrite Nat2Z.inj_succ, Z.pow_succ_r by lia.
    assert (Hp : 0 < 2 ^ Z.of_nat n) by (apply Z.pow_pos_nonneg; lia).
    split; [rewrite Hdiv1; apply Z.div_pos; lia|].
    split.
    + rewrite Hdiv1, Hdiv. rewrite Z.div_div by lia. f_equal. lia.
    + intros He Hmod.
      assert (Hmod' : shr_m r mod 2 ^ Z.of_nat n = 0).
      { apply Z.mod_divide in Hmod; [|lia]. apply Z.mod_divide; [lia|].
        destruct Hmod as [q Hq]. exists (q * 2). lia. }
      apply Hex1; [apply Hex; assumption|].
      rewrite Hdiv.
      apply Z.mod_divide in Hmod; [|lia]. destruct Hmod as [q Hq].
      rewrite Hq. replace (q * (2 * 2 ^ Z.of_nat n)) with (q * 2 * 2 ^ Z.of_nat n) by lia.
      rewrite Z.div_mul by lia. apply Z.mod_mul. lia.
Qed.

Lemma shr_record_of_loc_m : forall m l, shr_m (shr_record_of_loc m l) = m.
Proof. intros m [|[]]; reflexivity. Qed.

Lemma shr_record_of_loc_exact : forall m, exact_rec (shr_record_of_loc m loc_Exact).
Proof. intros m. split; reflexivity. Qed.

Lemma loc_of_exact_rec : forall r, exact_rec r -> loc_of_shr_record r = loc_Exact.
Proof. intros [m r s] [H1 H2]. simpl in *. subst. reflexivity. Qed.

(** Rounding keeps the mantissa or takes its successor, and keeps it when nothing was lost. *)
Lemma round_nearest_even_bounds :
  forall m l,
    m <= round_nearest_even m l <= m + 1 /\
    (l = loc_Exact -> round_nearest_even m l = m).
Proof.
  intros m l. unfold round_nearest_even.
  destruct l as [|[]]; try destruct (Z.even m); split; auto; try lia; discriminate.
Qed.

(** A right shift by [fexp64 (digits + e) - e >= 0] places. *)
Lemma shr_fexp_shift :
  forall M E l,
    0 <= M ->
    E <= fexp64 (Zdigits2 M + E) ->
    exists mrs,
      shr_fexp 53 1024 M E l = (mrs, fexp64 (Zdigits2 M + E)) /\
      shr_m mrs = M / 2 ^ (fexp64 (Zdigits2 M + E) - E) /\
      (l = loc_Exact -> M mod 2 ^ (fexp64 (Zdigits2 M + E) - E) = 0 ->
       loc_of_shr_record mrs = loc_Exact).
Proof.
  intros M E l HM HE. unfold shr_fexp. rewrite fexp_fexp64.
  set (f := fexp64 (Zdigits2 M + E)) in *.
  unfold shr.
  destruct (f - E) as [|p|p] eqn:En; try lia.
  - exists (shr_record_of_loc M l).
    replace f with E by lia.
    rewrite shr_record_of_loc_m, Z.div_1_r.
    split; [reflexivity|]. split; [reflexivity|].
    intros -> _. reflexivity.
  - exists (iter_pos shr_1 p (shr_record_of_loc M l)).
    replace (E + Z.pos p) with f by lia.
    split; [reflexivity|].
    rewrite iter_pos_nat.
    destruct (iter_shr_1_spec (Pos.to_nat p) (shr_record_of_loc M l))
      as (_ & Hdiv & Hex).
    { rewrite shr_record_of_loc_m. exact HM. }
    rewrite positive_nat_Z, shr_record_of_loc_m in Hdiv, Hex.
    split; [exact Hdiv|].
    intros -> Hmod. apply loc_of_exact_rec. apply Hex; [|exact Hmod].
    apply shr_record_of_loc_exact.
Qed.

(** No shift when the exponent is already the canonical one or above. *)
Lemma shr_fexp_noshift :
  forall M E l,
    fexp64 (Zdigits2 M + E) <= E ->
    shr_fexp 53 1024 M E l = (shr_record_of_loc M l, E).
Proof.
  intros M E l HE. unfold shr_fexp. rewrite fexp_fexp64. unfold shr.
  destruct (fexp64 (Zdigits2 M + E) - E) as [|p|p] eqn:En; try lia; reflexivity.
Qed.

Lemma pow2_pos : forall k, 0 <= k -> 0 < 2 ^ k.
Proof. intros k Hk. apply Z.pow_pos_nonneg; lia. Qed.

(** The result of [binary_round_aux] on a mantissa whose exponent is at most the canonical one: the quotient of the shift or its successor, renormalised when the successor is [2 ^ 53]. *)
Lemma binary_round_aux_cases :
  forall s M E l,
    0 <= M ->
    E <= fexp64 (Zdigits2 M + E) ->
    exists m1,
      M / 2 ^ (fexp64 (Zdigits2 M + E) - E) <= m1
        <= M / 2 ^ (fexp64 (Zdigits2 M + E) - E) + 1 /\
      (l = loc_Exact -> M mod 2 ^ (fexp64 (Zdigits2 M + E) - E) = 0 ->
       m1 = M / 2 ^ (fexp64 (Zdigits2 M + E) - E)) /\
      rounded s (fexp64 (Zdigits2 M + E)) m1 (binary_round_aux 53 1024 s M E l).
Proof.
  intros s M E l HM HE.
  set (f := fexp64 (Zdigits2 M + E)) in *.
  destruct (shr_fexp_shift M E l HM HE) as (mrs & Hshr & Hm & Hloc).
  fold f in Hshr, Hm, Hloc.
  set (m' := M / 2 ^ (f - E)) in *.
  destruct (round_nearest_even_bounds (shr_m mrs) (loc_of_shr_record mrs))
    as (Hr & Hrx).
  set (m1 := round_nearest_even (shr_m mrs) (loc_of_shr_record mrs)) in *.
  rewrite Hm in Hr, Hrx.
  assert (Hpn : 0 < 2 ^ (f - E)) by (apply pow2_pos; lia).
  assert (Hm'0 : 0 <= m') by (apply Z.div_pos; lia).
  (* bounds on m' *)
  assert (Hm'hi : m' < 2 ^ 53).
  { destruct (Z.eq_dec M 0) as [->|HM0].
    - unfold m'. rewrite Z.div_0_l by lia. reflexivity.
    - destruct (Zdigits2_bounds M ltac:(lia)) as (Hd & Hlo & Hhi).
      apply Z.div_lt_upper_bound; [lia|].
      rewrite <- Z.pow_add_r by lia.
      assert (2 ^ Zdigits2 M <= 2 ^ (f - E + 53)).
      { apply Z.pow_le_mono_r; [lia|]. unfold f, fexp64. lia. }
      lia. }
  assert (Hm'lo : -1074 < f -> 2 ^ 52 <= m').
  { intros Hf.
    assert (HM0 : 0 < M).
    { destruct (Z.eq_dec M 0) as [->|]; [|lia].
      unfold f, fexp64 in Hf, HE. simpl Zdigits2 in *. lia. }
    destruct (Zdigits2_bounds M HM0) as (Hd & Hlo & Hhi).
    assert (Ef : f - E = Zdigits2 M - 53) by (unfold f, fexp64 in *; lia).
    apply Z.div_le_lower_bound; [lia|].
    rewrite <- Z.pow_add_r by lia.
    replace (f - E + 52) with (Zdigits2 M - 1) by lia. exact Hlo. }
  assert (Hf : -1074 <= f) by (unfold f, fexp64; lia).
  exists m1. split; [exact Hr|].
  split; [intros Hl Hmod; apply Hrx; apply Hloc; assumption|].
  unfold binary_round_aux. rewrite Hshr. fold m1. clearbody m1.
  destruct (Z.eq_dec m1 (2 ^ 53)) as [Hc|Hnc].
  - (* carry *)
    assert (Hshr2 : shr_fexp 53 1024 m1 f loc_Exact
                    = (shr_1 (shr_record_of_loc m1 loc_Exact), f + 1)).
    { unfold shr_fexp. rewrite fexp_fexp64.
      assert (Hd : Zdigits2 m1 = 54) by (subst m1; reflexivity).
      rewrite Hd.
      unfold fexp64.
      replace (Z.max (54 + f - 53) (-1074) - f) with 1 by lia.
      reflexivity. }
    rewrite Hshr2. subst m1. cbn [shr_record_of_loc].
    change (shr_m (shr_1 {| shr_m := 2 ^ 53; shr_r := false; shr_s := false |}))
      with (Z.pos (Z.to_pos (2 ^ 52))).
    cbv iota beta.
    change (Z.sub 1024 53) with 971.
    apply rounded_carry. reflexivity.
  - assert (Hlt : m1 < 2 ^ 53) by lia.
    destruct (Z.eq_dec m1 0) as [Hz|Hnz].
    + rewrite shr_fexp_noshift.
      * rewrite shr_record_of_loc_m. subst m1. apply rounded_zero. reflexivity.
      * subst m1. simpl Zdigits2. unfold fexp64. lia.
    + assert (Hpos : 0 < m1) by lia.
      assert (Hcanon : fexp64 (Zdigits2 m1 + f) = f).
      { destruct (Zdigits2_bounds m1 Hpos) as (Hd & Hlo & Hhi).
        assert (Hd53 : Zdigits2 m1 <= 53).
        { destruct (Z_le_gt_dec (Zdigits2 m1) 53) as [|G]; [assumption|].
          assert (2 ^ 53 <= 2 ^ (Zdigits2 m1 - 1)) by (apply Z.pow_le_mono_r; lia).
          lia. }
        destruct (Z.eq_dec f (-1074)) as [Ef|Nf].
        - unfold fexp64. lia.
        - assert (H52 : 2 ^ 52 <= m1) by (specialize (Hm'lo ltac:(lia)); lia).
          rewrite (Zdigits2_unique m1 53) by (simpl Z.sub; lia).
          unfold fexp64. lia. }
      rewrite shr_fexp_noshift by lia.
      rewrite shr_record_of_loc_m.
      destruct m1 as [|p|p] eqn:Em1; try lia.
      change (Z.sub 1024 53) with 971.
      change p with (Z.to_pos (Z.pos p)) at 1.
      apply rounded_plain; [lia|exact Hcanon].
Qed.

Lemma valid_finite_iff :
  forall s m e,
    valid64 (S754_finite s m e) <-> fexp64 (Z.pos (digits2_pos m) + e) = e /\ e <= 971.
Proof.
  intros s m e. unfold valid64, valid_binary, bounded, canonical_mantissa.
  rewrite fexp_fexp64. change (Z.sub 1024 53) with 971.
  rewrite andb_true_iff, Z.eqb_eq, Z.leb_le. reflexivity.
Qed.

(** Each of the three outcomes is in canonical form. *)
Lemma rounded_valid :
  forall s f m1 r, -1074 <= f -> rounded s f m1 r -> valid64 r.
Proof.
  intros s f m1 r Hf [Hz|Hm Hc|Hc].
  - reflexivity.
  - destruct (f <=? 971) eqn:E; [|reflexivity].
    apply Z.leb_le in E. apply valid_finite_iff.
    destruct m1 as [|p|p]; try lia. simpl Z.to_pos. split; [exact Hc|exact E].
  - destruct (f + 1 <=? 971) eqn:E; [|reflexivity].
    apply Z.leb_le in E. apply valid_finite_iff.
    split; [|exact E].
    change (Z.pos (digits2_pos (Z.to_pos (2 ^ 52)))) with 53.
    unfold fexp64. lia.
Qed.

Lemma enclosed_weaken :
  forall lo hi lo' hi' x, enclosed lo hi x -> lo' <= lo -> hi <= hi' -> enclosed lo' hi' x.
Proof.
  intros lo hi lo' hi' [s|s| |s m e] H Hlo Hhi; simpl in *; try lia.
  destruct H as (He & H1 & H2). split; [exact He|].
  assert (0 < 2 ^ (- e)) by (apply pow2_pos; lia). nia.
Qed.

(** The magnitude of a rounded positive mantissa stays within integer
    bounds that enclose the exact value. *)
Lemma binary_round_aux_enclosed :
  forall s M E lo hi,
    0 < M -> E <= 0 ->
    E <= fexp64 (Zdigits2 M + E) ->
    0 <= lo -> hi <= 2 ^ 52 ->
    lo * 2 ^ (- E) <= M <= hi * 2 ^ (- E) ->
    match binary_round_aux 53 1024 s M E loc_Exact with
    | S754_zero s' => s' = s /\ lo = 0
    | S754_finite s' m e =>
        s' = s /\ e <= 0 /\ lo * 2 ^ (- e) <= Z.pos m <= hi * 2 ^ (- e)
    | _ => False
    end.
Proof.
  intros s M E lo hi HM HE0 HE Hlo Hhi HB.
  destruct (binary_round_aux_cases s M E loc_Exact ltac:(lia) HE)
    as (m1 & Hm1 & Hex & Hr).
  set (f := fexp64 (Zdigits2 M + E)) in *.
  destruct (Zdigits2_bounds M HM) as (Hd & Hdlo & Hdhi).
  assert (HpE : 0 < 2 ^ (- E)) by (apply pow2_pos; lia).
  assert (Hf0 : f <= 0).
  { assert (Zdigits2 M - 1 < 53 - E).
    { apply (Z.pow_lt_mono_r_iff 2); [lia|lia|].
      replace (53 - E) with (53 + - E) by lia. rewrite Z.pow_add_r by lia.
      assert (hi * 2 ^ (- E) <= 2 ^ 52 * 2 ^ (- E)) by nia.
      assert (2 ^ 52 < 2 ^ 53) by reflexivity. nia. }
    unfold f, fexp64. lia. }
  assert (Hfm : -1074 <= f) by (unfold f, fexp64; lia).
  set (n := f - E) in *.
  assert (Hn : 0 <= n) by (unfold n; lia).
  assert (Hpn : 0 < 2 ^ n) by (apply pow2_pos; lia).
  assert (Hpf : 0 < 2 ^ (- f)) by (apply pow2_pos; lia).
  assert (Hsplit : 2 ^ (- E) = 2 ^ (- f) * 2 ^ n).
  { rewrite <- Z.pow_add_r by lia. f_equal. unfold n. lia. }
  rewrite Hsplit in HB.
  assert (Hlow : lo * 2 ^ (- f) <= m1).
  { assert (lo * 2 ^ (- f) <= M / 2 ^ n) by (apply Z.div_le_lower_bound; nia). lia. }
  assert (Hupp : m1 <= hi * 2 ^ (- f)).
  { destruct (Z.eq_dec (M mod 2 ^ n) 0) as [Hmod|Hmod].
    - rewrite (Hex eq_refl Hmod). apply Z.div_le_upper_bound; nia.
    - assert (M <> hi * 2 ^ (- f) * 2 ^ n).
      { intros Heq. apply Hmod. rewrite Heq. apply Z.mod_mul. lia. }
      assert (M / 2 ^ n < hi * 2 ^ (- f)) by (apply Z.div_lt_upper_bound; nia).
      lia. }
  clearbody n. clearbody f.
  destruct Hr as [Hz|Hm Hc|Hc].
  - split; [reflexivity|]. nia.
  - replace (f <=? 971) with true by (symmetry; apply Z.leb_le; lia).
    split; [reflexivity|]. split; [exact Hf0|].
    rewrite Z2Pos.id by lia. lia.
  - assert (Hf1 : f + 1 <= 0).
    { destruct (Z.eq_dec f 0) as [Ef|]; [|lia].
      rewrite Ef in Hupp. simpl in Hupp.
      assert (2 ^ 52 < 2 ^ 53) by reflexivity. lia. }
    replace (f + 1 <=? 971) with true by (symmetry; apply Z.leb_le; lia).
    split; [reflexivity|]. split; [exact Hf1|].
    rewrite Z2Pos.id by reflexivity.
    assert (H2 : 2 ^ (- f) = 2 * 2 ^ (- (f + 1))).
    { rewrite <- Z.pow_succ_r by lia. f_equal. lia. }
    assert (H53 : 2 ^ 53 = 2 * 2 ^ 52) by reflexivity.
    rewrite H2 in Hlow, Hupp. lia.
Qed.

Lemma iter_xO :
  forall m d, Z.pos (Pos.iter xO m d) = Z.pos m * 2 ^ Z.pos d.
Proof.
  intros m d. induction d as [|d IH] using Pos.peano_ind.
  - simpl Pos.iter. rewrite Pos2Z.inj_xO. change (2 ^ 1) with 2. lia.
  - rewrite Pos.iter_succ, Pos2Z.inj_xO, IH, Pos2Z.inj_succ, Z.pow_succ_r by lia. lia.
Qed.

Lemma digits2_pos_shift :
  forall m d, 0 <= d -> Zdigits2 (Z.pos m * 2 ^ d) = Z.pos (digits2_pos m) + d.
Proof.
  intros m d Hd.
  pose proof (digits2_pos_bounds m) as [Hlo Hhi].
  assert (Hp : 0 < 2 ^ d) by (apply pow2_pos; lia).
  apply Zdigits2_unique; [|nia].
  replace (Z.pos (digits2_pos m) + d - 1) with (Z.pos (digits2_pos m) - 1 + d) by lia.
  rewrite !Z.pow_add_r by lia. nia.
Qed.

(** The left shift of [binary_round] keeps the value and the sum of digits and exponent. *)
Lemma shl_align_spec :
  forall m E f0,
    exists mz ez,
      shl_align m E f0 = (mz, ez) /\
      ez = Z.min E f0 /\
      Z.pos mz = Z.pos m * 2 ^ (E - ez) /\
      Z.pos (digits2_pos mz) + ez = Z.pos (digits2_pos m) + E.
Proof.
  intros m E f0. unfold shl_align.
  destruct (f0 - E) as [|d|d] eqn:Ed.
  - exists m, E. replace (Z.min E f0) with E by lia.
    rewrite Z.sub_diag. simpl. repeat split; lia.
  - exists m, E. replace (Z.min E f0) with E by lia.
    rewrite Z.sub_diag. simpl. repeat split; lia.
  - exists (Pos.iter xO m d), f0. replace (Z.min E f0) with f0 by lia.
    split; [reflexivity|]. split; [reflexivity|].
    replace (E - f0) with (Z.pos d) by lia.
    split; [apply iter_xO|].
    pose proof (digits2_pos_shift m (Z.pos d) ltac:(lia)) as H.
    rewrite <- iter_xO in H. simpl Zdigits2 in H. lia.
Qed.

Lemma binary_round_valid :
  forall s m E, valid64 (binary_round 53 1024 s m E).
Proof.
  intros s m E. unfold binary_round. rewrite fexp_fexp64.
  destruct (shl_align_spec m E (fexp64 (Z.pos (digits2_pos m) + E)))
    as (mz & ez & -> & Hez & Hmz & Hdig).
  assert (HE : ez <= fexp64 (Zdigits2 (Z.pos mz) + ez)).
  { simpl Zdigits2. rewrite Hdig. lia. }
  destruct (binary_round_aux_cases s (Z.pos mz) ez loc_Exact ltac:(lia) HE)
    as (m1 & _ & _ & Hr).
  eapply rounded_valid; [|exact Hr]. unfold fexp64. lia.
Qed.

Lemma binary_normalize_valid :
  forall M E sz, valid64 (binary_normalize 53 1024 M E sz).
Proof.
  intros [|m|m] E sz; simpl; [reflexivity|apply binary_round_valid..].
Qed.

Lemma binary_round_enclosed :
  forall s m E lo hi,
    E <= 0 -> 0 <= lo -> hi <= 2 ^ 52 ->
    lo * 2 ^ (- E) <= Z.pos m <= hi * 2 ^ (- E) ->
    match binary_round 53 1024 s m E with
    | S754_zero s' => s' = s /\ lo = 0
    | S754_finite s' m' e =>
        s' = s /\ e <= 0 /\ lo * 2 ^ (- e) <= Z.pos m' <= hi * 2 ^ (- e)
    | _ => False
    end.
Proof.
  intros s m E lo hi HE Hlo Hhi HB. unfold binary_round. rewrite fexp_fexp64.
  destruct (shl_align_spec m E (fexp64 (Z.pos (digits2_pos m) + E)))
    as (mz & ez & -> & Hez & Hmz & Hdig).
  apply binary_round_aux_enclosed; try lia.
  - simpl Zdigits2. rewrite Hdig. lia.
  - rewrite Hmz.
    assert (Hp : 0 < 2 ^ (E - ez)) by (apply pow2_pos; lia).
    assert (Hs : 2 ^ (- ez) = 2 ^ (- E) * 2 ^ (E - ez)).
    { rewrite <- Z.pow_add_r by lia. f_equal. lia. }
    rewrite Hs. nia.
Qed.

(** An integer multiple of [2 ^ E] between two integers of at most 52 bits is normalised to a number between the same integers. *)
Lemma binary_normalize_enclosed :
  forall M E lo hi,
    E <= 0 -> - 2 ^ 52 <= lo -> hi <= 2 ^ 52 ->
    lo * 2 ^ (- E) <= M <= hi * 2 ^ (- E) ->
    enclosed lo hi (binary_normalize 53 1024 M E false).
Proof.
  intros M E lo hi HE Hlo Hhi HB.
  assert (Hp : 0 < 2 ^ (- E)) by (apply pow2_pos; lia).
  destruct M as [|m|m]; cbn [binary_normalize].
  - simpl. nia.
  - pose proof (binary_round_enclosed false m E (Z.max lo 0) hi HE ltac:(lia) Hhi) as H.
    assert (HB' : Z.max lo 0 * 2 ^ (- E) <= Z.pos m <= hi * 2 ^ (- E)) by nia.
    specialize (H HB').
    destruct (binary_round 53 1024 false m E) as [s'|s'| |s' m' e]; try contradiction.
    + simpl. destruct H as [_ H]. nia.
    + destruct H as (-> & He & H1 & H2). simpl. split; [exact He|].
      assert (0 < 2 ^ (- e)) by (apply pow2_pos; lia). nia.
  - pose proof (binary_round_enclosed true m E (Z.max (- hi) 0) (- lo) HE ltac:(lia)
                  ltac:(lia)) as H.
    assert (HB' : Z.max (- hi) 0 * 2 ^ (- E) <= Z.pos m <= - lo * 2 ^ (- E)) by nia.
    specialize (H HB').
    destruct (binary_round 53 1024 true m E) as [s'|s'| |s' m' e]; try contradiction.
    + simpl. destruct H as [_ H]. nia.
    + destruct H as (-> & He & H1 & H2). simpl. split; [exact He|].
      assert (0 < 2 ^ (- e)) by (apply pow2_pos; lia). nia.
Qed.

(** Subtraction is the addition of the opposite. *)
Lemma SFsub_as_add :
  forall x y, SFsub 53 1024 x y = SFadd 53 1024 x (SFopp y).
Proof.
  intros [sx|sx| |sx mx ex] [sy|sy| |sy my ey]; try reflexivity;
    destruct sx, sy; reflexivity.
Qed.

Lemma SFopp_valid : forall x, valid64 x -> valid64 (SFopp x).
Proof. intros [s|s| |s m e] H; exact H. Qed.

Lemma SFopp_enclosed :
  forall lo hi x, enclosed lo hi x -> enclosed (- hi) (- lo) (SFopp x).
Proof.
  intros lo hi [s|s| |s m e] H; simpl in *; try lia.
  destruct H as (He & H). split; [exact He|].
  destruct s; cbn [negb cond_Zopp] in *; lia.
Qed.

Lemma cond_Zopp_mul : forall s a b, cond_Zopp s (a * b) = cond_Zopp s a * b.
Proof. intros [] a b; simpl; lia. Qed.

Lemma SFadd_valid :
  forall x y, valid64 x -> valid64 y -> valid64 (SFadd 53 1024 x y).
Proof.
  intros [sx|sx| |sx mx ex] [sy|sy| |sy my ey] Hx Hy; cbn [SFadd];
    try reflexivity; try assumption;
    try (destruct sx, sy; first [reflexivity|assumption]).
  apply binary_normalize_valid.
Qed.

(** Interval arithmetic for the rounded sum. *)
Lemma SFadd_enclosed :
  forall x y xl xh yl yh,
    enclosed xl xh x -> enclosed yl yh y ->
    - 2 ^ 52 <= xl + yl -> xh + yh <= 2 ^ 52 ->
    enclosed (xl + yl) (xh + yh) (SFadd 53 1024 x y).
Proof.
  intros [sx|sx| |sx mx ex] [sy|sy| |sy my ey] xl xh yl yh Hx Hy Hlo Hhi;
    simpl in Hx, Hy; try contradiction.
  - assert (enclosed (xl + yl) (xh + yh) (S754_zero false)) by (simpl; lia).
    destruct sx, sy; simpl; lia.
  - cbn [SFadd]. apply (enclosed_weaken yl yh); [exact Hy|lia|lia].
  - cbn [SFadd]. apply (enclosed_weaken xl xh); [exact Hx|lia|lia].
  - cbn [SFadd].
    destruct Hx as (Hex & Hx). destruct Hy as (Hey & Hy).
    set (ez := Z.min ex ey).
    destruct (shl_align_spec mx ex ez) as (mx' & ex' & Ex & Eex & Emx & _).
    destruct (shl_align_spec my ey ez) as (my' & ey' & Ey & Eey & Emy & _).
    rewrite Ex, Ey. cbn [fst].
    replace ex' with ez in Emx by (unfold ez in *; lia).
    replace ey' with ez in Emy by (unfold ez in *; lia).
    rewrite Emx, Emy, !cond_Zopp_mul.
    assert (Hpx : 0 < 2 ^ (ex - ez)) by (apply pow2_pos; unfold ez; lia).
    assert (Hpy : 0 < 2 ^ (ey - ez)) by (apply pow2_pos; unfold ez; lia).
    assert (Hsx : 2 ^ (- ez) = 2 ^ (- ex) * 2 ^ (ex - ez)).
    { rewrite <- Z.pow_add_r by (unfold ez; lia). f_equal. lia. }
    assert (Hsy : 2 ^ (- ez) = 2 ^ (- ey) * 2 ^ (ey - ez)).
    { rewrite <- Z.pow_add_r by (unfold ez; lia). f_equal. lia. }
    apply binary_normalize_enclosed; [unfold ez; lia|exact Hlo|exact Hhi|].
    assert (xl * 2 ^ (- ez) <= cond_Zopp sx (Z.pos mx) * 2 ^ (ex - ez) <= xh * 2 ^ (- ez))
      by (rewrite Hsx; nia).
    assert (yl * 2 ^ (- ez) <= cond_Zopp sy (Z.pos my) * 2 ^ (ey - ez) <= yh * 2 ^ (- ez))
      by (rewrite Hsy; nia).
    lia.
Qed.

Lemma sub_valid : forall x y, valid64 x -> valid64 y -> valid64 (Fp.sub x y).
Proof.
  intros x y Hx Hy. unfold Fp.sub. rewrite SFsub_as_add.
  apply SFadd_valid; [exact Hx|apply SFopp_valid; exact Hy].
Qed.

Lemma sub_enclosed :
  forall x y xl xh yl yh,
    enclosed xl xh x -> enclosed yl yh y ->
    - 2 ^ 52 <= xl - yh -> xh - yl <= 2 ^ 52 ->
    enclosed (xl - yh) (xh - yl) (Fp.sub x y).
Proof.
  intros x y xl xh yl yh Hx Hy Hlo Hhi. unfold Fp.sub. rewrite SFsub_as_add.
  apply SFopp_enclosed in Hy.
  exact (SFadd_enclosed x (SFopp y) xl xh (- yh) (- yl) Hx Hy ltac:(lia) ltac:(lia)).
Qed.

Lemma add_enclosed :
  forall x y xl xh yl yh,
    enclosed xl xh x -> enclosed yl yh y ->
    - 2 ^ 52 <= xl + yl -> xh + yh <= 2 ^ 52 ->
    enclosed (xl + yl) (xh + yh) (Fp.add x y).
Proof. intros. apply SFadd_enclosed; assumption. Qed.

Lemma of_int_valid : forall n, valid64 (Fp.of_int n).
Proof. intros n. apply binary_normalize_valid. Qed.

(** An integer of at most 52 bits is converted exactly. *)
Lemma of_int_enclosed :
  forall n, - 2 ^ 52 <= n <= 2 ^ 52 -> enclosed n n (Fp.of_int n).
Proof.
  intros n Hn. unfold Fp.of_int.
  apply binary_normalize_enclosed; lia.
Qed.

(** A number lies between its floor and the next integer. *)
Lemma floor_enclosed :
  forall p a,
    valid64 p -> Fp.floor p = Some a -> - 2 ^ 51 <= a <= 2 ^ 51 ->
    enclosed a (a + 1) p.
Proof.
  intros [s|s| |s m e] a Hv Hf Ha; simpl in Hf; try discriminate.
  - injection Hf as <-. simpl. lia.
  - injection Hf as <-.
    apply valid_finite_iff in Hv as [Hc _].
    assert (He : e <= 0).
    { destruct (Z_le_gt_dec e 0) as [|G]; [assumption|exfalso].
      assert (Hd : Z.pos (digits2_pos m) = 53) by (unfold fexp64 in Hc; lia).
      pose proof (digits2_pos_bounds m) as [Hlo _]. rewrite Hd in Hlo.
      change (2 ^ (53 - 1)) with (2 ^ 52) in Hlo.
      rewrite Z.shiftl_mul_pow2 in Ha by lia.
      assert (2 <= 2 ^ e).
      { change 2 with (2 ^ 1) at 1. apply Z.pow_le_mono_r; lia. }
      assert (2 ^ 51 < 2 ^ 52) by reflexivity.
      destruct s; cbn [cond_Zopp] in Ha; nia. }
    simpl. split; [exact He|].
    assert (Hp : 0 < 2 ^ (- e)) by (apply pow2_pos; lia).
    rewrite Z.shiftl_div_pow2 by lia.
    pose proof (Z.mul_div_le (cond_Zopp s (Z.pos m)) (2 ^ (- e)) Hp).
    pose proof (Z.mul_succ_div_gt (cond_Zopp s (Z.pos m)) (2 ^ (- e)) Hp).
    lia.
Qed.

(** The comparison of the assertion accepts every canonical number between 0 and 1. *)
Lemma ratio_in_range_enclosed :
  forall w, valid64 w -> enclosed 0 1 w -> ratio_in_range w = true.
Proof.
  intros [s|s| |s m e] Hv Hw; cbn [enclosed] in Hw; try contradiction.
  - reflexivity.
  - destruct Hw as (He & H0 & H1).
    assert (Hp : 0 < 2 ^ (- e)) by (apply pow2_pos; lia).
    destruct s; cbn [cond_Zopp] in H0, H1; [lia|].
    apply valid_finite_iff in Hv as [Hc _].
    unfold ratio_in_range, Fp.leb, SFleb. cbn [Fp.d0_0 Fp.d1_0 SFcompare andb].
    destruct (Z.compare_spec e (-52)) as [Ee|Ee|Ee].
    + subst e. change (2 ^ (- -52)) with (Z.pos 0x10000000000000) in H1.
      rewrite Pos.compare_cont_spec. simpl Pos.switch_Eq.
      destruct (Pos.compare_spec m 0x10000000000000) as [E|E|E]; try reflexivity.
      lia.
    + reflexivity.
    + exfalso.
      assert (Hd : Z.pos (digits2_pos m) = 53) by (unfold fexp64 in Hc; lia).
      pose proof (digits2_pos_bounds m) as [Hlo _]. rewrite Hd in Hlo.
      change (2 ^ (53 - 1)) with (2 ^ 52) in Hlo.
      assert (2 ^ (- e) < 2 ^ 52) by (apply Z.pow_lt_mono_r; lia).
      lia.
Qed.

Lemma Zdigits2_lower :
  forall m a, 0 < m -> 2 ^ (a - 1) <= m -> a <= Zdigits2 m.
Proof.
  intros m a Hm Ha.
  destruct (Zdigits2_bounds m Hm) as (Hd & _ & Hhi).
  destruct (Z_le_gt_dec a (Zdigits2 m)) as [|G]; [assumption|exfalso].
  assert (2 ^ Zdigits2 m <= 2 ^ (a - 1)) by (apply Z.pow_le_mono_r; lia).
  lia.
Qed.

(** What validity says of a finite number. *)
Lemma valid_finite_digits :
  forall s m e,
    valid64 (S754_finite s m e) ->
    -1074 <= e <= 971 /\ Z.pos (digits2_pos m) <= 53 /\
    (Z.pos (digits2_pos m) = 53 \/ e = -1074).
Proof.
  intros s m e H. apply valid_finite_iff in H as [Hc He].
  unfold fexp64 in Hc. lia.
Qed.

(** A product of canonical numbers is canonical: the product of the mantissas has enough digits for the shift to reach the canonical exponent. *)
Lemma SFmul_valid :
  forall x y, valid64 x -> valid64 y -> valid64 (SFmul 53 1024 x y).
Proof.
  intros [sx|sx| |sx mx ex] [sy|sy| |sy my ey] Hx Hy; try reflexivity.
  cbn [SFmul].
  apply valid_finite_digits in Hx as (Hex & Hdx & Hnx).
  apply valid_finite_digits in Hy as (Hey & Hdy & Hny).
  pose proof (digits2_pos_bounds mx) as [Hxlo _].
  pose proof (digits2_pos_bounds my) as [Hylo _].
  assert (HD : Z.pos (digits2_pos mx) + Z.pos (digits2_pos my) - 1
               <= Zdigits2 (Z.pos (mx * my))).
  { apply Zdigits2_lower; [lia|].
    replace (Z.pos (digits2_pos mx) + Z.pos (digits2_pos my) - 1 - 1)
      with ((Z.pos (digits2_pos mx) - 1) + (Z.pos (digits2_pos my) - 1)) by lia.
    rewrite Z.pow_add_r by lia. rewrite Pos2Z.inj_mul.
    assert (0 < 2 ^ (Z.pos (digits2_pos mx) - 1)) by (apply pow2_pos; lia).
    assert (0 < 2 ^ (Z.pos (digits2_pos my) - 1)) by (apply pow2_pos; lia).
    nia. }
  assert (HE : ex + ey <= fexp64 (Zdigits2 (Z.pos (mx * my)) + (ex + ey)))
    by (unfold fexp64; lia).
  destruct (binary_round_aux_cases (xorb sx sy) (Z.pos (mx * my)) (ex + ey) loc_Exact
              ltac:(lia) HE) as (m1 & _ & _ & Hr).
  eapply rounded_valid; [|exact Hr]. unfold fexp64. lia.
Qed.

Lemma SFmul_comm :
  forall x y, SFmul 53 1024 x y = SFmul 53 1024 y x.
Proof.
  intros [sx|sx| |sx mx ex] [sy|sy| |sy my ey]; cbn [SFmul];
    try reflexivity; try (rewrite (xorb_comm sx sy); reflexivity).
  rewrite (xorb_comm sx sy), (Pos.mul_comm mx my), (Z.add_comm ex ey). reflexivity.
Qed.

(** A quotient of canonical numbers is canonical. *)
Lemma SFdiv_valid :
  forall x y, valid64 x -> valid64 y -> valid64 (SFdiv 53 1024 x y).
Proof.
  intros [sx|sx| |sx mx ex] [sy|sy| |sy my ey] Hx Hy; try reflexivity.
  cbn [SFdiv]. unfold SFdiv_core_binary. rewrite fexp_fexp64.
  apply valid_finite_digits in Hx as (Hex & Hdx & Hnx).
  apply valid_finite_digits in Hy as (Hey & Hdy & Hny).
  pose proof (digits2_pos_bounds mx) as [Hxlo Hxhi].
  pose proof (digits2_pos_bounds my) as [Hylo Hyhi].
  cbn [Zdigits2].
  set (dx := Z.pos (digits2_pos mx)) in *.
  set (dy := Z.pos (digits2_pos my)) in *.
  set (e' := Z.min (fexp64 (dx + ex - (dy + ey))) (ex - ey)).
  set (s := ex - ey - e').
  assert (Hs : 0 <= s) by (unfold s, e'; lia).
  set (m' := match s with
             | 0 => Z.pos mx
             | Z.pos _ => Z.shiftl (Z.pos mx) s
             | Z.neg _ => 0
             end).
  assert (Hm' : m' = Z.pos mx * 2 ^ s).
  { unfold m'. destruct s as [|p|p] eqn:Es; try lia.
    apply Z.shiftl_mul_pow2. lia. }
  clearbody m'.
  destruct (Z.div_eucl m' (Z.pos my)) as [q r] eqn:Hdiv.
  assert (Hq : q = m' / Z.pos my) by (unfold Z.div; rewrite Hdiv; reflexivity).
  assert (Hps : 0 < 2 ^ s) by (apply pow2_pos; lia).
  assert (Hq0 : 0 <= q) by (rewrite Hq; apply Z.div_pos; nia).
  assert (HE : e' <= fexp64 (Zdigits2 q + e')).
  { destruct (Z_le_gt_dec e' (-1074)) as [L|G]; [unfold fexp64; lia|].
    assert (Hf : e' = dx + ex - (dy + ey) - 53) by (unfold e', fexp64 in *; lia).
    assert (Es : s = 53 + dy - dx) by (unfold s; lia).
    assert (H52 : 2 ^ 52 <= q).
    { rewrite Hq. apply Z.div_le_lower_bound; [lia|].
      rewrite Hm', Es.
      replace (53 + dy - dx) with ((52 + dy) - (dx - 1)) by lia.
      assert (Hpow : 2 ^ (52 + dy) = 2 ^ (dx - 1) * 2 ^ (52 + dy - (dx - 1))).
      { rewrite <- Z.pow_add_r by lia. f_equal. lia. }
      assert (H1 : Z.pos my * 2 ^ 52 <= 2 ^ (52 + dy)).
      { rewrite Z.pow_add_r by lia. nia. }
      assert (0 < 2 ^ (52 + dy - (dx - 1))) by (apply pow2_pos; lia).
      nia. }
    assert (53 <= Zdigits2 q) by (apply Zdigits2_lower; [lia|exact H52]).
    unfold fexp64. lia. }
  destruct (binary_round_aux_cases (xorb sx sy) q e' (new_location (Z.pos my) r) Hq0 HE)
    as (m1 & _ & _ & Hr).
  eapply rounded_valid; [|exact Hr]. unfold fexp64. lia.
Qed.

Lemma mul_valid : forall x y, valid64 x -> valid64 y -> valid64 (Fp.mul x y).
Proof. exact SFmul_valid. Qed.

Lemma div_valid : forall x y, valid64 x -> valid64 y -> valid64 (Fp.div x y).
Proof. exact SFdiv_valid. Qed.

(** ** The weights of the resampling *)

Lemma fits_int_bounds : forall z, fits_int z = true -> - 2 ^ 31 <= z <= 2 ^ 31 - 1.
Proof.
  intros z H. unfold fits_int, INT_MIN, INT_MAX in H.
  apply andb_true_iff in H as [H1 H2]. lia.
Qed.

Lemma floor_to_int_Ok :
  forall x z, Fp.floor_to_int x = Ok z -> Fp.floor x = Some z /\ fits_int z = true.
Proof.
  intros x z H. unfold Fp.floor_to_int in H.
  destruct (Fp.floor x) as [a|]; [|discriminate].
  destruct (fits_int a) eqn:E; [|discriminate].
  injection H as <-. split; [reflexivity|exact E].
Qed.

Lemma to_int_Ok :
  forall x z, Fp.to_int x = Ok z -> fits_int z = true.
Proof.
  intros x z H. unfold Fp.to_int in H.
  destruct (Fp.trunc x) as [a|]; [|discriminate].
  destruct (fits_int a) eqn:E; [|discriminate].
  injection H as <-. exact E.
Qed.

Lemma cell_bounds_Ok :
  forall ratio start k first last,
    cell_bounds ratio start k = Ok (first, last) ->
    exists lo hi,
      first = start + lo /\ last = start + hi /\
      Fp.floor (Fp.mul (Fp.of_int k) ratio) = Some lo /\ fits_int lo = true /\
      Fp.floor (Fp.mul (Fp.of_int (k + 1)) ratio) = Some hi /\ fits_int hi = true.
Proof.
  intros ratio start k first last H. unfold cell_bounds in H.
  apply bind_Ok in H as (lo & Hlo & H).
  apply bind_Ok in H as (hi & Hhi & H).
  injection H as <- <-.
  apply floor_to_int_Ok in Hlo as [Hlo Hlo'].
  apply floor_to_int_Ok in Hhi as [Hhi Hhi'].
  exists lo, hi. repeat split; assumption.
Qed.

(** Every weight that the loops compute passes its assertion. *)
Lemma ratio_in_resulting_pixel_in_range :
  forall ratio start k first last p,
    valid64 ratio -> fits_int start = true ->
    cell_bounds ratio start k = Ok (first, last) ->
    ratio_in_range (ratio_in_resulting_pixel ratio start k first last p) = true.
Proof.
  intros ratio start k first last p Hv Hstart Hb.
  apply cell_bounds_Ok in Hb as (lo & hi & -> & -> & Hlo & Hlo' & Hhi & Hhi').
  apply fits_int_bounds in Hstart, Hlo', Hhi'.
  assert (E31 : 2 ^ 31 = 2147483648) by reflexivity.
  assert (E51 : 2 ^ 51 = 2251799813685248) by reflexivity.
  assert (E52 : 2 ^ 52 = 4503599627370496) by reflexivity.
  unfold ratio_in_resulting_pixel.
  destruct (p =? start + lo) eqn:E1.
  - apply Z.eqb_eq in E1. subst p.
    set (P := Fp.mul (Fp.of_int k) ratio) in *.
    assert (HvP : valid64 P) by (apply mul_valid; [apply of_int_valid|exact Hv]).
    pose proof (floor_enclosed P lo HvP Hlo ltac:(lia)) as HP.
    pose proof (of_int_enclosed (start + lo + 1) ltac:(lia)) as Hn.
    pose proof (sub_enclosed _ _ _ _ _ _ Hn HP ltac:(lia) ltac:(lia)) as Ht.
    pose proof (of_int_enclosed start ltac:(lia)) as Hs.
    pose proof (sub_enclosed _ _ _ _ _ _ Ht Hs ltac:(lia) ltac:(lia)) as Hw.
    apply ratio_in_range_enclosed.
    + apply sub_valid; [apply sub_valid; [apply of_int_valid|exact HvP]|apply of_int_valid].
    + eapply enclosed_weaken; [exact Hw|lia|lia].
  - destruct (p =? start + hi) eqn:E2; [|reflexivity].
    apply Z.eqb_eq in E2. subst p.
    unfold Fp.mul. rewrite SFmul_comm. fold (Fp.mul (Fp.of_int (k + 1)) ratio).
    set (Q := Fp.mul (Fp.of_int (k + 1)) ratio) in *.
    assert (HvQ : valid64 Q) by (apply mul_valid; [apply of_int_valid|exact Hv]).
    pose proof (floor_enclosed Q hi HvQ Hhi ltac:(lia)) as HQ.
    pose proof (of_int_enclosed (start + hi) ltac:(lia)) as Hn.
    pose proof (sub_enclosed _ _ _ _ _ _ HQ Hn ltac:(lia) ltac:(lia)) as Ht.
    pose proof (of_int_enclosed start ltac:(lia)) as Hs.
    pose proof (add_enclosed _ _ _ _ _ _ Ht Hs ltac:(lia) ltac:(lia)) as Hw.
    apply ratio_in_range_enclosed.
    + apply SFadd_valid; [apply sub_valid; [exact HvQ|apply of_int_valid]|apply of_int_valid].
    + eapply enclosed_weaken; [exact Hw|lia|lia].
Qed.

(** Failures of the two assertions pass through [bind] from its parts only. *)
Lemma bind_ratio :
  forall (A B : Type) (r : result A) (k : A -> result B),
    ~ ratio_assertion_failed r ->
    (forall a, r = Ok a -> ~ ratio_assertion_failed (k a)) ->
    ~ ratio_assertion_failed (bind r k).
Proof.
  intros A B [a|w|u] k Hr Hk; simpl.
  - apply Hk. reflexivity.
  - intros [H|H]; apply Hr; [left|right]; congruence.
  - intros [H|H]; discriminate.
Qed.

Lemma loop_ratio :
  forall (A : Type) (body : Z -> A -> result A),
    (forall k a, ~ ratio_assertion_failed (body k a)) ->
    forall n k acc, ~ ratio_assertion_failed (loop n k body acc).
Proof.
  intros A body Hbody n. induction n as [|n IH]; intros k acc.
  - simpl. intros [H|H]; discriminate.
  - simpl. apply bind_ratio; [apply Hbody|]. intros a _. apply IH.
Qed.

Ltac no_ratio_failure := intros [H|H]; discriminate.

Lemma Ok_ratio : forall (A : Type) (a : A), ~ ratio_assertion_failed (Ok a).
Proof. intros A a. no_ratio_failure. Qed.

Lemma Undefined_ratio :
  forall (A : Type) (u : undefined), ~ ratio_assertion_failed (@Undefined A u).
Proof. intros A u. no_ratio_failure. Qed.

Lemma floor_to_int_ratio : forall x, ~ ratio_assertion_failed (Fp.floor_to_int x).
Proof.
  intros x. unfold Fp.floor_to_int.
  destruct (Fp.floor x) as [z|]; [destruct (fits_int z)|]; no_ratio_failure.
Qed.

Lemma to_int_ratio : forall x, ~ ratio_assertion_failed (Fp.to_int x).
Proof.
  intros x. unfold Fp.to_int.
  destruct (Fp.trunc x) as [z|]; [destruct (fits_int z)|]; no_ratio_failure.
Qed.

Lemma to_uint8_ratio : forall x, ~ ratio_assertion_failed (Fp.to_uint8 x).
Proof.
  intros x. unfold Fp.to_uint8.
  destruct (Fp.trunc x) as [z|]; [destruct ((0 <=? z) && (z <=? 255))|]; no_ratio_failure.
Qed.

Lemma int_arith_ratio : forall z, ~ ratio_assertion_failed (int_arith z).
Proof. intros z. unfold int_arith. destruct (fits_int z); no_ratio_failure. Qed.

Lemma read_ratio :
  forall (A : Type) (a : list A) (i : Z), ~ ratio_assertion_failed (read a i).
Proof.
  intros A a i. unfold read.
  destruct (i <? 0); [|destruct (nth_error a (Z.to_nat i))]; no_ratio_failure.
Qed.

Lemma write_ratio :
  forall (A : Type) (a : list A) (i : Z) (v : A), ~ ratio_assertion_failed (write a i v).
Proof.
  intros A a i v. unfold write.
  destruct ((i <? 0) || (Z.of_nat (length a) <=? i)); no_ratio_failure.
Qed.

Lemma PixelToGrayscale_ratio : forall pixel, ~ ratio_assertion_failed (PixelToGrayscale pixel).
Proof.
  intros pixel. unfold PixelToGrayscale, PixelToRGB.
  apply bind_ratio.
  - apply bind_ratio; [apply read_ratio|]. intros; apply Ok_ratio.
  - intros [[r g] b] _. unfold RGBToGrayscale, assert.
    destruct (in_byte r); [|no_ratio_failure].
    destruct (in_byte g); [|no_ratio_failure].
    destruct (in_byte b); [|no_ratio_failure].
    simpl. apply to_uint8_ratio.
Qed.

Lemma accumulate_color_ratio :
  forall raw_pixels W xr yr x y xw yw c,
    ~ ratio_assertion_failed (accumulate_color raw_pixels W xr yr x y xw yw c).
Proof.
  intros. unfold accumulate_color.
  apply bind_ratio; [apply int_arith_ratio|]. intros idx _.
  apply bind_ratio; [apply read_ratio|]. intros pixel _.
  apply bind_ratio; [apply PixelToGrayscale_ratio|]. intros g _.
  apply to_uint8_ratio.
Qed.

Create HintDb ratio.
#[local] Hint Resolve Ok_ratio Undefined_ratio floor_to_int_ratio to_int_ratio
  to_uint8_ratio int_arith_ratio read_ratio write_ratio PixelToGrayscale_ratio
  accumulate_color_ratio : ratio.

Lemma cell_bounds_ratio :
  forall ratio start k, ~ ratio_assertion_failed (cell_bounds ratio start k).
Proof.
  intros. unfold cell_bounds.
  apply bind_ratio; [auto with ratio|]. intros lo _.
  apply bind_ratio; [auto with ratio|]. intros hi _.
  auto with ratio.
Qed.

(** The two loops can be stopped by an assertion on a weight only if the body can. *)
Lemma for_covered_pixels_ratio :
  forall (A : Type) xr yr sx sy i j
         (visit : Z -> Z -> Fp.double -> Fp.double -> A -> result A) (acc : A),
    valid64 xr -> valid64 yr -> fits_int sx = true -> fits_int sy = true ->
    (forall x y xw yw a, ~ ratio_assertion_failed (visit x y xw yw a)) ->
    ~ ratio_assertion_failed (for_covered_pixels xr yr sx sy i j visit acc).
Proof.
  intros A xr yr sx sy i j visit acc Hxr Hyr Hsx Hsy Hvisit.
  unfold for_covered_pixels.
  apply bind_ratio; [apply cell_bounds_ratio|]. intros [first_x last_x] Hxs.
  apply bind_ratio; [apply cell_bounds_ratio|]. intros [first_y last_y] Hys.
  unfold for_upto. apply loop_ratio. intros x a.
  rewrite (ratio_in_resulting_pixel_in_range xr sx j first_x last_x x Hxr Hsx Hxs).
  simpl. apply loop_ratio. intros y a'.
  rewrite (ratio_in_resulting_pixel_in_range yr sy i first_y last_y y Hyr Hsy Hys).
  simpl. apply Hvisit.
Qed.

(** The ratios of a crop geometry are canonical, its offsets fit an [int]. *)
Lemma crop_geometry_Ok :
  forall S W H g,
    crop_geometry S W H = Ok g ->
    valid64 (x_ratio g) /\ valid64 (y_ratio g) /\
    fits_int (start_x g) = true /\ fits_int (start_y g) = true.
Proof.
  intros S W H g Hg. unfold crop_geometry in Hg.
  apply bind_Ok in Hg as (c & Hc & Hg).
  apply bind_Ok in Hg as (sy & Hsy & Hg).
  injection Hg as <-. cbn [x_ratio y_ratio start_x start_y].
  split; [apply div_valid; apply of_int_valid|].
  split; [apply div_valid; apply of_int_valid|].
  split; [reflexivity|]. eapply to_int_Ok; exact Hsy.
Qed.

Lemma crop_geometry_ratio :
  forall S W H, ~ ratio_assertion_failed (crop_geometry S W H).
Proof.
  intros. unfold crop_geometry.
  apply bind_ratio; [auto with ratio|]. intros c _.
  apply bind_ratio; [auto with ratio|]. intros sy _.
  auto with ratio.
Qed.

Lemma PreprocessScreen_ratio :
  forall S raw_screen, ~ ratio_assertion_failed (PreprocessScreen S raw_screen).
Proof.
  intros S raw_screen. unfold PreprocessScreen.
  apply bind_ratio.
  { unfold assert. destruct (width raw_screen <? height raw_screen); no_ratio_failure. }
  intros _ _.
  apply bind_ratio; [apply crop_geometry_ratio|]. intros g Hg.
  apply crop_geometry_Ok in Hg as (Hx & Hy & Hsx & Hsy).
  unfold for_below. apply loop_ratio. intros i scr.
  apply loop_ratio. intros j scr'.
  apply bind_ratio; [|auto with ratio].
  unfold resample_cell.
  apply for_covered_pixels_ratio; auto with ratio.
Qed.

(** C6.  For every raw screen and every frame size, each weight that
    [PreprocessScreen] computes along either axis, for the first, the last
    or an inner pixel of a cell, passes the test [0 <= w <= 1] of its
    assertion, and no run of [PreprocessScreen] is stopped by one of the two
    assertions on the weights. *)
Theorem PreprocessScreen_ratio_assertions_hold :
  forall (S : Z) (raw_screen : ALEScreen),
    (forall g, crop_geometry S (width raw_screen) (height raw_screen) = Ok g ->
       forall k first last p,
         (cell_bounds (x_ratio g) (start_x g) k = Ok (first, last) ->
          ratio_in_range
            (ratio_in_resulting_pixel (x_ratio g) (start_x g) k first last p) = true) /\
         (cell_bounds (y_ratio g) (start_y g) k = Ok (first, last) ->
          ratio_in_range
            (ratio_in_resulting_pixel (y_ratio g) (start_y g) k first last p) = true)) /\
    PreprocessScreen S raw_screen <> AssertFailed XRatioRange /\
    PreprocessScreen S raw_screen <> AssertFailed YRatioRange.
Proof.
  intros S raw_screen. split.
  - intros g Hg k first last p.
    apply crop_geometry_Ok in Hg as (Hx & Hy & Hsx & Hsy).
    split; intros Hb; eapply ratio_in_resulting_pixel_in_range; eassumption.
  - pose proof (PreprocessScreen_ratio S raw_screen) as H.
    unfold ratio_assertion_failed in H. split; intros E; apply H; [left|right]; exact E.
Qed.

(** The weights of the first cell of the 160 x 210 screen along the x axis:
    1 for the first pixel, 0.8095... for the last; and along the y axis:
    1, 1 and 0.2976...; the last pixel of the last column has weight 0. *)
Example ratio_in_resulting_pixel_160_210 :
  exists g,
    crop_geometry kCroppedFrameSize_spec 160 210 = Ok g /\
    cell_bounds (x_ratio g) (start_x g) 0 = Ok (8, 9) /\
    cell_bounds (y_ratio g) (start_y g) 0 = Ok (8, 10) /\
    ratio_in_resulting_pixel (x_ratio g) (start_x g) 0 8 9 8 = Fp.d1_0 /\
    ratio_in_resulting_pixel (x_ratio g) (start_x g) 0 8 9 9
      = S754_finite false 7291542253837944 (-53) /\
    ratio_in_resulting_pixel (y_ratio g) (start_y g) 0 8 10 8 = Fp.d1_0 /\
    ratio_in_resulting_pixel (y_ratio g) (start_y g) 0 8 10 9 = Fp.d1_0 /\
    ratio_in_resulting_pixel (y_ratio g) (start_y g) 0 8 10 10
      = S754_finite false 5361428127822016 (-54) /\
    cell_bounds (x_ratio g) (start_x g) 83 = Ok (158, 160) /\
    ratio_in_resulting_pixel (x_ratio g) (start_x g) 83 158 160 160 = Fp.d0_0.
Proof.
  eexists. split; [exact crop_geometry_160_210|].
  repeat split; vm_compute; reflexivity.
Qed.

(** ** The agent *)

Lemma lcg_uniform_range :
  forall a b g, a <= b -> a <= fst (lcg_uniform a b g) <= b.
Proof.
  intros a b g Hab. unfold lcg_uniform. simpl.
  pose proof (Z.mod_pos_bound (lcg_next g) (b - a + 1) ltac:(lia)). lia.
Qed.

Lemma size_minus_1_small :
  forall (A : Type) (v : list A),
    (1 <= length v)%nat -> Z.of_nat (length v) <= 2 ^ 31 ->
    size_minus_1 v = Z.of_nat (length v) - 1.
Proof.
  intros A v H1 H2. unfold size_minus_1, size_t_wrap, int_of_size_t.
  rewrite (Z.mod_small (Z.of_nat (length v) - 1) (2 ^ 64)) by lia.
  rewrite (Z.mod_small (Z.of_nat (length v) - 1) (2 ^ 32)) by lia.
  destruct (Z.of_nat (length v) - 1 <? 2 ^ 31) eqn:E; [reflexivity|lia].
Qed.

Lemma size_minus_1_empty :
  forall (A : Type), size_minus_1 (@nil A) = -1.
Proof. intros A. vm_compute. reflexivity. Qed.

Lemma read_Ok :
  forall (A : Type) (a : list A) (i : Z) (v : A),
    read a i = Ok v <-> 0 <= i /\ nth_error a (Z.to_nat i) = Some v.
Proof.
  intros A a i v. unfold read.
  destruct (i <? 0) eqn:E.
  - split; [discriminate|lia].
  - destruct (nth_error a (Z.to_nat i)) as [w|].
    + split; [intros [= ->]; split; [lia|reflexivity]|intros [_ [= ->]]; reflexivity].
    + split; [discriminate|intros [_ H]; discriminate].
Qed.

Lemma read_in_range :
  forall (A : Type) (a : list A) (i : Z),
    0 <= i < Z.of_nat (length a) -> exists v, read a i = Ok v /\ In v a.
Proof.
  intros A a i Hi.
  destruct (nth_error a (Z.to_nat i)) as [v|] eqn:E.
  - exists v. split; [apply read_Ok; split; [lia|exact E]|].
    eapply nth_error_In; exact E.
  - apply nth_error_None in E. lia.
Qed.

Lemma splice_length :
  forall (A : Type) (a src : list A) (p : nat),
    (p + length src <= length a)%nat -> length (splice a p src) = length a.
Proof.
  intros A a src p H. unfold splice.
  rewrite !length_app, length_firstn, length_skipn. lia.
Qed.

(** The cells of a destination after a copy. *)
Lemma splice_nth_error :
  forall (A : Type) (a src : list A) (p k : nat),
    (p + length src <= length a)%nat ->
    nth_error (splice a p src) k =
    if (k <? p)%nat then nth_error a k
    else if (k <? p + length src)%nat then nth_error src (k - p)
    else nth_error a k.
Proof.
  intros A a src p k H. unfold splice.
  destruct (k <? p)%nat eqn:E1.
  - apply Nat.ltb_lt in E1.
    rewrite nth_error_app1 by (rewrite length_firstn; lia).
    apply nth_error_firstn_lt || (rewrite nth_error_firstn; rewrite E1 || idtac).
    all: try reflexivity.
    destruct (k <? p)%nat eqn:E; [reflexivity|apply Nat.ltb_ge in E; lia].
  - apply Nat.ltb_ge in E1.
    rewrite nth_error_app2 by (rewrite length_firstn; lia).
    rewrite length_firstn.
    replace (Nat.min p (length a)) with p by lia.
    destruct (k <? p + length src)%nat eqn:E2.
    + apply Nat.ltb_lt in E2. rewrite nth_error_app1 by lia. reflexivity.
    + apply Nat.ltb_ge in E2. rewrite nth_error_app2 by lia.
      rewrite nth_error_skipn. f_equal. lia.
Qed.

Lemma window_nth_error :
  forall (A : Type) (l : list A) (q n k : nat),
    nth_error (firstn n (skipn q l)) k =
    if (k <? n)%nat then nth_error l (q + k) else None.
Proof.
  intros A l q n k. rewrite nth_error_firstn.
  destruct (k <? n)%nat; [apply nth_error_skipn|reflexivity].
Qed.

Lemma splice_window_same :
  forall (A : Type) (a src : list A) (p : nat),
    (p + length src <= length a)%nat ->
    firstn (length src) (skipn p (splice a p src)) = src.
Proof.
  intros A a src p H. apply nth_error_ext. intros k.
  rewrite window_nth_error, splice_nth_error by exact H.
  destruct (k <? length src)%nat eqn:E.
  - apply Nat.ltb_lt in E.
    replace (p + k <? p)%nat with false by (symmetry; apply Nat.ltb_ge; lia).
    replace (p + k <? p + length src)%nat with true by (symmetry; apply Nat.ltb_lt; lia).
    f_equal. lia.
  - apply Nat.ltb_ge in E. symmetry. apply nth_error_None. exact E.
Qed.

Lemma splice_window_other :
  forall (A : Type) (a src : list A) (p q n : nat),
    (p + length src <= length a)%nat ->
    (q + n <= p \/ p + length src <= q)%nat ->
    firstn n (skipn q (splice a p src)) = firstn n (skipn q a).
Proof.
  intros A a src p q n H Hd. apply nth_error_ext. intros k.
  rewrite !window_nth_error, splice_nth_error by exact H.
  destruct (k <? n)%nat eqn:E; [|reflexivity].
  apply Nat.ltb_lt in E.
  destruct Hd as [Hd|Hd].
  - replace (q + k <? p)%nat with true by (symmetry; apply Nat.ltb_lt; lia).
    reflexivity.
  - replace (q + k <? p)%nat with false by (symmetry; apply Nat.ltb_ge; lia).
    replace (q + k <? p + length src)%nat with false
      by (symmetry; apply Nat.ltb_ge; lia).
    reflexivity.
Qed.

Lemma copy_Ok :
  forall (A : Type) (src a : list A) (at_ : Z),
    0 <= at_ -> at_ + Z.of_nat (length src) <= Z.of_nat (length a) ->
    copy src a at_ = Ok (splice a (Z.to_nat at_) src).
Proof.
  intros A src a at_ H0 H1. unfold copy.
  replace (at_ <? 0) with false by (symmetry; apply Z.ltb_ge; lia).
  replace (Z.of_nat (length a) <? at_ + Z.of_nat (length src)) with false
    by (symmetry; apply Z.ltb_ge; lia).
  reflexivity.
Qed.

Lemma fill_Ok :
  forall (A : Type) (a : list A) (from to : Z) (v : A),
    0 <= from <= to -> to <= Z.of_nat (length a) ->
    fill a from to v = Ok (splice a (Z.to_nat from) (repeat v (Z.to_nat (to - from)))).
Proof.
  intros A a from to v H0 H1. unfold fill.
  replace (from <? 0) with false by (symmetry; apply Z.ltb_ge; lia).
  replace (to <? from) with false by (symmetry; apply Z.ltb_ge; lia).
  replace (Z.of_nat (length a) <? to) with false by (symmetry; apply Z.ltb_ge; lia).
  simpl. unfold splice. rewrite repeat_length.
  replace (Z.to_nat from + Z.to_nat (to - from))%nat with (Z.to_nat to) by lia.
  reflexivity.
Qed.

Lemma keep_last_app_skipn :
  forall (A : Type) (C k : nat) (l ts : list A),
    (k <= length l - C)%nat ->
    keep_last C (skipn k l ++ ts) = keep_last C (l ++ ts).
Proof.
  intros A C k l ts Hk. unfold keep_last.
  rewrite !length_app, length_skipn.
  rewrite !skipn_app, skipn_skipn, length_skipn.
  f_equal; f_equal; lia.
Qed.

Section AgentFacts.

Variable Action : Type.
Variable action_to_int : Action -> Z.
Variable Engine : Type.
Variable uniform_int_distribution : Z -> Z -> Engine -> Z * Engine.
Hypothesis uniform_int_distribution_range :
  forall a b g, a <= b ->
    a <= fst (uniform_int_distribution a b g) <= b.
Variables kCroppedFrameSize kInputFrameCount kMinibatchSize kOutputCount : Z.

Local Abbreviation D := (kCroppedFrameDataSize kCroppedFrameSize).
Local Abbreviation valid :=
  (valid_transition action_to_int kCroppedFrameSize kInputFrameCount kOutputCount).
Local Abbreviation sample :=
  (sample_transitions (Action := Action) uniform_int_distribution).
Local Abbreviation memory := (replay_memory_ (Action := Action) (Engine := Engine)).
Local Abbreviation capacity :=
  (replay_memory_capacity_ (Action := Action) (Engine := Engine)).

(** A distribution built with its bounds in order draws; one built with
    its bounds inverted is undefined behaviour, whatever the engine. *)
Lemma draw_in_order :
  forall (a b : Z) (g : Engine),
    a <= b -> draw uniform_int_distribution a b g = Ok (uniform_int_distribution a b g).
Proof.
  intros a b g H. unfold draw.
  destruct (Z.leb_spec a b); [reflexivity|lia].
Qed.

Lemma draw_inverted :
  forall (a b : Z) (g : Engine),
    b < a -> draw uniform_int_distribution a b g = Undefined InvertedBounds.
Proof.
  intros a b g H. unfold draw.
  destruct (Z.leb_spec a b); [lia|reflexivity].
Qed.

(** C8.  [SelectAction] reads neither [epsilon] nor [last_frames]: from
    the same agent state, any two exploration parameters and any two frame
    stacks give the same action and the same next state. *)
Theorem SelectAction_ignores_epsilon :
  forall (d : DQN Action Engine) (frames1 frames2 : InputFrames)
         (epsilon1 epsilon2 : Fp.double),
    SelectAction uniform_int_distribution frames1 epsilon1 d =
    SelectAction uniform_int_distribution frames2 epsilon2 d.
Proof. intros. reflexivity. Qed.

(** C9.  With at least one legal action (and no more than an [int] can
    index) [SelectAction] returns a member of [legal_actions_]. *)
Theorem SelectAction_returns_legal_action :
  forall (d : DQN Action Engine) (last_frames : InputFrames) (epsilon : Fp.double),
    (1 <= length (legal_actions_ d))%nat ->
    Z.of_nat (length (legal_actions_ d)) <= 2 ^ 31 ->
    exists a d',
      SelectAction uniform_int_distribution last_frames epsilon d = Ok (a, d') /\
      In a (legal_actions_ d).
Proof.
  intros d last_frames epsilon H1 H2. unfold SelectAction.
  rewrite size_minus_1_small by assumption.
  rewrite draw_in_order by lia. cbn [bind].
  pose proof (uniform_int_distribution_range 0
                (Z.of_nat (length (legal_actions_ d)) - 1)
                (random_engine d) ltac:(lia)) as Hr.
  destruct (uniform_int_distribution 0 _ (random_engine d)) as [idx g].
  simpl in Hr.
  destruct (read_in_range _ (legal_actions_ d) idx ltac:(lia)) as (a & Ha & Hin).
  exists a, (with_engine d g). rewrite Ha. simpl. split; [reflexivity|exact Hin].
Qed.

(** One push keeps the last [capacity] entries of the extended memory. *)
Lemma AddTransition_keeps_last :
  forall (d : DQN Action Engine) (t : Transition Action),
    1 <= capacity d ->
    Z.of_nat (length (memory d)) <= capacity d ->
    AddTransition t d =
    Ok (with_memory d (keep_last (Z.to_nat (capacity d)) (memory d ++ [t]))).
Proof.
  intros d t HC Hlen. unfold AddTransition.
  destruct (Z.of_nat (length (memory d)) =? capacity d) eqn:E.
  - apply Z.eqb_eq in E.
    destruct (memory d) as [|t0 m] eqn:Em; [simpl in E; lia|].
    assert (K : keep_last (Z.to_nat (capacity d)) ((t0 :: m) ++ [t]) = m ++ [t]).
    { unfold keep_last. rewrite length_app.
      replace (length (t0 :: m) + length [t] - Z.to_nat (capacity d))%nat with 1%nat
        by (simpl length in *; lia).
      reflexivity. }
    rewrite K. reflexivity.
  - apply Z.eqb_neq in E.
    assert (K : keep_last (Z.to_nat (capacity d)) (memory d ++ [t]) = memory d ++ [t]).
    { unfold keep_last. rewrite length_app.
      replace (length (memory d) + length [t] - Z.to_nat (capacity d))%nat with 0%nat
        by (simpl length; lia).
      reflexivity. }
    rewrite K. reflexivity.
Qed.

Lemma keep_last_length :
  forall (A : Type) (n : nat) (l : list A), (length (keep_last n l) <= n)%nat.
Proof. intros A n l. unfold keep_last. rewrite length_skipn. lia. Qed.

(** C3.  With a capacity of at least 1 and a memory within it, any
    sequence of [AddTransition] calls succeeds and leaves the last
    [capacity] transitions of the old contents followed by the new ones, in
    their order: the size never exceeds the capacity, and a push onto a
    full memory drops exactly the oldest entry. *)
Theorem AddTransition_fifo :
  forall (d : DQN Action Engine) (ts : list (Transition Action)),
    1 <= capacity d ->
    Z.of_nat (length (memory d)) <= capacity d ->
    exists d',
      push_all ts d = Ok d' /\
      memory d' = keep_last (Z.to_nat (capacity d)) (memory d ++ ts) /\
      Z.of_nat (length (memory d')) <= capacity d /\
      capacity d' = capacity d.
Proof.
  intros d ts. revert d.
  induction ts as [|t ts IH]; intros d HC Hlen.
  - exists d. simpl. rewrite app_nil_r. unfold keep_last.
    replace (length (memory d) - Z.to_nat (capacity d))%nat with 0%nat by lia.
    repeat split; try reflexivity. exact Hlen.
  - simpl. rewrite (AddTransition_keeps_last d t HC Hlen). simpl.
    set (d1 := with_memory d _).
    assert (Hcap : capacity d1 = capacity d) by reflexivity.
    assert (Hlen1 : Z.of_nat (length (memory d1)) <= capacity d1).
    { unfold d1. simpl.
      pose proof (keep_last_length _ (Z.to_nat (capacity d)) (memory d ++ [t])). lia. }
    destruct (IH d1 ltac:(lia) Hlen1) as (d' & Hpush & Hmem & Hlen' & Hcap').
    exists d'. split; [exact Hpush|].
    split; [|split; lia].
    rewrite Hmem, Hcap. unfold d1. simpl memory.
    unfold keep_last at 2.
    rewrite keep_last_app_skipn.
    + rewrite <- app_assoc. reflexivity.
    + rewrite length_app. simpl. lia.
Qed.

(** With the bounds of the memory in order the sampling loop is defined:
    it appends [n] draws, each with the property that every draw from
    those bounds has, and leaves the memory alone. *)
Lemma sample_transitions_spec :
  forall (P : Z -> Prop) (n : nat) (d : DQN Action Engine) (ts0 : list Z),
    0 <= size_minus_1 (replay_memory_ d) ->
    exists transitions d',
      sample n d ts0 = Ok (transitions, d') /\
      length transitions = (length ts0 + n)%nat /\
      replay_memory_ d' = replay_memory_ d /\
      (Forall P ts0 ->
       (forall g, P (fst (uniform_int_distribution 0 (size_minus_1 (replay_memory_ d)) g))) ->
       Forall P transitions).
Proof.
  intros P n. induction n as [|n IH]; intros d ts0 Hb.
  - exists ts0, d. simpl. repeat split; [lia|]. intros H _. exact H.
  - cbn [sample_transitions]. rewrite draw_in_order by exact Hb. cbn [bind].
    destruct (uniform_int_distribution 0 (size_minus_1 (replay_memory_ d))
                (random_engine d)) as [idx g] eqn:Edraw.
    destruct (IH (with_engine d g) (ts0 ++ [idx]) Hb)
      as (transitions & d' & Hs & Hlen & Hmem & Hall).
    exists transitions, d'.
    split; [exact Hs|].
    split; [rewrite Hlen, length_app; simpl; lia|].
    split; [rewrite Hmem; reflexivity|].
    intros H0 Hdraw. apply Hall.
    + apply Forall_app. split; [exact H0|].
      constructor; [|constructor].
      specialize (Hdraw (random_engine d)). rewrite Edraw in Hdraw. exact Hdraw.
    + exact Hdraw.
Qed.

(** With the bounds of the memory inverted the first draw is undefined
    behaviour: no index is drawn. *)
Lemma sample_transitions_inverted :
  forall (n : nat) (d : DQN Action Engine) (ts0 : list Z),
    size_minus_1 (replay_memory_ d) < 0 ->
    sample (S n) d ts0 = Undefined InvertedBounds.
Proof.
  intros n d ts0 Hb. cbn [sample_transitions].
  rewrite draw_inverted by lia. reflexivity.
Qed.

(** C2.  [Update] has no guard on the size of the replay memory and leaves
    [size() >= 1] to its caller.  On an empty memory it does not refuse to
    run: its first draw builds [uniform_int_distribution<int>(0, -1)],
    which is undefined behaviour whatever the engine and the arrays, and no
    index is drawn.  With at least one transition (and no more than an
    [int] can index) the sampling returns [kMinibatchSize] indices, each
    in [[0, size())], and leaves the memory as it was. *)
Theorem Update_samples_without_guard :
  forall (d : DQN Action Engine) (frames_input target_input : list Z),
    (memory d = [] -> 1 <= kMinibatchSize ->
     Update action_to_int uniform_int_distribution
            kCroppedFrameSize kInputFrameCount kMinibatchSize kOutputCount
            frames_input target_input d
       = Undefined InvertedBounds) /\
    ((1 <= length (memory d))%nat ->
     Z.of_nat (length (memory d)) <= 2 ^ 31 ->
     exists transitions d',
       sample (Z.to_nat kMinibatchSize) d [] = Ok (transitions, d') /\
       length transitions = Z.to_nat kMinibatchSize /\
       memory d' = memory d /\
       Forall (fun idx => 0 <= idx < Z.of_nat (length (memory d))) transitions).
Proof.
  intros d fi ti. split.
  - intros Hempty Hn. unfold Update.
    destruct (Z.to_nat kMinibatchSize) as [|n] eqn:En; [lia|].
    rewrite sample_transitions_inverted
      by (rewrite Hempty, size_minus_1_empty; lia).
    reflexivity.
  - intros Hne Hsz.
    set (inrange := fun idx => 0 <= idx < Z.of_nat (length (memory d))).
    destruct (sample_transitions_spec inrange (Z.to_nat kMinibatchSize) d [])
      as (transitions & d1 & Hs & Hlen & Hmem & Hall).
    { rewrite size_minus_1_small by assumption. lia. }
    exists transitions, d1.
    split; [exact Hs|]. split; [exact Hlen|]. split; [exact Hmem|].
    apply Hall; [constructor|].
    intros g. unfold inrange.
    rewrite size_minus_1_small by assumption.
    pose proof (uniform_int_distribution_range 0
                  (Z.of_nat (length (memory d)) - 1) g ltac:(lia)). lia.
Qed.

Lemma D_nonneg : 0 <= D.
Proof. unfold kCroppedFrameDataSize. nia. Qed.

Lemma copy_input_frames_total :
  forall (frames : InputFrames) (i : Z) (frames_input : list Z),
    Z.of_nat (length frames) = kInputFrameCount ->
    Forall (frame_sized kCroppedFrameSize) frames ->
    0 <= i < kMinibatchSize ->
    Z.of_nat (length frames_input) =
      kMinibatchSize * kInputDataSize kCroppedFrameSize kInputFrameCount ->
    exists frames_input',
      copy_input_frames kCroppedFrameSize kInputFrameCount frames i frames_input
        = Ok frames_input' /\
      length frames_input' = length frames_input.
Proof.
  intros frames i fi HK Hsz Hi Hlen.
  pose proof D_nonneg as HD.
  unfold copy_input_frames, for_below.
  destruct (loop_total _ (fun (_ : Z) (a : list Z) => length a = length fi)
              (fun j frames_input =>
                 frame_data <- read frames j ;;
                 copy frame_data frames_input
                   (i * kInputDataSize kCroppedFrameSize kInputFrameCount + j * D))
              (Z.to_nat (kInputFrameCount - 0)) 0 fi eq_refl) as (fi' & Hloop & Hfi').
  - intros j a Hj Ha.
    destruct (read_in_range _ frames j ltac:(lia)) as (f & Hread & Hin).
    rewrite Forall_forall in Hsz. specialize (Hsz f Hin). unfold frame_sized in Hsz.
    rewrite Hread. cbn [bind].
    unfold kInputDataSize in *.
    assert (Hoff : 0 <= i * (D * kInputFrameCount) + j * D /\
                   i * (D * kInputFrameCount) + j * D + D
                     <= kMinibatchSize * (D * kInputFrameCount)).
    { assert (0 <= D * kInputFrameCount) by nia.
      assert (0 <= i * (D * kInputFrameCount)) by nia.
      assert (0 <= j * D) by nia.
      assert ((j + 1) * D <= kInputFrameCount * D) by nia.
      assert ((i + 1) * (D * kInputFrameCount)
                <= kMinibatchSize * (D * kInputFrameCount)) by nia.
      lia. }
    rewrite copy_Ok by lia.
    eexists. split; [reflexivity|]. rewrite splice_length; [exact Ha|]. lia.
  - exists fi'. split; [exact Hloop|exact Hfi'].
Qed.

Lemma assemble_target_total :
  forall (t : Transition Action) (i : Z) (target_input : list Z),
    (forall f, tr_next t = Some f -> frame_sized kCroppedFrameSize f) ->
    0 <= i < kMinibatchSize ->
    Z.of_nat (length target_input) = kMinibatchSize * D ->
    assemble_target kCroppedFrameSize t i target_input
      = Ok (splice target_input (Z.to_nat (i * D)) (target_of kCroppedFrameSize t)) /\
    length (target_of kCroppedFrameSize t) = Z.to_nat D.
Proof.
  intros t i ti Hnext Hi Hlen.
  pose proof D_nonneg as HD.
  unfold assemble_target, target_of.
  destruct (tr_next t) as [f|].
  - specialize (Hnext f eq_refl). unfold frame_sized in Hnext.
    split; [apply copy_Ok; nia|lia].
  - rewrite fill_Ok by nia.
    replace ((i + 1) * D - i * D) with D by lia.
    split; [reflexivity|apply repeat_length].
Qed.

(** C4.  With a non-empty replay memory of valid transitions, [Update]
    assembles its two arrays, and row [i] of [target_input] is all zeros
    ([kCroppedFrameDataSize] of them) when the transition sampled for row
    [i] has no next frame, and the values of its next frame otherwise. *)
Theorem Update_target_rows :
  forall (d : DQN Action Engine) (frames_input target_input : list Z),
    Z.of_nat (length frames_input) =
      kMinibatchSize * kInputDataSize kCroppedFrameSize kInputFrameCount ->
    Z.of_nat (length target_input) = kMinibatchSize * D ->
    (1 <= length (replay_memory_ d))%nat ->
    Z.of_nat (length (replay_memory_ d)) <= 2 ^ 31 ->
    Forall valid (replay_memory_ d) ->
    exists transitions d' frames_input' target_input',
      sample (Z.to_nat kMinibatchSize) d [] = Ok (transitions, d') /\
      Update action_to_int uniform_int_distribution
             kCroppedFrameSize kInputFrameCount kMinibatchSize kOutputCount
             frames_input target_input d
        = Ok (frames_input', target_input', d') /\
      forall i, 0 <= i < kMinibatchSize ->
        exists idx t,
          read transitions i = Ok idx /\
          read (replay_memory_ d) idx = Ok t /\
          row D i target_input' =
            match tr_next t with
            | None => repeat 0 (Z.to_nat D)
            | Some next_frame_data => next_frame_data
            end.
Proof.
  intros d fi ti Hfi Hti Hne Hsz Hvalid.
  pose proof D_nonneg as HD.
  set (inrange := fun idx => 0 <= idx < Z.of_nat (length (replay_memory_ d))).
  destruct (sample_transitions_spec inrange (Z.to_nat kMinibatchSize) d [])
    as (transitions & d1 & Es & Hlen & Hmem & Hall).
  { rewrite size_minus_1_small by assumption. lia. }
  unfold Update. rewrite Es. cbn [bind].
  assert (Hin : Forall inrange transitions).
  { apply Hall; [constructor|]. intros g. unfold inrange.
    rewrite size_minus_1_small by assumption.
    pose proof (uniform_int_distribution_range 0
                  (Z.of_nat (length (replay_memory_ d)) - 1) g ltac:(lia)). lia. }
  rewrite Forall_forall in Hin.
  set (rowok := fun (k : Z) (ti' : list Z) =>
         exists idx t, read transitions k = Ok idx /\
                       read (replay_memory_ d) idx = Ok t /\
                       row D k ti' = target_of kCroppedFrameSize t).
  set (Inv := fun (i : Z) (io : list Z * list Z) =>
         length (fst io) = length fi /\ length (snd io) = length ti /\
         forall k, 0 <= k < i -> rowok k (snd io)).
  destruct (loop_total _ Inv
              (assemble_row action_to_int kCroppedFrameSize kInputFrameCount
                            kOutputCount d1 transitions)
              (Z.to_nat (kMinibatchSize - 0)) 0 (fi, ti)) as (io & Hloop & Hinv).
  - split; [reflexivity|]. split; [reflexivity|]. intros; lia.
  - intros i [fi1 ti1] Hi (Hl1 & Hl2 & Hrows). cbn [fst snd] in Hl1, Hl2, Hrows.
    unfold assemble_row.
    destruct (read_in_range _ transitions i ltac:(simpl in Hlen; lia))
      as (idx & Hidx & Hidx_in).
    specialize (Hin idx Hidx_in). unfold inrange in Hin.
    rewrite Hidx. cbn [bind]. rewrite Hmem.
    destruct (read_in_range _ (replay_memory_ d) idx Hin) as (t & Ht & Ht_in).
    rewrite Ht. cbn [bind].
    rewrite Forall_forall in Hvalid.
    destruct (Hvalid t Ht_in) as (HK & Hframes & Hnext & Hact & Hrew).
    unfold assert.
    replace (action_to_int (tr_action t) <? kOutputCount) with true
      by (symmetry; apply Z.ltb_lt; exact Hact).
    rewrite Hrew. cbn [bind].
    destruct (assemble_target_total t i ti1 Hnext ltac:(lia) ltac:(lia)) as [Hat Htl].
    rewrite Hat. cbn [bind].
    destruct (copy_input_frames_total (tr_frames t) i fi1 HK Hframes ltac:(lia)
                ltac:(lia)) as (fi2 & Hcopy & Hfi2).
    rewrite Hcopy. cbn [bind].
    eexists. split; [reflexivity|].
    assert (Hfit : (Z.to_nat (i * D) + length (target_of kCroppedFrameSize t) <= length ti1)%nat)
      by (rewrite Htl; nia).
    split; [cbn [fst]; lia|].
    split; [cbn [snd]; rewrite splice_length by exact Hfit; exact Hl2|].
    cbn [snd]. intros k Hk.
    destruct (Z.eq_dec k i) as [->|Hne'].
    + exists idx, t. split; [exact Hidx|]. split; [exact Ht|].
      unfold row. rewrite <- Htl. apply splice_window_same. exact Hfit.
    + destruct (Hrows k ltac:(lia)) as (idx' & t' & H1 & H2 & H3).
      exists idx', t'. split; [exact H1|]. split; [exact H2|].
      rewrite <- H3. unfold row. apply splice_window_other; [exact Hfit|].
      left. nia.
  - destruct io as [fi' ti']. destruct Hinv as (_ & _ & Hrows). cbn [snd] in Hrows.
    exists transitions, d1, fi', ti'.
    split; [reflexivity|].
    unfold for_below. rewrite Hloop. cbn [bind].
    split; [reflexivity|].
    intros i Hi. apply Hrows. lia.
Qed.

End AgentFacts.

(** ** The agent on concrete states *)

Lemma SelectAction_returns_legal_action_witness :
  (1 <= length (legal_actions_ (demo_agent [])))%nat /\
  Z.of_nat (length (legal_actions_ (demo_agent []))) <= 2 ^ 31 /\
  exists a d',
    SelectAction lcg_uniform [demo_frame 1; demo_frame 2] Fp.d0_0 (demo_agent [])
      = Ok (a, d') /\
    In a (legal_actions_ (demo_agent [])).
Proof.
  split; [simpl; lia|]. split; [simpl; lia|].
  apply (SelectAction_returns_legal_action Z Z lcg_uniform lcg_uniform_range);
    simpl; lia.
Defined.

(** With a capacity of 3, four pushes onto the empty memory leave the last
    three, oldest first. *)
Lemma AddTransition_fifo_witness :
  1 <= replay_memory_capacity_ (demo_agent []) /\
  Z.of_nat (length (replay_memory_ (demo_agent []))) <= replay_memory_capacity_ (demo_agent []) /\
  exists d',
    push_all demo_pushes (demo_agent []) = Ok d' /\
    replay_memory_ d' =
      [demo_transition 2 None; demo_transition 3 None; demo_transition 4 None] /\
    Z.of_nat (length (replay_memory_ d')) <= 3 /\
    replay_memory_capacity_ d' = 3.
Proof.
  split; [simpl; lia|]. split; [simpl; lia|].
  apply (AddTransition_fifo Z Z (demo_agent []) demo_pushes); simpl; lia.
Defined.

Lemma demo_memory_valid :
  Forall (valid_transition (fun a : Z => a) 2 2 18) demo_memory.
Proof.
  repeat constructor; try (vm_compute; reflexivity);
    try (intros f [= <-]; vm_compute; reflexivity);
    try discriminate.
Qed.

Lemma Update_samples_without_guard_witness :
  (replay_memory_ (idle_agent 3 []) = [] /\
   1 <= 3 /\
   Update (fun a : Z => a) lcg_uniform 2 2 3 18
          (repeat 5 24) (repeat 9 12) (idle_agent 3 [])
     = Undefined InvertedBounds) /\
  ((1 <= length (replay_memory_ (demo_agent demo_memory)))%nat /\
   Z.of_nat (length (replay_memory_ (demo_agent demo_memory))) <= 2 ^ 31 /\
   exists transitions d',
     sample_transitions lcg_uniform 3 (demo_agent demo_memory) [] = Ok (transitions, d') /\
     length transitions = 3%nat /\
     replay_memory_ d' = replay_memory_ (demo_agent demo_memory) /\
     Forall (fun idx => 0 <= idx < Z.of_nat (length (replay_memory_ (demo_agent demo_memory))))
            transitions).
Proof.
  split.
  - split; [reflexivity|]. split; [lia|].
    apply (proj1 (Update_samples_without_guard Z (fun a : Z => a) Z lcg_uniform
                    lcg_uniform_range 2 2 3 18 (idle_agent 3 [])
                    (repeat 5 24) (repeat 9 12))); [reflexivity|lia].
  - split; [simpl; lia|]. split; [simpl; lia|].
    apply (proj2 (Update_samples_without_guard Z (fun a : Z => a) Z lcg_uniform
                    lcg_uniform_range 2 2 3 18 (demo_agent demo_memory)
                    (repeat 5 24) (repeat 9 12))); simpl; lia.
Defined.

(** C2, the empty memory: [Update] does not refuse to run.  No assertion
    guards the sampling: the first draw is made from the bounds (0, -1),
    which the distribution is not defined for, and the outcome is
    undefined behaviour, not a failure that a caller could observe. *)
Lemma Update_empty_memory_not_refused :
  replay_memory_ (demo_agent []) = [] /\
  size_minus_1 (replay_memory_ (demo_agent [])) = -1 /\
  Update (fun a : Z => a) lcg_uniform 2 2 3 18
         (repeat 5 24) (repeat 9 12) (demo_agent [])
    = Undefined InvertedBounds /\
  forall which : assertion,
    Update (fun a : Z => a) lcg_uniform 2 2 3 18
           (repeat 5 24) (repeat 9 12) (demo_agent [])
      <> AssertFailed which.
Proof.
  repeat split; try (vm_compute; reflexivity).
  intros which. vm_compute. discriminate.
Qed.

Lemma Update_target_rows_witness :
  Z.of_nat (length (repeat 5 24)) = 3 * kInputDataSize 2 2 /\
  Z.of_nat (length (repeat 9 12)) = 3 * kCroppedFrameDataSize 2 /\
  (1 <= length (replay_memory_ (demo_agent demo_memory)))%nat /\
  Z.of_nat (length (replay_memory_ (demo_agent demo_memory))) <= 2 ^ 31 /\
  Forall (valid_transition (fun a : Z => a) 2 2 18)
         (replay_memory_ (demo_agent demo_memory)) /\
  exists transitions d' frames_input' target_input',
    sample_transitions lcg_uniform 3 (demo_agent demo_memory) [] = Ok (transitions, d') /\
    Update (fun a : Z => a) lcg_uniform 2 2 3 18
           (repeat 5 24) (repeat 9 12) (demo_agent demo_memory)
      = Ok (frames_input', target_input', d') /\
    forall i, 0 <= i < 3 ->
      exists idx t,
        read transitions i = Ok idx /\
        read (replay_memory_ (demo_agent demo_memory)) idx = Ok t /\
        row (kCroppedFrameDataSize 2) i target_input' =
          match tr_next t with
          | None => repeat 0 (Z.to_nat (kCroppedFrameDataSize 2))
          | Some next_frame_data => next_frame_data
          end.
Proof.
  split; [vm_compute; reflexivity|]. split; [vm_compute; reflexivity|].
  split; [simpl; lia|]. split; [simpl; lia|].
  split; [exact demo_memory_valid|].
  apply (Update_target_rows Z (fun a : Z => a) Z lcg_uniform lcg_uniform_range
           2 2 3 18 (demo_agent demo_memory) (repeat 5 24) (repeat 9 12)).
  - vm_compute; reflexivity.
  - vm_compute; reflexivity.
  - simpl; lia.
  - simpl; lia.
  - exact demo_memory_valid.
Defined.

(** The run behind the last example: the rows sampled are the second, the
    first and the second transition. *)
Example Update_demo_run :
  exists d',
    Update (fun a : Z => a) lcg_uniform 2 2 3 18
           (repeat 5 24) (repeat 9 12) (demo_agent demo_memory)
      = Ok ([1; 1; 1; 1; 2; 2; 2; 2; 1; 1; 1; 1; 2; 2; 2; 2; 1; 1; 1; 1; 2; 2; 2; 2],
            [7; 8; 9; 10; 0; 0; 0; 0; 7; 8; 9; 10], d').
Proof. eexists. vm_compute. reflexivity. Qed.

(** * Further properties

    Properties of the code beyond the statements above: the grayscale
    conversion in integer terms, the palette, the shape and the range of a
    processed frame, the crop, the text of [DrawFrame] and [PrintQValues],
    the arrays of [PredictNextFrame] and [Update], and the agent outside
    the states its callers are to keep it in. *)

(** ** Rounding at a finer scale

    The lemmas on [enclosed] bound a sum between integers.  The three
    products of [RGBToGrayscale] need bounds finer than 1: [enclosed_at k]
    bounds a number between two multiples of [2 ^ (- k)]. *)

Lemma binary_round_aux_enclosed_at :
  forall k s M E lo hi,
    0 <= k <= 1074 ->
    0 < M -> E <= - k ->
    E <= fexp64 (Zdigits2 M + E) ->
    0 <= lo -> hi <= 2 ^ 52 ->
    lo * 2 ^ (- E - k) <= M <= hi * 2 ^ (- E - k) ->
    match binary_round_aux 53 1024 s M E loc_Exact with
    | S754_zero s' => s' = s /\ lo = 0
    | S754_finite s' m e =>
        s' = s /\ e <= - k /\ lo * 2 ^ (- e - k) <= Z.pos m <= hi * 2 ^ (- e - k)
    | _ => False
    end.
Proof.
  intros k s M E lo hi Hk HM HE0 HE Hlo Hhi HB.
  destruct (binary_round_aux_cases s M E loc_Exact ltac:(lia) HE)
    as (m1 & Hm1 & Hex & Hr).
  set (f := fexp64 (Zdigits2 M + E)) in *.
  destruct (Zdigits2_bounds M HM) as (Hd & Hdlo & Hdhi).
  assert (HpE : 0 < 2 ^ (- E - k)) by (apply pow2_pos; lia).
  assert (Hf0 : f <= - k).
  { assert (Zdigits2 M - 1 < 53 - E - k).
    { apply (Z.pow_lt_mono_r_iff 2); [lia|lia|].
      replace (53 - E - k) with (53 + (- E - k)) by lia. rewrite Z.pow_add_r by lia.
      assert (hi * 2 ^ (- E - k) <= 2 ^ 52 * 2 ^ (- E - k)) by nia.
      assert (2 ^ 52 < 2 ^ 53) by reflexivity. nia. }
    unfold f, fexp64. lia. }
  assert (Hfm : -1074 <= f) by (unfold f, fexp64; lia).
  set (n := f - E) in *.
  assert (Hn : 0 <= n) by (unfold n; lia).
  assert (Hpn : 0 < 2 ^ n) by (apply pow2_pos; lia).
  assert (Hpf : 0 < 2 ^ (- f - k)) by (apply pow2_pos; lia).
  assert (Hsplit : 2 ^ (- E - k) = 2 ^ (- f - k) * 2 ^ n).
  { rewrite <- Z.pow_add_r by lia. f_equal. unfold n. lia. }
  rewrite Hsplit in HB.
  assert (Hlow : lo * 2 ^ (- f - k) <= m1).
  { assert (lo * 2 ^ (- f - k) <= M / 2 ^ n) by (apply Z.div_le_lower_bound; nia). lia. }
  assert (Hupp : m1 <= hi * 2 ^ (- f - k)).
  { destruct (Z.eq_dec (M mod 2 ^ n) 0) as [Hmod|Hmod].
    - rewrite (Hex eq_refl Hmod). apply Z.div_le_upper_bound; nia.
    - assert (M <> hi * 2 ^ (- f - k) * 2 ^ n).
      { intros Heq. apply Hmod. rewrite Heq. apply Z.mod_mul. lia. }
      assert (M / 2 ^ n < hi * 2 ^ (- f - k)) by (apply Z.div_lt_upper_bound; nia).
      lia. }
  clearbody n. clearbody f.
  destruct Hr as [Hz|Hm Hc|Hc].
  - split; [reflexivity|]. nia.
  - replace (f <=? 971) with true by (symmetry; apply Z.leb_le; lia).
    split; [reflexivity|]. split; [exact Hf0|].
    rewrite Z2Pos.id by lia. lia.
  - assert (Hf1 : f + 1 <= - k).
    { destruct (Z.eq_dec f (- k)) as [Ef|]; [|lia].
      rewrite Ef in Hupp. replace (- - k - k) with 0 in Hupp by lia.
      simpl in Hupp.
      assert (2 ^ 52 < 2 ^ 53) by reflexivity. lia. }
    replace (f + 1 <=? 971) with true by (symmetry; apply Z.leb_le; lia).
    split; [reflexivity|]. split; [exact Hf1|].
    rewrite Z2Pos.id by reflexivity.
    assert (H2 : 2 ^ (- f - k) = 2 * 2 ^ (- (f + 1) - k)).
    { rewrite <- Z.pow_succ_r by lia. f_equal. lia. }
    assert (H53 : 2 ^ 53 = 2 * 2 ^ 52) by reflexivity.
    rewrite H2 in Hlow, Hupp. lia.
Qed.

Lemma binary_round_enclosed_at :
  forall k s m E lo hi,
    0 <= k <= 1074 ->
    E <= - k -> 0 <= lo -> hi <= 2 ^ 52 ->
    lo * 2 ^ (- E - k) <= Z.pos m <= hi * 2 ^ (- E - k) ->
    match binary_round 53 1024 s m E with
    | S754_zero s' => s' = s /\ lo = 0
    | S754_finite s' m' e =>
        s' = s /\ e <= - k /\ lo * 2 ^ (- e - k) <= Z.pos m' <= hi * 2 ^ (- e - k)
    | _ => False
    end.
Proof.
  intros k s m E lo hi Hk HE Hlo Hhi HB. unfold binary_round. rewrite fexp_fexp64.
  destruct (shl_align_spec m E (fexp64 (Z.pos (digits2_pos m) + E)))
    as (mz & ez & -> & Hez & Hmz & Hdig).
  apply binary_round_aux_enclosed_at; try lia.
  - simpl Zdigits2. rewrite Hdig. lia.
  - rewrite Hmz.
    assert (Hp : 0 < 2 ^ (E - ez)) by (apply pow2_pos; lia).
    assert (Hs : 2 ^ (- ez - k) = 2 ^ (- E - k) * 2 ^ (E - ez)).
    { rewrite <- Z.pow_add_r by lia. f_equal. lia. }
    rewrite Hs. nia.
Qed.

Lemma binary_normalize_enclosed_at :
  forall k M E lo hi,
    0 <= k <= 1074 ->
    E <= - k -> - 2 ^ 52 <= lo -> hi <= 2 ^ 52 ->
    lo * 2 ^ (- E - k) <= M <= hi * 2 ^ (- E - k) ->
    enclosed_at k lo hi (binary_normalize 53 1024 M E false).
Proof.
  intros k M E lo hi Hk HE Hlo Hhi HB.
  assert (Hp : 0 < 2 ^ (- E - k)) by (apply pow2_pos; lia).
  destruct M as [|m|m]; cbn [binary_normalize].
  - simpl. nia.
  - pose proof (binary_round_enclosed_at k false m E (Z.max lo 0) hi Hk HE
                  ltac:(lia) Hhi) as H.
    assert (HB' : Z.max lo 0 * 2 ^ (- E - k) <= Z.pos m <= hi * 2 ^ (- E - k)) by nia.
    specialize (H HB').
    destruct (binary_round 53 1024 false m E) as [s'|s'| |s' m' e]; try contradiction.
    + simpl. destruct H as [_ H]. nia.
    + destruct H as (-> & He & H1 & H2). simpl. split; [exact He|].
      assert (0 < 2 ^ (- e - k)) by (apply pow2_pos; lia). nia.
  - pose proof (binary_round_enclosed_at k true m E (Z.max (- hi) 0) (- lo) Hk HE
                  ltac:(lia) ltac:(lia)) as H.
    assert (HB' : Z.max (- hi) 0 * 2 ^ (- E - k) <= Z.pos m <= - lo * 2 ^ (- E - k))
      by nia.
    specialize (H HB').
    destruct (binary_round 53 1024 true m E) as [s'|s'| |s' m' e]; try contradiction.
    + simpl. destruct H as [_ H]. nia.
    + destruct H as (-> & He & H1 & H2). simpl. split; [exact He|].
      assert (0 < 2 ^ (- e - k)) by (apply pow2_pos; lia). nia.
Qed.

Lemma enclosed_at_weaken :
  forall k lo hi lo' hi' x,
    enclosed_at k lo hi x -> lo' <= lo -> hi <= hi' -> enclosed_at k lo' hi' x.
Proof.
  intros k lo hi lo' hi' [s|s| |s m e] H Hlo Hhi; simpl in *; try lia.
  destruct H as (He & H1 & H2). split; [exact He|].
  assert (0 < 2 ^ (- e - k)) by (apply pow2_pos; lia). nia.
Qed.

Lemma SFadd_enclosed_at :
  forall k x y xl xh yl yh,
    0 <= k <= 1074 ->
    enclosed_at k xl xh x -> enclosed_at k yl yh y ->
    - 2 ^ 52 <= xl + yl -> xh + yh <= 2 ^ 52 ->
    enclosed_at k (xl + yl) (xh + yh) (SFadd 53 1024 x y).
Proof.
  intros k [sx|sx| |sx mx ex] [sy|sy| |sy my ey] xl xh yl yh Hk Hx Hy Hlo Hhi;
    simpl in Hx, Hy; try contradiction.
  - assert (enclosed_at k (xl + yl) (xh + yh) (S754_zero false)) by (simpl; lia).
    destruct sx, sy; simpl; lia.
  - cbn [SFadd]. apply (enclosed_at_weaken k yl yh); [exact Hy|lia|lia].
  - cbn [SFadd]. apply (enclosed_at_weaken k xl xh); [exact Hx|lia|lia].
  - cbn [SFadd].
    destruct Hx as (Hex & Hx). destruct Hy as (Hey & Hy).
    set (ez := Z.min ex ey).
    destruct (shl_align_spec mx ex ez) as (mx' & ex' & Ex & Eex & Emx & _).
    destruct (shl_align_spec my ey ez) as (my' & ey' & Ey & Eey & Emy & _).
    rewrite Ex, Ey. cbn [fst].
    replace ex' with ez in Emx by (unfold ez in *; lia).
    replace ey' with ez in Emy by (unfold ez in *; lia).
    rewrite Emx, Emy, !cond_Zopp_mul.
    assert (Hpx : 0 < 2 ^ (ex - ez)) by (apply pow2_pos; unfold ez; lia).
    assert (Hpy : 0 < 2 ^ (ey - ez)) by (apply pow2_pos; unfold ez; lia).
    assert (Hsx : 2 ^ (- ez - k) = 2 ^ (- ex - k) * 2 ^ (ex - ez)).
    { rewrite <- Z.pow_add_r by (unfold ez; lia). f_equal. lia. }
    assert (Hsy : 2 ^ (- ez - k) = 2 ^ (- ey - k) * 2 ^ (ey - ez)).
    { rewrite <- Z.pow_add_r by (unfold ez; lia). f_equal. lia. }
    apply binary_normalize_enclosed_at; [exact Hk|unfold ez; lia|exact Hlo|exact Hhi|].
    assert (xl * 2 ^ (- ez - k) <= cond_Zopp sx (Z.pos mx) * 2 ^ (ex - ez)
              <= xh * 2 ^ (- ez - k))
      by (rewrite Hsx; nia).
    assert (yl * 2 ^ (- ez - k) <= cond_Zopp sy (Z.pos my) * 2 ^ (ey - ez)
              <= yh * 2 ^ (- ez - k))
      by (rewrite Hsy; nia).
    lia.
Qed.

(** Interval arithmetic for the rounded product of two numbers that are
    not negative. *)
Lemma SFmul_enclosed_at :
  forall kx ky x y xl xh yl yh,
    0 <= kx -> 0 <= ky -> kx + ky <= 1074 ->
    valid64 x -> valid64 y ->
    enclosed_at kx xl xh x -> enclosed_at ky yl yh y ->
    0 <= xl -> 0 <= yl -> xh * yh <= 2 ^ 52 ->
    enclosed_at (kx + ky) (xl * yl) (xh * yh) (SFmul 53 1024 x y).
Proof.
  intros kx ky [sx|sx| |sx mx ex] [sy|sy| |sy my ey] xl xh yl yh
         Hkx Hky Hk Hvx Hvy Hx Hy Hxl Hyl Hhi;
    simpl in Hx, Hy; try contradiction.
  - simpl. nia.
  - simpl. destruct Hy as (Hey & Hy).
    assert (0 < 2 ^ (- ey - ky)) by (apply pow2_pos; lia).
    assert (0 <= yl * 2 ^ (- ey - ky)) by (apply Z.mul_nonneg_nonneg; lia).
    assert (0 <= yh) by nia.
    assert (xl = 0) by lia. subst xl. nia.
  - simpl. destruct Hx as (Hex & Hx).
    assert (0 < 2 ^ (- ex - kx)) by (apply pow2_pos; lia).
    assert (0 <= xl * 2 ^ (- ex - kx)) by (apply Z.mul_nonneg_nonneg; lia).
    assert (0 <= xh) by nia.
    assert (yl = 0) by lia. subst yl. nia.
  - destruct Hx as (Hex & Hx). destruct Hy as (Hey & Hy).
    assert (Hpx : 0 < 2 ^ (- ex - kx)) by (apply pow2_pos; lia).
    assert (Hpy : 0 < 2 ^ (- ey - ky)) by (apply pow2_pos; lia).
    assert (sx = false) by (destruct sx; [cbn [cond_Zopp] in Hx; nia|reflexivity]).
    assert (sy = false) by (destruct sy; [cbn [cond_Zopp] in Hy; nia|reflexivity]).
    subst sx sy. cbn [cond_Zopp] in Hx, Hy. cbn [SFmul xorb].
    apply valid_finite_digits in Hvx as (Hvex & Hdx & Hnx).
    apply valid_finite_digits in Hvy as (Hvey & Hdy & Hny).
    pose proof (digits2_pos_bounds mx) as [Hxlo _].
    pose proof (digits2_pos_bounds my) as [Hylo _].
    assert (HD : Z.pos (digits2_pos mx) + Z.pos (digits2_pos my) - 1
                 <= Zdigits2 (Z.pos (mx * my))).
    { apply Zdigits2_lower; [lia|].
      replace (Z.pos (digits2_pos mx) + Z.pos (digits2_pos my) - 1 - 1)
        with ((Z.pos (digits2_pos mx) - 1) + (Z.pos (digits2_pos my) - 1)) by lia.
      rewrite Z.pow_add_r by lia. rewrite Pos2Z.inj_mul.
      assert (0 < 2 ^ (Z.pos (digits2_pos mx) - 1)) by (apply pow2_pos; lia).
      assert (0 < 2 ^ (Z.pos (digits2_pos my) - 1)) by (apply pow2_pos; lia).
      nia. }
    assert (HE : ex + ey <= fexp64 (Zdigits2 (Z.pos (mx * my)) + (ex + ey)))
      by (unfold fexp64; lia).
    assert (Hs : 2 ^ (- (ex + ey) - (kx + ky)) = 2 ^ (- ex - kx) * 2 ^ (- ey - ky)).
    { rewrite <- Z.pow_add_r by lia. f_equal. lia. }
    pose proof (binary_round_aux_enclosed_at (kx + ky) false (Z.pos (mx * my)) (ex + ey)
                  (xl * yl) (xh * yh) ltac:(lia) ltac:(lia) ltac:(lia) HE
                  ltac:(nia) Hhi) as H.
    assert (HB : xl * yl * 2 ^ (- (ex + ey) - (kx + ky)) <= Z.pos (mx * my)
                 <= xh * yh * 2 ^ (- (ex + ey) - (kx + ky))).
    { rewrite Hs, Pos2Z.inj_mul. nia. }
    specialize (H HB).
    destruct (binary_round_aux 53 1024 false (Z.pos (mx * my)) (ex + ey) loc_Exact)
      as [s'|s'| |s' m' e]; try contradiction.
    + simpl. destruct H as [_ H]. rewrite H.
      assert (0 <= xh * yh) by nia. lia.
    + destruct H as (-> & He & H1 & H2). simpl. split; [exact He|]. lia.
Qed.

(** An integer of at most 52 bits is converted exactly. *)
Lemma of_int_enclosed_at :
  forall n, - 2 ^ 52 <= n <= 2 ^ 52 -> enclosed_at 0 n n (Fp.of_int n).
Proof.
  intros n Hn. unfold Fp.of_int.
  apply binary_normalize_enclosed_at; lia.
Qed.

(** The truncation of a number that is not negative. *)
Lemma trunc_enclosed_at :
  forall k lo hi x,
    0 <= k -> 0 <= lo -> enclosed_at k lo hi x ->
    exists z, Fp.trunc x = Some z /\ lo / 2 ^ k <= z <= hi / 2 ^ k.
Proof.
  intros k lo hi [s|s| |s m e] Hk Hlo Hx; simpl in Hx; try contradiction.
  - exists 0. split; [reflexivity|].
    assert (0 < 2 ^ k) by (apply pow2_pos; lia).
    split; [apply Z.div_le_upper_bound; lia|apply Z.div_le_lower_bound; lia].
  - destruct Hx as (He & Hx).
    assert (Hp : 0 < 2 ^ (- e - k)) by (apply pow2_pos; lia).
    assert (Hpk : 0 < 2 ^ k) by (apply pow2_pos; lia).
    assert (Hpe : 0 < 2 ^ (- e)) by (apply pow2_pos; lia).
    assert (s = false) by (destruct s; [cbn [cond_Zopp] in Hx; nia|reflexivity]).
    subst s. cbn [cond_Zopp] in Hx.
    exists (Z.pos m / 2 ^ (- e)). split.
    + cbn [Fp.trunc cond_Zopp]. rewrite Z.shiftl_div_pow2 by lia. reflexivity.
    + assert (Hs : 2 ^ (- e) = 2 ^ k * 2 ^ (- e - k)).
      { rewrite <- Z.pow_add_r by lia. f_equal. lia. }
      pose proof (Z.mul_div_le lo (2 ^ k) Hpk) as Hq.
      pose proof (Z.mul_div_le (Z.pos m) (2 ^ (- e)) Hpe) as Hz.
      set (P := 2 ^ (- e - k)) in *. set (q := lo / 2 ^ k) in *.
      set (z := Z.pos m / 2 ^ (- e)) in *.
      split.
      * apply Z.div_le_lower_bound; [lia|]. rewrite Hs.
        assert (2 ^ k * q * P <= lo * P) by (apply Z.mul_le_mono_nonneg_r; lia).
        replace (2 ^ k * P * q) with (2 ^ k * q * P) by ring. lia.
      * apply Z.div_le_lower_bound; [lia|]. rewrite Hs in Hz.
        apply (Z.mul_le_mono_pos_r _ _ P); [lia|].
        replace (2 ^ k * z * P) with (2 ^ k * P * z) by ring. lia.
Qed.

(** The three weights, scaled by [2 ^ 40], lie between consecutive
    integers that enclose 21, 72 and 7 hundredths of [2 ^ 40]. *)
Lemma grayscale_weights_enclosed :
  enclosed_at 40 230897441832 230897441833 Fp.d0_21 /\
  enclosed_at 40 791648371998 791648371999 Fp.d0_72 /\
  enclosed_at 40 76965813944 76965813945 Fp.d0_07.
Proof. repeat split; vm_compute; intros; discriminate. Qed.

(** ** Grayscale in integer terms *)

(** X1.  On every triple of bytes [RGBToGrayscale] returns the integer part
    of the weighted mean [(21 r + 72 g + 7 b) / 100], or one less than the
    mean when the mean is an integer; it never leaves the range of
    [uint8_t]. *)
Theorem RGBToGrayscale_floor_of_mean :
  forall r g b,
    0 <= r <= 255 -> 0 <= g <= 255 -> 0 <= b <= 255 ->
    exists v,
      RGBToGrayscale (r, g, b) = Ok v /\
      0 <= v <= 255 /\
      (v = (21 * r + 72 * g + 7 * b) / 100 \/
       (21 * r + 72 * g + 7 * b) mod 100 = 0 /\
       v = (21 * r + 72 * g + 7 * b) / 100 - 1).
Proof.
  intros r g b Hr Hg Hb.
  destruct grayscale_weights_enclosed as (H21 & H72 & H07).
  assert (E52 : 2 ^ 52 = 4503599627370496) by reflexivity.
  assert (E40 : 2 ^ 40 = 1099511627776) by reflexivity.
  assert (Hmul : forall n c A, 0 <= n <= 255 -> valid64 c ->
            enclosed_at 40 A (A + 1) c -> 0 <= A <= 2 ^ 40 ->
            enclosed_at 40 (n * A) (n * (A + 1)) (Fp.mul (Fp.of_int n) c)).
  { intros n c A Hn Hc HA HA'.
    exact (SFmul_enclosed_at 0 40 (Fp.of_int n) c n n A (A + 1)
             ltac:(lia) ltac:(lia) ltac:(lia) (of_int_valid n) Hc
             (of_int_enclosed_at n ltac:(lia)) HA ltac:(lia) ltac:(lia) ltac:(nia)). }
  pose proof (Hmul r _ _ Hr (eq_refl : valid64 Fp.d0_21) H21 ltac:(lia)) as P1.
  pose proof (Hmul g _ _ Hg (eq_refl : valid64 Fp.d0_72) H72 ltac:(lia)) as P2.
  pose proof (Hmul b _ _ Hb (eq_refl : valid64 Fp.d0_07) H07 ltac:(lia)) as P3.
  pose proof (SFadd_enclosed_at 40 _ _ _ _ _ _ ltac:(lia) P1 P2 ltac:(lia) ltac:(lia))
    as S1.
  pose proof (SFadd_enclosed_at 40 _ _ _ _ _ _ ltac:(lia) S1 P3 ltac:(lia) ltac:(lia))
    as S2.
  apply trunc_enclosed_at in S2 as (z & Hz & Hlo & Hhi); [|lia|lia].
  rewrite E40 in Hlo, Hhi.
  assert (Hz0 : 0 <= z <= 255 /\
          (z = (21 * r + 72 * g + 7 * b) / 100 \/
           (21 * r + 72 * g + 7 * b) mod 100 = 0 /\
           z = (21 * r + 72 * g + 7 * b) / 100 - 1)).
  { clear - Hr Hg Hb Hlo Hhi.
    set (lo := r * 230897441832 + g * 791648371998 + b * 76965813944) in *.
    set (hi := r * (230897441832 + 1) + g * (791648371998 + 1) + b * (76965813944 + 1)) in *.
    assert (lo < (z + 1) * 1099511627776).
    { pose proof (Z.mul_succ_div_gt lo 1099511627776 ltac:(lia)). lia. }
    assert (z * 1099511627776 <= hi).
    { pose proof (Z.mul_div_le hi 1099511627776 ltac:(lia)). lia. }
    assert (0 <= z).
    { pose proof (Z.div_pos lo 1099511627776 ltac:(unfold lo; lia) ltac:(lia)). lia. }
    pose proof (Z.div_mod (21 * r + 72 * g + 7 * b) 100 ltac:(lia)) as Hdm.
    pose proof (Z.mod_pos_bound (21 * r + 72 * g + 7 * b) 100 ltac:(lia)) as Hmb.
    set (q := (21 * r + 72 * g + 7 * b) / 100) in *.
    set (rho := (21 * r + 72 * g + 7 * b) mod 100) in *.
    unfold lo, hi in *. clear lo hi Hlo Hhi.
    lia. }
  destruct Hz0 as (Hbyte & Hval).
  exists z. split; [|split; [exact Hbyte|exact Hval]].
  unfold RGBToGrayscale, assert, in_byte.
  replace ((0 <=? r) && (r <=? 255)) with true by (symmetry; apply andb_true_iff; lia).
  replace ((0 <=? g) && (g <=? 255)) with true by (symmetry; apply andb_true_iff; lia).
  replace ((0 <=? b) && (b <=? 255)) with true by (symmetry; apply andb_true_iff; lia).
  cbn [bind]. unfold Fp.to_uint8, Fp.add, Fp.mul.
  unfold Fp.mul in Hz. rewrite Hz.
  replace ((0 <=? z) && (z <=? 255)) with true by (symmetry; apply andb_true_iff; lia).
  reflexivity.
Qed.

Lemma RGBToGrayscale_floor_of_mean_witness :
  0 <= 252 <= 255 /\ 0 <= 252 <= 255 /\ 0 <= 84 <= 255 /\
  exists v,
    RGBToGrayscale (252, 252, 84) = Ok v /\
    0 <= v <= 255 /\
    (v = (21 * 252 + 72 * 252 + 7 * 84) / 100 \/
     (21 * 252 + 72 * 252 + 7 * 84) mod 100 = 0 /\
     v = (21 * 252 + 72 * 252 + 7 * 84) / 100 - 1).
Proof.
  split; [lia|]. split; [lia|]. split; [lia|].
  apply (RGBToGrayscale_floor_of_mean 252 252 84); lia.
Defined.

(** ** The palette *)

Lemma Z_below_all :
  forall (f : Z -> bool) (n : nat),
    forallb f (Z_below n) = true -> forall k, 0 <= k < Z.of_nat n -> f k = true.
Proof.
  intros f n H k Hk. rewrite forallb_forall in H. apply H.
  apply Z_below_In. exact Hk.
Qed.
Lemma decodes_palette : forallb decodes (Z_below 256) = true.
Proof. vm_compute. reflexivity. Qed.

(** X2.  [PixelToRGB] undoes the packing of the palette: for every code
    the three components are bytes and [r * 65536 + g * 256 + b] is the
    entry of [ntsc_to_rgb] again; an odd code decodes to black. *)
Theorem PixelToRGB_decodes :
  forall pixel,
    0 <= pixel <= 255 ->
    exists rgb r g b,
      read ntsc_to_rgb pixel = Ok rgb /\
      PixelToRGB pixel = Ok (r, g, b) /\
      0 <= r <= 255 /\ 0 <= g <= 255 /\ 0 <= b <= 255 /\
      rgb = r * 65536 + g * 256 + b /\
      (Z.odd pixel = true -> (r, g, b) = (0, 0, 0)).
Proof.
  intros pixel Hp.
  pose proof (Z_below_all _ _ decodes_palette pixel ltac:(lia)) as H.
  unfold decodes in H.
  destruct (read ntsc_to_rgb pixel) as [rgb| |]; try discriminate.
  destruct (PixelToRGB pixel) as [[[r g] b]| |]; try discriminate.
  unfold in_byte in H.
  repeat (apply andb_true_iff in H as [H ?]).
  exists rgb, r, g, b. repeat split; try reflexivity; try lia.
  intros Hodd. rewrite Hodd in *. f_equal; [f_equal|]; lia.
Qed.

Lemma PixelToRGB_decodes_witness :
  0 <= 30 <= 255 /\
  exists rgb r g b,
    read ntsc_to_rgb 30 = Ok rgb /\
    PixelToRGB 30 = Ok (r, g, b) /\
    0 <= r <= 255 /\ 0 <= g <= 255 /\ 0 <= b <= 255 /\
    rgb = r * 65536 + g * 256 + b /\
    (Z.odd 30 = true -> (r, g, b) = (0, 0, 0)).
Proof. split; [lia|]. apply (PixelToRGB_decodes 30). lia. Defined.

(** ** The range and the shape of a frame *)

(** What every visit keeps, the two loops over the pixels of a cell keep. *)
Lemma for_covered_pixels_invariant :
  forall (A : Type) (P : A -> Prop) xr yr sx sy i j
         (visit : Z -> Z -> Fp.double -> Fp.double -> A -> result A) (acc r : A),
    P acc ->
    (forall x y xw yw a a', P a -> visit x y xw yw a = Ok a' -> P a') ->
    for_covered_pixels xr yr sx sy i j visit acc = Ok r -> P r.
Proof.
  intros A P xr yr sx sy i j visit acc r Hacc Hvisit H.
  unfold for_covered_pixels in H.
  apply bind_Ok in H as ([fx lx] & _ & H).
  apply bind_Ok in H as ([fy ly] & _ & H).
  unfold for_upto in H.
  apply (loop_invariant _ (fun _ a => P a) _ _ _ _ _ Hacc) with (2 := H).
  intros x a a' _ Ha Hbody.
  apply bind_Ok in Hbody as (_ & _ & Hbody).
  apply (loop_invariant _ (fun _ a => P a) _ _ _ _ _ Ha) with (2 := Hbody).
  intros y b b' _ Hb Hb'.
  apply bind_Ok in Hb' as (_ & _ & Hb').
  eapply Hvisit; eassumption.
Qed.

Lemma to_uint8_Ok :
  forall x v, Fp.to_uint8 x = Ok v -> Fp.trunc x = Some v /\ 0 <= v <= 255.
Proof.
  intros x v H. unfold Fp.to_uint8 in H.
  destruct (Fp.trunc x) as [z|]; [|discriminate].
  destruct ((0 <=? z) && (z <=? 255)) eqn:E; [|discriminate].
  injection H as <-. apply andb_true_iff in E. split; [reflexivity|lia].
Qed.

Lemma resample_cell_in_byte :
  forall raw_screen g i j v,
    resample_cell raw_screen g i j = Ok v -> 0 <= v <= 255.
Proof.
  intros raw_screen g i j v H. unfold resample_cell in H.
  apply (for_covered_pixels_invariant _ (fun c => 0 <= c <= 255)) in H.
  - exact H.
  - lia.
  - intros x y xw yw a a' _ Hacc. unfold accumulate_color in Hacc.
    apply bind_Ok in Hacc as (idx & _ & Hacc).
    apply bind_Ok in Hacc as (pixel & _ & Hacc).
    apply bind_Ok in Hacc as (gray & _ & Hacc).
    apply to_uint8_Ok in Hacc. tauto.
Qed.

(** Every position of a frame is a cell [(i, j)]. *)
Lemma cell_index_split :
  forall S k, 0 < S -> 0 <= k < S * S ->
    0 <= k / S < S /\ 0 <= k mod S < S /\ k = (k / S) * S + k mod S.
Proof.
  intros S k HS Hk.
  pose proof (Z.mod_pos_bound k S HS).
  pose proof (Z.div_mod k S ltac:(lia)).
  split; [|split; [assumption|lia]].
  split; [apply Z.div_pos; lia|]. apply Z.div_lt_upper_bound; lia.
Qed.

(** What holds of every cell value holds of every entry of the frame. *)
Lemma PreprocessScreen_cells_nth :
  forall (S : Z) (raw_screen : ALEScreen) (frame : list Z) (P : Z -> Prop),
    0 <= S ->
    PreprocessScreen S raw_screen = Ok frame ->
    (forall g i j v, resample_cell raw_screen g i j = Ok v -> P v) ->
    Forall P frame.
Proof.
  intros S raw_screen frame P HS0 H HP.
  apply PreprocessScreen_cells in H as (_ & Hlen & g & _ & Hcells).
  apply Forall_forall. intros v Hin.
  apply (In_nth _ _ 0) in Hin as (n & Hn & <-).
  assert (HS : 0 < S) by nia.
  destruct (cell_index_split S (Z.of_nat n) HS ltac:(lia)) as (Hi & Hj & E).
  specialize (Hcells _ _ Hi Hj). rewrite <- E, Nat2Z.id in Hcells.
  eapply HP. exact Hcells.
Qed.

(** X3.  A frame that [PreprocessScreen] returns has
    [kCroppedFrameSize * kCroppedFrameSize] cells, each an intensity between
    0 and 255. *)
Theorem PreprocessScreen_frame_of_bytes :
  forall (S : Z) (raw_screen : ALEScreen) (frame : list Z),
    0 <= S ->
    PreprocessScreen S raw_screen = Ok frame ->
    Z.of_nat (length frame) = S * S /\
    Forall (fun v => 0 <= v <= 255) frame.
Proof.
  intros S raw_screen frame HS H. split.
  - apply PreprocessScreen_cells in H as (_ & Hlen & _). nia.
  - apply (PreprocessScreen_cells_nth S raw_screen frame _ HS H).
    intros g i j v. apply resample_cell_in_byte.
Qed.

Lemma small_frame_run : PreprocessScreen 4 small_screen = Ok small_frame.
Proof. vm_compute. reflexivity. Qed.

Lemma PreprocessScreen_frame_of_bytes_witness :
  0 <= 4 /\
  PreprocessScreen 4 small_screen = Ok small_frame /\
  Z.of_nat (length small_frame) = 4 * 4 /\
  Forall (fun v => 0 <= v <= 255) small_frame.
Proof.
  split; [lia|]. split; [exact small_frame_run|].
  apply (PreprocessScreen_frame_of_bytes 4 small_screen small_frame);
    [lia|exact small_frame_run].
Defined.

(** ** A black screen *)

Lemma accumulate_color_black :
  forall raw_pixels W xr yr x y xw yw v,
    Forall (fun p => PixelToGrayscale p = Ok 0) raw_pixels ->
    accumulate_color raw_pixels W xr yr x y xw yw 0 = Ok v -> v = 0.
Proof.
  intros raw_pixels W xr yr x y xw yw v Hblack H. unfold accumulate_color in H.
  apply bind_Ok in H as (idx & _ & H).
  apply bind_Ok in H as (pixel & Hread & H).
  apply read_Ok in Hread as [_ Hnth]. apply nth_error_In in Hnth.
  rewrite Forall_forall in Hblack. rewrite (Hblack _ Hnth) in H. cbn [bind] in H.
  apply to_uint8_Ok in H as [H _].
  destruct (pixel_weight xr yr xw yw) as [s|s| |s m e]; vm_compute in H;
    try discriminate; try (destruct s; vm_compute in H); congruence.
Qed.

(** X4.  A screen whose pixels all have intensity 0 gives, when
    [PreprocessScreen] returns a frame, the frame of zeros. *)
Theorem PreprocessScreen_black_screen :
  forall (S : Z) (raw_screen : ALEScreen) (frame : list Z),
    0 <= S ->
    Forall (fun p => PixelToGrayscale p = Ok 0) (getArray raw_screen) ->
    PreprocessScreen S raw_screen = Ok frame ->
    frame = repeat 0 (Z.to_nat (S * S)).
Proof.
  intros S raw_screen frame HS Hblack H.
  assert (Hall : Forall (fun v => v = 0) frame).
  { apply (PreprocessScreen_cells_nth S raw_screen frame _ HS H).
    intros g i j v Hv. unfold resample_cell in Hv.
    apply (for_covered_pixels_invariant _ (fun c => c = 0)) in Hv;
      [exact Hv|reflexivity|].
    intros x y xw yw a a' -> Ha. eapply accumulate_color_black; eassumption. }
  apply PreprocessScreen_cells in H as (_ & Hlen & _). rewrite <- Hlen.
  clear - Hall. induction Hall as [|v l -> _ IH]; [reflexivity|].
  cbn [length repeat]. f_equal. exact IH.
Qed.
Lemma uniform_screen_colour :
  forall (P : Z -> Prop) w h code, P code -> Forall P (getArray (uniform_screen w h code)).
Proof.
  intros P w h code H. apply Forall_forall. intros p Hp.
  apply repeat_spec in Hp. subst p. exact H.
Qed.

Lemma PreprocessScreen_black_screen_witness :
  0 <= 4 /\
  Forall (fun p => PixelToGrayscale p = Ok 0) (getArray (uniform_screen 12 30 0)) /\
  PreprocessScreen 4 (uniform_screen 12 30 0) = Ok (repeat 0 16) /\
  repeat 0 16 = repeat 0 (Z.to_nat (4 * 4)).
Proof.
  assert (H : PreprocessScreen 4 (uniform_screen 12 30 0) = Ok (repeat 0 16))
    by (vm_compute; reflexivity).
  assert (Hb : Forall (fun p => PixelToGrayscale p = Ok 0)
                      (getArray (uniform_screen 12 30 0)))
    by (apply uniform_screen_colour; vm_compute; reflexivity).
  split; [lia|]. split; [exact Hb|]. split; [exact H|].
  apply (PreprocessScreen_black_screen 4 (uniform_screen 12 30 0) (repeat 0 16));
    [lia|exact Hb|exact H].
Defined.

(** ** The assertions that can stop [PreprocessScreen] *)

Lemma bind_AssertFailed :
  forall (A B : Type) (r : result A) (k : A -> result B) (w : assertion),
    bind r k = AssertFailed w ->
    r = AssertFailed w \/ exists a, r = Ok a /\ k a = AssertFailed w.
Proof.
  intros A B [a|w'|u] k w H; simpl in H.
  - right. exists a. split; [reflexivity|exact H].
  - left. injection H as ->. reflexivity.
  - discriminate.
Qed.

Lemma loop_AssertFailed :
  forall (A : Type) (body : Z -> A -> result A) (w : assertion) (n : nat) (k : Z) (acc : A),
    loop n k body acc = AssertFailed w ->
    exists k' a, body k' a = AssertFailed w.
Proof.
  intros A body w n. induction n as [|n IH]; intros k acc H.
  - discriminate.
  - cbn [loop] in H. apply bind_AssertFailed in H as [H|(a & _ & H)].
    + exists k, acc. exact H.
    + eapply IH. exact H.
Qed.

Lemma to_uint8_no_assert : forall x w, Fp.to_uint8 x <> AssertFailed w.
Proof.
  intros x w. unfold Fp.to_uint8.
  destruct (Fp.trunc x) as [z|]; [destruct ((0 <=? z) && (z <=? 255))|]; discriminate.
Qed.

Lemma to_int_no_assert : forall x w, Fp.to_int x <> AssertFailed w.
Proof.
  intros x w. unfold Fp.to_int.
  destruct (Fp.trunc x) as [z|]; [destruct (fits_int z)|]; discriminate.
Qed.

Lemma read_no_assert :
  forall (A : Type) (a : list A) (i : Z) (w : assertion), read a i <> AssertFailed w.
Proof.
  intros A a i w. unfold read.
  destruct (i <? 0); [|destruct (nth_error a (Z.to_nat i))]; discriminate.
Qed.

Lemma accumulate_color_no_assert :
  forall raw_pixels W xr yr x y xw yw c w,
    Forall (fun p => 0 <= p <= 255) raw_pixels ->
    accumulate_color raw_pixels W xr yr x y xw yw c <> AssertFailed w.
Proof.
  intros raw_pixels W xr yr x y xw yw c w Hbytes H. unfold accumulate_color in H.
  apply bind_AssertFailed in H as [H|(idx & _ & H)].
  { unfold int_arith in H. destruct (fits_int _); discriminate. }
  apply bind_AssertFailed in H as [H|(pixel & Hread & H)].
  { exact (read_no_assert _ _ _ _ H). }
  apply read_Ok in Hread as [_ Hnth]. apply nth_error_In in Hnth.
  rewrite Forall_forall in Hbytes.
  destruct (PixelToGrayscale_defined pixel (Hbytes _ Hnth)) as (v & Hv & _).
  rewrite Hv in H. cbn [bind] in H. exact (to_uint8_no_assert _ _ H).
Qed.

Lemma floor_to_int_no_assert : forall x w, Fp.floor_to_int x <> AssertFailed w.
Proof.
  intros x w. unfold Fp.floor_to_int.
  destruct (Fp.floor x) as [z|]; [destruct (fits_int z)|]; discriminate.
Qed.

Lemma cell_bounds_no_assert :
  forall ratio start k w, cell_bounds ratio start k <> AssertFailed w.
Proof.
  intros ratio start k w H. unfold cell_bounds in H.
  apply bind_AssertFailed in H as [H|(lo & _ & H)];
    [exact (floor_to_int_no_assert _ _ H)|].
  apply bind_AssertFailed in H as [H|(hi & _ & H)];
    [exact (floor_to_int_no_assert _ _ H)|discriminate].
Qed.

Lemma crop_geometry_no_assert :
  forall S W H w, crop_geometry S W H <> AssertFailed w.
Proof.
  intros S W H w E. unfold crop_geometry in E.
  apply bind_AssertFailed in E as [E|(c & _ & E)]; [exact (to_int_no_assert _ _ E)|].
  apply bind_AssertFailed in E as [E|(sy & _ & E)]; [exact (to_int_no_assert _ _ E)|].
  discriminate.
Qed.

Lemma for_covered_pixels_AssertFailed :
  forall (A : Type) xr yr sx sy i j
         (visit : Z -> Z -> Fp.double -> Fp.double -> A -> result A) (acc : A) w,
    valid64 xr -> valid64 yr -> fits_int sx = true -> fits_int sy = true ->
    for_covered_pixels xr yr sx sy i j visit acc = AssertFailed w ->
    exists x y xw yw a, visit x y xw yw a = AssertFailed w.
Proof.
  intros A xr yr sx sy i j visit acc w Hxr Hyr Hsx Hsy H.
  unfold for_covered_pixels in H.
  apply bind_AssertFailed in H as [H|([fx lx] & Hxs & H)];
    [destruct (cell_bounds_no_assert _ _ _ _ H)|].
  apply bind_AssertFailed in H as [H|([fy ly] & Hys & H)];
    [destruct (cell_bounds_no_assert _ _ _ _ H)|].
  unfold for_upto in H. apply loop_AssertFailed in H as (x & a & H).
  rewrite (ratio_in_resulting_pixel_in_range xr sx j fx lx x Hxr Hsx Hxs) in H.
  cbn [assert bind] in H. apply loop_AssertFailed in H as (y & b & H).
  rewrite (ratio_in_resulting_pixel_in_range yr sy i fy ly y Hyr Hsy Hys) in H.
  cbn [assert bind] in H. eauto 6.
Qed.

(** X5.  On a screen of palette codes the only assertion that can stop
    [PreprocessScreen] is the first: it fails exactly when the screen is
    not higher than wide; neither the assertions of [RGBToGrayscale] nor
    those on the weights ever fail. *)
Theorem PreprocessScreen_only_assertion :
  forall (S : Z) (raw_screen : ALEScreen) (w : assertion),
    Forall (fun p => 0 <= p <= 255) (getArray raw_screen) ->
    (PreprocessScreen S raw_screen = AssertFailed w <->
     w = HeightAboveWidth /\ height raw_screen <= width raw_screen).
Proof.
  intros S raw_screen w Hbytes. split.
  - intros H. unfold PreprocessScreen, assert in H.
    destruct (Z.ltb_spec (width raw_screen) (height raw_screen)) as [Hwh|Hwh].
    + exfalso. cbn [bind] in H.
      apply bind_AssertFailed in H as [H|(g & Hg & H)];
        [exact (crop_geometry_no_assert _ _ _ _ H)|].
      apply crop_geometry_Ok in Hg as (Hx & Hy & Hsx & Hsy).
      unfold for_below in H.
      apply loop_AssertFailed in H as (i & scr & H).
      apply loop_AssertFailed in H as (j & scr' & H).
      apply bind_AssertFailed in H as [H|(c & _ & H)].
      * unfold resample_cell in H.
        apply for_covered_pixels_AssertFailed in H
          as (x & y & xw & yw & a & H); try assumption.
        exact (accumulate_color_no_assert _ _ _ _ _ _ _ _ _ _ Hbytes H).
      * unfold write in H. destruct (_ || _); discriminate.
    + cbn [bind] in H. injection H as <-. split; [reflexivity|exact Hwh].
  - intros [-> Hwh]. unfold PreprocessScreen, assert.
    replace (width raw_screen <? height raw_screen) with false
      by (symmetry; apply Z.ltb_ge; exact Hwh).
    reflexivity.
Qed.

Lemma PreprocessScreen_only_assertion_witness :
  PreprocessScreen kCroppedFrameSize_spec (uniform_screen 210 160 2)
    = AssertFailed HeightAboveWidth <->
  HeightAboveWidth = HeightAboveWidth /\
  height (uniform_screen 210 160 2) <= width (uniform_screen 210 160 2).
Proof.
  apply (PreprocessScreen_only_assertion kCroppedFrameSize_spec
           (uniform_screen 210 160 2) HeightAboveWidth).
  apply uniform_screen_colour. lia.
Defined.

(** ** The crop *)

Lemma crop_rows_agree_below_4096 : forallb crop_rows_agree (Z_below 4096) = true.
Proof. vm_compute. reflexivity. Qed.

(** X6.  For every screen of fewer than 4096 rows the crop is defined: it
    keeps [92 * H / 100] rows, the integer part of 0.92 H, from row
    [(H - 92 * H / 100) / 2] on, and the columns from 8 on. *)
Theorem crop_geometry_defined :
  forall (S W H : Z),
    0 <= H < 4096 ->
    crop_geometry S W H =
      Ok {| start_x := 8;
            start_y := (H - 92 * H / 100) / 2;
            x_ratio := Fp.div (Fp.of_int (W - 8)) (Fp.of_int S);
            y_ratio := Fp.div (Fp.of_int (92 * H / 100)) (Fp.of_int S) |}.
Proof.
  intros S W H HH.
  pose proof (Z_below_all _ _ crop_rows_agree_below_4096 H ltac:(lia)) as Hc.
  unfold crop_rows_agree in Hc. unfold crop_geometry.
  destruct (Fp.to_int (Fp.mul Fp.d0_92 (Fp.of_int H))) as [c| |]; try discriminate.
  apply andb_true_iff in Hc as [Ec Hc]. apply Z.eqb_eq in Ec. cbn [bind].
  destruct (Fp.to_int (Fp.f32_div (Fp.f32_of_int (H - c)) Fp.f2_0)) as [sy| |];
    try discriminate.
  apply Z.eqb_eq in Hc. cbn [bind]. subst c sy. reflexivity.
Qed.

Lemma crop_geometry_defined_witness :
  0 <= 210 < 4096 /\
  crop_geometry kCroppedFrameSize_spec 160 210 =
    Ok {| start_x := 8;
          start_y := (210 - 92 * 210 / 100) / 2;
          x_ratio := Fp.div (Fp.of_int (160 - 8)) (Fp.of_int kCroppedFrameSize_spec);
          y_ratio := Fp.div (Fp.of_int (92 * 210 / 100))
                            (Fp.of_int kCroppedFrameSize_spec) |}.
Proof.
  split; [lia|]. apply (crop_geometry_defined kCroppedFrameSize_spec 160 210). lia.
Defined.

(** ** The screens of the emulator

    On a screen of 160 x 210 pixels every output cell covers two or three
    columns and three or four rows.  The shares of the pixels of a cell
    along one axis sum to 1 up to rounding, so a cell is a mean of its
    pixels, less what the conversions lose, and never leaves the range of
    an intensity. *)

Lemma share_bounds_enclosed :
  forall k w l u, 0 <= k -> share_bounds k w = Some (l, u) ->
    enclosed_at k l u w /\ 0 <= l <= u.
Proof.
  intros k [s|s| |s m e] l u Hk H; simpl in H; try discriminate.
  - injection H as <- <-. simpl. lia.
  - destruct s; [discriminate|].
    destruct (e <=? - k) eqn:E; [|discriminate]. apply Z.leb_le in E.
    injection H as <- <-.
    assert (Hp : 0 < 2 ^ (- e - k)) by (apply pow2_pos; lia).
    pose proof (Z.mul_div_le (- Z.pos m) (2 ^ (- e - k)) Hp) as H1.
    pose proof (Z.mul_div_le (Z.pos m) (2 ^ (- e - k)) Hp) as H2.
    pose proof (Z.div_pos (Z.pos m) (2 ^ (- e - k)) ltac:(lia) Hp) as H3.
    set (q := - Z.pos m / 2 ^ (- e - k)) in *.
    set (q' := Z.pos m / 2 ^ (- e - k)) in *.
    assert (Hq : q' <= - q) by nia.
    split; [|lia]. cbn [enclosed_at cond_Zopp]. split; [exact E|]. nia.
Qed.

Lemma axis_bounds_enclosed :
  forall ratio start cell first last p,
    0 <= axis_lower ratio start cell first last p ->
    enclosed_at 20 (axis_lower ratio start cell first last p)
                (axis_upper ratio start cell first last p)
                (axis_share ratio start cell first last p) /\
    axis_lower ratio start cell first last p
      <= axis_upper ratio start cell first last p.
Proof.
  intros ratio start cell first last p H. unfold axis_lower, axis_upper in *.
  destruct (share_bounds 20 (axis_share ratio start cell first last p))
    as [[l u]|] eqn:E; [|lia].
  apply share_bounds_enclosed in E; [|lia]. split; [tauto|lia].
Qed.

(** A small integer is converted exactly, at every scale that holds it. *)
Lemma of_int_enclosed_scaled :
  forall k n, 0 <= k <= 1074 -> 0 <= n -> n * 2 ^ k <= 2 ^ 52 ->
    enclosed_at k (n * 2 ^ k) (n * 2 ^ k) (Fp.of_int n).
Proof.
  intros k n Hk Hn Hfit.
  assert (Hpk : 0 < 2 ^ k) by (apply pow2_pos; lia).
  assert (Hn52 : n <= 2 ^ 52) by nia.
  pose proof (of_int_enclosed_at n ltac:(lia)) as He.
  pose proof (of_int_valid n) as Hv.
  destruct (Fp.of_int n) as [s|s| |s m e]; simpl in He; try contradiction.
  - simpl. nia.
  - destruct He as (He0 & He). replace (- e - 0) with (- e) in He by lia.
    assert (Hpe : 0 < 2 ^ (- e)) by (apply pow2_pos; lia).
    assert (s = false) by (destruct s; [cbn [cond_Zopp] in He; nia|reflexivity]).
    subst s. cbn [cond_Zopp] in He.
    assert (Hm : Z.pos m = n * 2 ^ (- e)) by lia.
    assert (Hek : e <= - k).
    { apply valid_finite_digits in Hv as (Hev & Hd & [Hd53|Hmin]); [|lia].
      pose proof (digits2_pos_bounds m) as [Hlo _]. rewrite Hd53 in Hlo.
      change (2 ^ (53 - 1)) with (2 ^ 52) in Hlo.
      destruct (Z_le_gt_dec e (- k)) as [|G]; [assumption|exfalso].
      assert (2 ^ (- e) < 2 ^ k) by (apply Z.pow_lt_mono_r; lia).
      assert (0 < n) by nia.
      assert (n * 2 ^ (- e) < n * 2 ^ k) by (apply Z.mul_lt_mono_pos_l; lia).
      lia. }
    cbn [enclosed_at cond_Zopp]. split; [exact Hek|].
    assert (Hs : 2 ^ (- e) = 2 ^ k * 2 ^ (- e - k)).
    { rewrite <- Z.pow_add_r by lia. f_equal. lia. }
    rewrite Hm, Hs. lia.
Qed.

(** One addition to [resulting_color]: with shares bounded at the scale
    [2 ^ (- 20)], the colour grows by the weighted intensity, up to the bounds
    of the weight and less than 1 lost in the conversion; the conversion is
    defined while the sum stays below 256. *)
Lemma accumulate_step_bounded :
  forall c gray wx wy lx ux ly uy,
    valid64 wx -> valid64 wy ->
    enclosed_at 20 lx ux wx -> enclosed_at 20 ly uy wy ->
    0 <= lx <= ux -> ux <= 2 ^ 21 -> 0 <= ly <= uy -> uy <= 2 ^ 21 ->
    0 <= c <= 255 -> 0 <= gray <= 255 ->
    c * 2 ^ 40 + gray * (ux * uy) < 256 * 2 ^ 40 ->
    exists c',
      Fp.to_uint8 (Fp.add (Fp.of_int c) (Fp.mul (Fp.mul wx wy) (Fp.of_int gray)))
        = Ok c' /\
      0 <= c' /\
      c * 2 ^ 40 + gray * (lx * ly) - (2 ^ 40 - 1) <= c' * 2 ^ 40 /\
      c' * 2 ^ 40 <= c * 2 ^ 40 + gray * (ux * uy).
Proof.
  intros c gray wx wy lx ux ly uy Hvx Hvy Hx Hy Hlx Hux Hly Huy Hc Hg Hsum.
  assert (E21 : 2 ^ 21 = 2097152) by reflexivity.
  assert (E40 : 2 ^ 40 = 1099511627776) by reflexivity.
  assert (E42 : 2 ^ 42 = 4398046511104) by reflexivity.
  assert (E52 : 2 ^ 52 = 4503599627370496) by reflexivity.
  assert (Hprod : 0 <= ux * uy <= 2 ^ 42).
  { split; [apply Z.mul_nonneg_nonneg; lia|].
    change (2 ^ 42) with (2 ^ 21 * 2 ^ 21). apply Z.mul_le_mono_nonneg; lia. }
  assert (Hlow : 0 <= lx * ly) by (apply Z.mul_nonneg_nonneg; lia).
  pose proof (SFmul_enclosed_at 20 20 wx wy lx ux ly uy ltac:(lia) ltac:(lia) ltac:(lia)
                Hvx Hvy Hx Hy ltac:(lia) ltac:(lia) ltac:(lia)) as Hw.
  change (20 + 20) with 40 in Hw.
  assert (Hgp : 0 <= gray * (ux * uy) <= 255 * 2 ^ 42).
  { split; [apply Z.mul_nonneg_nonneg; lia|].
    apply Z.mul_le_mono_nonneg; lia. }
  assert (Hgl : 0 <= gray * (lx * ly)) by (apply Z.mul_nonneg_nonneg; lia).
  pose proof (SFmul_enclosed_at 40 0 (Fp.mul wx wy) (Fp.of_int gray)
                (lx * ly) (ux * uy) gray gray ltac:(lia) ltac:(lia) ltac:(lia)
                (mul_valid _ _ Hvx Hvy) (of_int_valid gray) Hw
                (of_int_enclosed_at gray ltac:(lia)) ltac:(lia) ltac:(lia)
                ltac:(rewrite Z.mul_comm; lia)) as Hp.
  change (40 + 0) with 40 in Hp.
  rewrite (Z.mul_comm (ux * uy) gray), (Z.mul_comm (lx * ly) gray) in Hp.
  pose proof (of_int_enclosed_scaled 40 c ltac:(lia) ltac:(lia) ltac:(lia)) as Hc40.
  pose proof (SFadd_enclosed_at 40 _ _ _ _ _ _ ltac:(lia) Hc40 Hp ltac:(lia) ltac:(lia))
    as Hs.
  apply trunc_enclosed_at in Hs as (z & Hz & Hlo & Hhi); [|lia|lia].
  assert (Hz0 : 0 <= z).
  { pose proof (Z.div_pos (c * 2 ^ 40 + gray * (lx * ly)) (2 ^ 40)
                  ltac:(lia) ltac:(lia)). lia. }
  assert (Hzlo : c * 2 ^ 40 + gray * (lx * ly) - (2 ^ 40 - 1) <= z * 2 ^ 40).
  { pose proof (Z.mul_succ_div_gt (c * 2 ^ 40 + gray * (lx * ly)) (2 ^ 40) ltac:(lia)).
    nia. }
  assert (Hzhi : z * 2 ^ 40 <= c * 2 ^ 40 + gray * (ux * uy)).
  { pose proof (Z.mul_div_le (c * 2 ^ 40 + gray * (ux * uy)) (2 ^ 40) ltac:(lia)).
    nia. }
  exists z. split; [|split; [|split]; assumption].
  unfold Fp.to_uint8. unfold Fp.add, Fp.mul in *. rewrite Hz.
  replace ((0 <=? z) && (z <=? 255)) with true
    by (symmetry; apply andb_true_iff; split; [apply Z.leb_le|apply Z.leb_le]; lia).
  reflexivity.
Qed.

Lemma sum_from_nonneg :
  forall u first n,
    (forall k, 0 <= k < Z.of_nat n -> 0 <= u (first + k)) ->
    0 <= sum_from u first n.
Proof.
  intros u first n. induction n as [|n IH]; intros H; [simpl; lia|].
  cbn [sum_from].
  assert (0 <= sum_from u first n) by (apply IH; intros; apply H; lia).
  assert (0 <= u (first + Z.of_nat n)) by (apply H; lia). lia.
Qed.

Lemma sum_from_mono :
  forall u first n m,
    (n <= m)%nat ->
    (forall k, 0 <= k < Z.of_nat m -> 0 <= u (first + k)) ->
    sum_from u first n <= sum_from u first m.
Proof.
  intros u first n m Hnm. induction Hnm as [|m Hnm IH]; intros H; [lia|].
  cbn [sum_from].
  assert (sum_from u first n <= sum_from u first m) by (apply IH; intros; apply H; lia).
  assert (0 <= u (first + Z.of_nat m)) by (apply H; lia). lia.
Qed.

Lemma ratio_in_resulting_pixel_valid :
  forall ratio start k first last p,
    valid64 ratio -> valid64 (ratio_in_resulting_pixel ratio start k first last p).
Proof.
  intros ratio start k first last p Hv. unfold ratio_in_resulting_pixel.
  destruct (p =? first); [|destruct (p =? last)].
  - apply sub_valid; [apply sub_valid; [apply of_int_valid|]|apply of_int_valid].
    apply mul_valid; [apply of_int_valid|exact Hv].
  - apply SFadd_valid; [apply sub_valid; [|apply of_int_valid]|apply of_int_valid].
    apply mul_valid; [exact Hv|apply of_int_valid].
  - reflexivity.
Qed.

(** The two loops over the pixels of a cell return when the pixels read
    exist and the shares along either axis sum to at most
    [1 + 8 * 2 ^ (- 20)].  The value of the cell is then at most the
    greatest intensity [G] among the pixels, and at least the least one,
    [m], times the sum of the weights, less one for every pixel visited. *)
Lemma for_covered_pixels_total :
  forall raw W xr yr sx sy i j fx lx fy ly m G,
    valid64 xr -> valid64 yr -> fits_int sx = true -> fits_int sy = true ->
    cell_bounds xr sx j = Ok (fx, lx) -> cell_bounds yr sy i = Ok (fy, ly) ->
    (forall x, fx <= x <= lx -> 0 <= axis_lower xr sx j fx lx x) ->
    (forall y, fy <= y <= ly -> 0 <= axis_lower yr sy i fy ly y) ->
    sum_from (axis_upper xr sx j fx lx) fx (Z.to_nat (lx + 1 - fx)) <= 2 ^ 20 + 8 ->
    sum_from (axis_upper yr sy i fy ly) fy (Z.to_nat (ly + 1 - fy)) <= 2 ^ 20 + 8 ->
    (forall x y, fx <= x <= lx -> fy <= y <= ly ->
                 0 <= y * W + x < Z.of_nat (length raw)) ->
    Z.of_nat (length raw) <= 2 ^ 31 ->
    0 <= m <= G -> G <= 255 ->
    Forall (fun p => exists gray, PixelToGrayscale p = Ok gray /\ m <= gray <= G) raw ->
    exists v,
      for_covered_pixels xr yr sx sy i j (accumulate_color raw W xr yr) 0 = Ok v /\
      0 <= v <= G /\
      m * (sum_from (axis_lower xr sx j fx lx) fx (Z.to_nat (lx + 1 - fx))
           * sum_from (axis_lower yr sy i fy ly) fy (Z.to_nat (ly + 1 - fy)))
        - Z.of_nat (Z.to_nat (lx + 1 - fx)) * Z.of_nat (Z.to_nat (ly + 1 - fy))
          * (2 ^ 40 - 1)
        <= v * 2 ^ 40.
Proof.
  intros raw W xr yr sx sy i j fx lx fy ly m G Hxr Hyr Hsx Hsy Hxs Hys HLX HLY HSX HSY
         Hidx Hlen Hm HG Hbytes.
  set (LX := axis_lower xr sx j fx lx) in *.
  set (LY := axis_lower yr sy i fy ly) in *.
  set (UX := axis_upper xr sx j fx lx) in *.
  set (UY := axis_upper yr sy i fy ly) in *.
  set (nx := Z.to_nat (lx + 1 - fx)) in *.
  set (ny := Z.to_nat (ly + 1 - fy)) in *.
  set (SX := sum_from UX fx nx) in *.
  set (SY := sum_from UY fy ny) in *.
  set (SXL := sum_from LX fx nx) in *.
  set (SYL := sum_from LY fy ny) in *.
  assert (E20 : 2 ^ 20 = 1048576) by reflexivity.
  assert (E21 : 2 ^ 21 = 2097152) by reflexivity.
  assert (E40 : 2 ^ 40 = 1099511627776) by reflexivity.
  assert (HBX : forall x, fx <= x <= lx ->
            enclosed_at 20 (LX x) (UX x) (axis_share xr sx j fx lx x) /\ LX x <= UX x).
  { intros x Hx. apply axis_bounds_enclosed. apply HLX. exact Hx. }
  assert (HBY : forall y, fy <= y <= ly ->
            enclosed_at 20 (LY y) (UY y) (axis_share yr sy i fy ly y) /\ LY y <= UY y).
  { intros y Hy. apply axis_bounds_enclosed. apply HLY. exact Hy. }
  assert (HUXk : forall k, 0 <= k < Z.of_nat nx -> 0 <= UX (fx + k)).
  { intros k Hk. pose proof (HLX (fx + k) ltac:(lia)).
    pose proof (proj2 (HBX (fx + k) ltac:(lia))). fold LX in H. lia. }
  assert (HUYk : forall k, 0 <= k < Z.of_nat ny -> 0 <= UY (fy + k)).
  { intros k Hk. pose proof (HLY (fy + k) ltac:(lia)).
    pose proof (proj2 (HBY (fy + k) ltac:(lia))). fold LY in H. lia. }
  assert (HLXk : forall k, 0 <= k < Z.of_nat nx -> 0 <= LX (fx + k))
    by (intros k Hk; apply HLX; lia).
  assert (HLYk : forall k, 0 <= k < Z.of_nat ny -> 0 <= LY (fy + k))
    by (intros k Hk; apply HLY; lia).
  assert (HSY0 : 0 <= SY) by (apply sum_from_nonneg; exact HUYk).
  assert (HSX0 : 0 <= SX) by (apply sum_from_nonneg; exact HUXk).
  assert (HSYL0 : 0 <= SYL) by (apply sum_from_nonneg; exact HLYk).
  assert (HG0 : 0 <= G) by lia.
  assert (Hcap : forall a b, 0 <= G -> 0 <= a <= SX -> 0 <= b <= SY ->
            G * (a * b) < (G + 1) * 2 ^ 40).
  { intros a b HG' Ha Hb.
    assert (a * b <= (2 ^ 20 + 8) * (2 ^ 20 + 8))
      by (apply Z.mul_le_mono_nonneg; lia).
    assert (0 <= a * b) by (apply Z.mul_nonneg_nonneg; lia).
    assert (G * (a * b) <= G * ((2 ^ 20 + 8) * (2 ^ 20 + 8)))
      by (apply Z.mul_le_mono_nonneg_l; lia).
    rewrite E20, E40 in *. lia. }
  unfold for_covered_pixels. rewrite Hxs, Hys. cbn [bind]. unfold for_upto.
  fold nx. fold ny.
  set (Outer := fun (x : Z) (c : Z) =>
         0 <= c /\
         c * 2 ^ 40 <= G * (sum_from UX fx (Z.to_nat (x - fx)) * SY) /\
         m * (sum_from LX fx (Z.to_nat (x - fx)) * SYL)
           - (x - fx) * Z.of_nat ny * (2 ^ 40 - 1) <= c * 2 ^ 40).
  destruct (loop_total _ Outer
              (fun x acc =>
                 assert (ratio_in_range (ratio_in_resulting_pixel xr sx j fx lx x))
                        XRatioRange ;;;
                 loop ny fy (fun y acc =>
                   assert (ratio_in_range (ratio_in_resulting_pixel yr sy i fy ly y))
                          YRatioRange ;;;
                   accumulate_color raw W xr yr x y
                     (ratio_in_resulting_pixel xr sx j fx lx x)
                     (ratio_in_resulting_pixel yr sy i fy ly y) acc) acc)
              nx fx 0) as (v & Hloop & Hv).
  - unfold Outer. rewrite Z.sub_diag. cbn [Z.to_nat sum_from]. lia.
  - intros x c Hx (Hc0 & Hc & Hcl).
    rewrite (ratio_in_resulting_pixel_in_range xr sx j fx lx x Hxr Hsx Hxs).
    cbn [assert bind].
    set (PX := sum_from UX fx (Z.to_nat (x - fx))) in *.
    set (PXL := sum_from LX fx (Z.to_nat (x - fx))) in *.
    assert (HPX0 : 0 <= PX) by (apply sum_from_nonneg; intros; apply HUXk; lia).
    assert (HPXL0 : 0 <= PXL) by (apply sum_from_nonneg; intros; apply HLXk; lia).
    destruct (HBX x ltac:(lia)) as (HencX & HLUx).
    assert (HLx : 0 <= LX x) by (apply HLX; lia).
    assert (HPX1 : PX + UX x <= SX).
    { replace (PX + UX x) with (sum_from UX fx (S (Z.to_nat (x - fx)))).
      - apply sum_from_mono; [lia|exact HUXk].
      - cbn [sum_from]. fold PX. do 2 f_equal. lia. }
    set (Inner := fun (y : Z) (c : Z) =>
           0 <= c /\
           c * 2 ^ 40 <= G * (PX * SY + UX x * sum_from UY fy (Z.to_nat (y - fy))) /\
           m * (PXL * SYL + LX x * sum_from LY fy (Z.to_nat (y - fy)))
             - ((x - fx) * Z.of_nat ny + (y - fy)) * (2 ^ 40 - 1) <= c * 2 ^ 40).
    destruct (loop_total _ Inner
                (fun y acc =>
                   assert (ratio_in_range (ratio_in_resulting_pixel yr sy i fy ly y))
                          YRatioRange ;;;
                   accumulate_color raw W xr yr x y
                     (ratio_in_resulting_pixel xr sx j fx lx x)
                     (ratio_in_resulting_pixel yr sy i fy ly y) acc)
                ny fy c) as (c1 & Hinner & Hc1).
    + unfold Inner. rewrite Z.sub_diag. cbn [Z.to_nat sum_from].
      rewrite !Z.mul_0_r, !Z.add_0_r. split; [exact Hc0|]. split; [exact Hc|exact Hcl].
    + intros y c2 Hy (Hc20 & Hc2 & Hc2l).
      rewrite (ratio_in_resulting_pixel_in_range yr sy i fy ly y Hyr Hsy Hys).
      cbn [assert bind].
      set (PY := sum_from UY fy (Z.to_nat (y - fy))) in *.
      set (PYL := sum_from LY fy (Z.to_nat (y - fy))) in *.
      assert (HPY0 : 0 <= PY) by (apply sum_from_nonneg; intros; apply HUYk; lia).
      destruct (HBY y ltac:(lia)) as (HencY & HLUy).
      assert (HLy : 0 <= LY y) by (apply HLY; lia).
      assert (HPY1 : PY + UY y <= SY).
      { replace (PY + UY y) with (sum_from UY fy (S (Z.to_nat (y - fy)))).
        - apply sum_from_mono; [lia|exact HUYk].
        - cbn [sum_from]. fold PY. do 2 f_equal. lia. }
      specialize (Hidx x y ltac:(lia) ltac:(lia)).
      unfold accumulate_color, int_arith, fits_int, INT_MIN, INT_MAX.
      replace ((- 2 ^ 31 <=? y * W + x) && (y * W + x <=? 2 ^ 31 - 1)) with true
        by (symmetry; apply andb_true_iff; split; apply Z.leb_le; lia).
      cbn [bind].
      destruct (read_in_range _ raw _ Hidx) as (pixel & Hread & Hin).
      rewrite Hread. cbn [bind].
      rewrite Forall_forall in Hbytes.
      destruct (Hbytes _ Hin) as (gray & Hgray & Hg).
      rewrite Hgray. cbn [bind].
      assert (HG' : 0 <= G) by lia.
      assert (Hnext : PX * SY + UX x * PY + UX x * UY y <= SX * SY /\
                      0 <= PX * SY + UX x * PY).
      { assert (UX x * (PY + UY y) <= UX x * SY)
          by (apply Z.mul_le_mono_nonneg_l; lia).
        assert ((PX + UX x) * SY <= SX * SY)
          by (apply Z.mul_le_mono_nonneg_r; lia).
        assert (0 <= PX * SY) by (apply Z.mul_nonneg_nonneg; lia).
        assert (0 <= UX x * PY) by (apply Z.mul_nonneg_nonneg; lia).
        split; lia. }
      pose proof (Hcap SX SY HG' ltac:(lia) ltac:(lia)) as Hcap1.
      assert (Hxy : 0 <= UX x * UY y) by (apply Z.mul_nonneg_nonneg; lia).
      assert (Hlxy : 0 <= LX x * LY y) by (apply Z.mul_nonneg_nonneg; lia).
      assert (Hmono : G * (PX * SY + UX x * PY + UX x * UY y) <= G * (SX * SY))
        by (apply Z.mul_le_mono_nonneg_l; lia).
      assert (Hc255 : c2 <= 255) by (rewrite E40 in *; lia).
      assert (Hgxy : gray * (UX x * UY y) <= G * (UX x * UY y))
        by (apply Z.mul_le_mono_nonneg_r; lia).
      assert (Hglxy : m * (LX x * LY y) <= gray * (LX x * LY y))
        by (apply Z.mul_le_mono_nonneg_r; lia).
      destruct (accumulate_step_bounded c2 gray
                  (axis_share xr sx j fx lx x) (axis_share yr sy i fy ly y)
                  (LX x) (UX x) (LY y) (UY y)) as (c3 & Hc3 & Hc30 & Hc3lo & Hc3hi).
      * apply div_valid; [apply ratio_in_resulting_pixel_valid|]; exact Hxr.
      * apply div_valid; [apply ratio_in_resulting_pixel_valid|]; exact Hyr.
      * exact HencX.
      * exact HencY.
      * lia.
      * lia.
      * lia.
      * lia.
      * lia.
      * lia.
      * rewrite E40 in *. lia.
      * unfold pixel_weight. unfold axis_share in Hc3. rewrite Hc3.
        eexists. split; [reflexivity|]. unfold Inner. split; [exact Hc30|].
        replace (Z.to_nat (y + 1 - fy)) with (S (Z.to_nat (y - fy))) by lia.
        cbn [sum_from]. fold PY. fold PYL.
        replace (fy + Z.of_nat (Z.to_nat (y - fy))) with y by lia.
        split; [lia|]. lia.
    + rewrite Hinner. eexists. split; [reflexivity|].
      unfold Inner in Hc1. destruct Hc1 as (Hc10 & Hc1 & Hc1l). unfold Outer.
      split; [exact Hc10|].
      replace (Z.to_nat (fy + Z.of_nat ny - fy)) with ny in Hc1, Hc1l by lia.
      fold SY in Hc1. fold SYL in Hc1l.
      replace (Z.to_nat (x + 1 - fx)) with (S (Z.to_nat (x - fx))) by lia.
      cbn [sum_from]. fold PX. fold PXL.
      replace (fx + Z.of_nat (Z.to_nat (x - fx))) with x by lia.
      split; lia.
  - exists v. split; [exact Hloop|].
    destruct Hv as (Hv0 & Hv & Hvl).
    replace (Z.to_nat (fx + Z.of_nat nx - fx)) with nx in Hv, Hvl by lia.
    fold SX in Hv. fold SXL in Hvl.
    split.
    + split; [exact Hv0|].
      pose proof (Hcap SX SY HG0 ltac:(lia) ltac:(lia)) as Hcap1.
      rewrite E40 in *. lia.
    + replace (fx + Z.of_nat nx - fx) with (Z.of_nat nx) in Hvl by lia. exact Hvl.
Qed.

Lemma axis_within_spec :
  forall ratio start low high span cells cell,
    axis_within ratio start low high span cells = true ->
    0 <= cell < Z.of_nat cells ->
    exists first last,
      cell_bounds ratio start cell = Ok (first, last) /\
      low <= first /\ last <= high /\ last + 1 - first <= span /\
      (forall p, first <= p <= last ->
                 0 <= axis_lower ratio start cell first last p) /\
      sum_from (axis_upper ratio start cell first last) first
               (Z.to_nat (last + 1 - first)) <= 2 ^ 20 + 8 /\
      2 ^ 20 - 8 <= sum_from (axis_lower ratio start cell first last) first
                             (Z.to_nat (last + 1 - first)).
Proof.
  intros ratio start low high span cells cell H Hcell. unfold axis_within in H.
  pose proof (Z_below_all _ _ H cell Hcell) as Hc. cbv beta in Hc.
  destruct (cell_bounds ratio start cell) as [[first last]| |]; try discriminate.
  repeat (apply andb_true_iff in Hc as [Hc ?]).
  exists first, last. split; [reflexivity|].
  split; [lia|]. split; [lia|]. split; [lia|]. split; [|lia].
  intros p Hp.
  match goal with
  | Hall : forallb _ (Z_below _) = true |- _ =>
      pose proof (Z_below_all _ _ Hall (p - first) ltac:(lia)) as Hu
  end.
  cbv beta in Hu. replace (first + (p - first)) with p in Hu by lia. lia.
Qed.

Lemma axes_within_160_210 :
  axis_within (S754_finite false 8149370754289469 (-52)) 8 8 160 3 84 = true /\
  axis_within (S754_finite false 5173778143348248 (-51)) 8 8 201 4 84 = true.
Proof. split; vm_compute; reflexivity. Qed.

(** What holds of the value of every cell of the grid holds of every entry
    of the frame. *)
Lemma PreprocessScreen_cells_forall :
  forall (S : Z) (raw_screen : ALEScreen) (frame : list Z) (g : geometry)
         (P : Z -> Prop),
    0 <= S ->
    PreprocessScreen S raw_screen = Ok frame ->
    crop_geometry S (width raw_screen) (height raw_screen) = Ok g ->
    (forall i j v, 0 <= i < S -> 0 <= j < S ->
                   resample_cell raw_screen g i j = Ok v -> P v) ->
    Forall P frame.
Proof.
  intros S raw_screen frame g P HS0 H Hg HP.
  apply PreprocessScreen_cells in H as (_ & Hlen & g' & Hg' & Hcells).
  rewrite Hg in Hg'. injection Hg' as <-.
  apply Forall_forall. intros v Hin.
  apply (In_nth _ _ 0) in Hin as (n & Hn & <-).
  assert (HS : 0 < S) by nia.
  destruct (cell_index_split S (Z.of_nat n) HS ltac:(lia)) as (Hi & Hj & E).
  pose proof (Hcells _ _ Hi Hj) as Hc. rewrite <- E, Nat2Z.id in Hc.
  exact (HP _ _ _ Hi Hj Hc).
Qed.

(** X17.  On every screen of the emulator's format, 160 x 210 palette
    codes, [PreprocessScreen] with the frame size 84 returns a frame: no
    assertion fails, no pixel is read outside the array and no conversion
    leaves the range of its type.  The frame has 84 x 84 cells; none is
    brighter than the brightest pixel of the screen, and none is more than
    12 below the darkest (a cell covers at most 12 pixels, and the
    conversion after each addition loses less than 1). *)
Theorem PreprocessScreen_total_160_210 :
  forall (raw_screen : ALEScreen) (m G : Z),
    width raw_screen = 160 -> height raw_screen = 210 ->
    Z.of_nat (length (getArray raw_screen)) = 160 * 210 ->
    Forall (fun p => 0 <= p <= 255) (getArray raw_screen) ->
    0 <= m <= G ->
    (forall p gray, In p (getArray raw_screen) ->
                    PixelToGrayscale p = Ok gray -> m <= gray <= G) ->
    exists frame,
      PreprocessScreen kCroppedFrameSize_spec raw_screen = Ok frame /\
      Z.of_nat (length frame) = kCroppedFrameSize_spec * kCroppedFrameSize_spec /\
      Forall (fun v => 0 <= v <= 255 /\ m - 12 <= v <= G) frame.
Proof.
  intros [W H pixels] m G HW HH Hlen Hbytes HmG Hrange.
  cbn [width height getArray] in *. subst W H.
  set (G' := Z.min G 255).
  assert (HmG' : 0 <= m <= G').
  { destruct pixels as [|p pixels']; [simpl in Hlen; lia|].
    pose proof (Forall_inv Hbytes) as Hp. cbv beta in Hp.
    destruct (PixelToGrayscale_defined p Hp) as (gray & Hgr & Hr).
    pose proof (Hrange p gray (or_introl eq_refl) Hgr). unfold G'. lia. }
  assert (Hgray : Forall (fun p => exists gray,
                            PixelToGrayscale p = Ok gray /\ m <= gray <= G') pixels).
  { apply Forall_forall. intros p Hp. rewrite Forall_forall in Hbytes.
    destruct (PixelToGrayscale_defined p (Hbytes p Hp)) as (gray & Hgr & Hr).
    exists gray. split; [exact Hgr|].
    pose proof (Hrange p gray Hp Hgr). unfold G'. lia. }
  set (raw_screen := {| width := 160; height := 210; getArray := pixels |}).
  destruct axes_within_160_210 as [HX HY].
  pose proof crop_geometry_160_210 as Hg.
  destruct (crop_geometry_Ok _ _ _ _ Hg) as (Hxr & Hyr & Hsx & Hsy).
  cbn [x_ratio y_ratio start_x start_y] in Hxr, Hyr, Hsx, Hsy.
  assert (Hcell : forall i j, 0 <= i < kCroppedFrameSize_spec ->
            0 <= j < kCroppedFrameSize_spec ->
            exists v,
              resample_cell raw_screen
                {| start_x := 8; start_y := 8;
                   x_ratio := S754_finite false 8149370754289469 (-52);
                   y_ratio := S754_finite false 5173778143348248 (-51) |} i j = Ok v /\
              (0 <= v <= 255 /\ m - 12 <= v <= G)).
  { intros i j Hi Hj. unfold resample_cell.
    cbn [x_ratio y_ratio start_x start_y getArray width raw_screen].
    unfold kCroppedFrameSize_spec in Hi, Hj.
    assert (Hj' : 0 <= j < Z.of_nat 84) by (simpl; lia).
    assert (Hi' : 0 <= i < Z.of_nat 84) by (simpl; lia).
    destruct (axis_within_spec _ _ _ _ _ _ j HX Hj')
      as (fx & lx & Hxs & Hfx & Hlx & Hspx & HLX & HSX & HSXL).
    destruct (axis_within_spec _ _ _ _ _ _ i HY Hi')
      as (fy & ly & Hys & Hfy & Hly & Hspy & HLY & HSY & HSYL).
    destruct (for_covered_pixels_total pixels 160 _ _ 8 8 i j fx lx fy ly m G'
                Hxr Hyr Hsx Hsy Hxs Hys HLX HLY HSX HSY)
      as (v & Hv & Hvr & Hvl); try assumption.
    - intros x y Hx Hy. lia.
    - lia.
    - unfold G'. lia.
    - exists v. split; [exact Hv|].
      assert (E20 : 2 ^ 20 = 1048576) by reflexivity.
      assert (E40 : 2 ^ 40 = 1099511627776) by reflexivity.
      set (SXL := sum_from (axis_lower _ _ j fx lx) fx _) in *.
      set (SYL := sum_from (axis_lower _ _ i fy ly) fy _) in *.
      assert (Hprod : (2 ^ 20 - 8) * (2 ^ 20 - 8) <= SXL * SYL)
        by (apply Z.mul_le_mono_nonneg; lia).
      assert (Hm : m * ((2 ^ 20 - 8) * (2 ^ 20 - 8)) <= m * (SXL * SYL))
        by (apply Z.mul_le_mono_nonneg_l; lia).
      assert (Hn : Z.of_nat (Z.to_nat (lx + 1 - fx)) * Z.of_nat (Z.to_nat (ly + 1 - fy))
                   <= 3 * 4) by (apply Z.mul_le_mono_nonneg; lia).
      unfold G' in *. rewrite E20, E40 in *. lia. }
  destruct (PreprocessScreen_total kCroppedFrameSize_spec raw_screen _
              ltac:(simpl; lia) Hg) as (frame & Hframe).
  - intros i j Hi Hj. destruct (Hcell i j Hi Hj) as (v & Hv & _).
    exists v. exact Hv.
  - exists frame. split; [exact Hframe|].
    split.
    + apply PreprocessScreen_cells in Hframe as (_ & Hl & _).
      unfold kCroppedFrameSize_spec in *. lia.
    + assert (HS : 0 <= kCroppedFrameSize_spec) by (unfold kCroppedFrameSize_spec; lia).
      apply (PreprocessScreen_cells_forall kCroppedFrameSize_spec raw_screen frame _ _
               HS Hframe Hg).
      intros i j v Hi Hj Hv. destruct (Hcell i j Hi Hj) as (v' & Hv' & Hr).
      rewrite Hv in Hv'. injection Hv' as ->. exact Hr.
Qed.

Lemma uniform_screen_length :
  forall w h code, 0 <= w * h ->
    Z.of_nat (length (getArray (uniform_screen w h code))) = w * h.
Proof.
  intros w h code H. unfold uniform_screen. cbn [getArray].
  rewrite repeat_length. apply Z2Nat.id. exact H.
Qed.

Lemma PreprocessScreen_total_160_210_witness :
  width (uniform_screen 160 210 2) = 160 /\
  height (uniform_screen 160 210 2) = 210 /\
  Z.of_nat (length (getArray (uniform_screen 160 210 2))) = 160 * 210 /\
  Forall (fun p => 0 <= p <= 255) (getArray (uniform_screen 160 210 2)) /\
  0 <= 74 <= 74 /\
  (forall p gray, In p (getArray (uniform_screen 160 210 2)) ->
                  PixelToGrayscale p = Ok gray -> 74 <= gray <= 74) /\
  exists frame,
    PreprocessScreen kCroppedFrameSize_spec (uniform_screen 160 210 2) = Ok frame /\
    Z.of_nat (length frame) = kCroppedFrameSize_spec * kCroppedFrameSize_spec /\
    Forall (fun v => 0 <= v <= 255 /\ 74 - 12 <= v <= 74) frame.
Proof.
  assert (Hl : Z.of_nat (length (getArray (uniform_screen 160 210 2))) = 160 * 210)
    by (apply uniform_screen_length; lia).
  assert (Hb : Forall (fun p => 0 <= p <= 255) (getArray (uniform_screen 160 210 2)))
    by (apply uniform_screen_colour; lia).
  assert (Hm : forall p gray, In p (getArray (uniform_screen 160 210 2)) ->
                 PixelToGrayscale p = Ok gray -> 74 <= gray <= 74).
  { intros p gray Hp Hg. apply repeat_spec in Hp. subst p.
    vm_compute in Hg. injection Hg as <-. lia. }
  split; [reflexivity|]. split; [reflexivity|]. split; [exact Hl|].
  split; [exact Hb|]. split; [lia|]. split; [exact Hm|].
  apply (PreprocessScreen_total_160_210 (uniform_screen 160 210 2) 74 74
           eq_refl eq_refl Hl Hb ltac:(lia) Hm).
Defined.

Lemma grid_agrees_160_210 :
  forallb (grid_agrees (S754_finite false 8149370754289469 (-52)) 8 152 84)
          (Z_below 84) = true /\
  forallb (grid_agrees (S754_finite false 5173778143348248 (-51)) 8 193 84)
          (Z_below 84) = true.
Proof. split; vm_compute; reflexivity. Qed.

(** X18.  The sampling grid of the 160 x 210 screen in integer terms: cell
    [k] of a row of the frame covers the columns [8 + 152 k / 84] to
    [8 + 152 (k + 1) / 84], and cell [k] of a column the rows
    [8 + 193 k / 84] to [8 + 193 (k + 1) / 84], the quotients rounded down.
    Neighbouring cells share their boundary pixel, and the last cell of a
    row reaches column 160, one past the last of the screen. *)
Theorem cell_bounds_160_210 :
  forall (g : geometry) (k : Z),
    crop_geometry kCroppedFrameSize_spec 160 210 = Ok g ->
    0 <= k < kCroppedFrameSize_spec ->
    cell_bounds (x_ratio g) (start_x g) k
      = Ok (8 + 152 * k / 84, 8 + 152 * (k + 1) / 84) /\
    cell_bounds (y_ratio g) (start_y g) k
      = Ok (8 + 193 * k / 84, 8 + 193 * (k + 1) / 84).
Proof.
  intros g k Hg Hk. rewrite crop_geometry_160_210 in Hg. injection Hg as <-.
  cbn [x_ratio y_ratio start_x start_y].
  destruct grid_agrees_160_210 as [HX HY].
  unfold kCroppedFrameSize_spec in Hk.
  assert (Hk' : 0 <= k < Z.of_nat 84) by (simpl; lia).
  pose proof (Z_below_all _ _ HX k Hk') as Hx.
  pose proof (Z_below_all _ _ HY k Hk') as Hy.
  clear HX HY. unfold grid_agrees in Hx, Hy.
  set (bx := cell_bounds (S754_finite false 8149370754289469 (-52)) 8 k) in *.
  set (by_ := cell_bounds (S754_finite false 5173778143348248 (-51)) 8 k) in *.
  clearbody bx by_.
  destruct bx as [[fx lx]| |]; try discriminate.
  destruct by_ as [[fy ly]| |]; try discriminate.
  apply andb_true_iff in Hx as [Hx1 Hx2]. apply andb_true_iff in Hy as [Hy1 Hy2].
  apply Z.eqb_eq in Hx1, Hx2, Hy1, Hy2. subst. split; reflexivity.
Qed.

Lemma cell_bounds_160_210_witness :
  crop_geometry kCroppedFrameSize_spec 160 210
    = Ok {| start_x := 8; start_y := 8;
            x_ratio := S754_finite false 8149370754289469 (-52);
            y_ratio := S754_finite false 5173778143348248 (-51) |} /\
  0 <= 83 < kCroppedFrameSize_spec /\
  cell_bounds (S754_finite false 8149370754289469 (-52)) 8 83
    = Ok (8 + 152 * 83 / 84, 8 + 152 * (83 + 1) / 84) /\
  cell_bounds (S754_finite false 5173778143348248 (-51)) 8 83
    = Ok (8 + 193 * 83 / 84, 8 + 193 * (83 + 1) / 84).
Proof.
  split; [exact crop_geometry_160_210|].
  split; [unfold kCroppedFrameSize_spec; lia|].
  apply (cell_bounds_160_210 _ 83 crop_geometry_160_210).
  unfold kCroppedFrameSize_spec; lia.
Defined.

(** ** The text of [DrawFrame] *)

Lemma Z_below_succ : forall n, Z_below (S n) = Z_below n ++ [Z.of_nat n].
Proof.
  intros n. unfold Z_below. rewrite seq_S, map_app. reflexivity.
Qed.

Lemma put_hex_digit :
  forall o d, 0 <= d < 16 -> put_hex o d = o ++ [hex_digit d].
Proof.
  intros o d Hd. unfold put_hex.
  rewrite (Z.mod_small d (2 ^ 32)) by lia.
  cbn [hex_digits].
  replace (d <? 16) with true by (symmetry; apply Z.ltb_lt; lia).
  rewrite (Z.mod_small d 16) by lia. reflexivity.
Qed.

(** The drawing of a frame of bytes, line by line. *)
Lemma DrawFrame_lines :
  forall (S : Z) (frame : FrameData),
    0 <= S ->
    Z.of_nat (length frame) = S * S ->
    Forall (fun v => 0 <= v <= 255) frame ->
    DrawFrame S frame = Ok (concat (map (frame_line S frame) (Z_below (Z.to_nat S)))).
Proof.
  intros S frame HS Hlen Hbytes.
  unfold DrawFrame, for_below.
  set (Rows := fun (row : Z) (o : list ascii) =>
         o = concat (map (frame_line S frame) (Z_below (Z.to_nat row)))).
  destruct (loop_total _ Rows
              (fun row o =>
                 o <- loop (Z.to_nat (S - 0)) 0 (fun col o =>
                        cell <- read frame (row * S + col) ;;
                        Ok (put_hex o (Z.quot cell 16))) o ;;
                 Ok (put_endl o))
              (Z.to_nat (S - 0)) 0 []) as (out & Hloop & Hout).
  - reflexivity.
  - intros row o Hrow Ho. unfold Rows in Ho. subst o.
    set (o := concat (map (frame_line S frame) (Z_below (Z.to_nat row)))).
    set (Cols := fun (col : Z) (a : list ascii) =>
           a = o ++ map (fun col => hex_digit
                           (nth (Z.to_nat (row * S + col)) frame 0 / 16))
                        (Z_below (Z.to_nat col))).
    destruct (loop_total _ Cols
                (fun col o =>
                   cell <- read frame (row * S + col) ;;
                   Ok (put_hex o (Z.quot cell 16)))
                (Z.to_nat (S - 0)) 0 o) as (line & Hline & Hcols).
    + unfold Cols. cbn. rewrite app_nil_r. reflexivity.
    + intros col a Hcol Ha. unfold Cols in Ha. subst a.
      assert (Hidx : 0 <= row * S + col < Z.of_nat (length frame)) by nia.
      destruct (read_in_range _ frame _ Hidx) as (cell & Hread & Hin).
      rewrite Hread. cbn [bind].
      rewrite Forall_forall in Hbytes. specialize (Hbytes cell Hin).
      apply read_Ok in Hread as [_ Hnth].
      apply (nth_error_nth _ _ 0) in Hnth.
      eexists. split; [reflexivity|]. unfold Cols.
      replace (Z.to_nat (col + 1)) with (Datatypes.S (Z.to_nat col)) by lia.
      rewrite Z_below_succ, map_app, app_assoc. cbn [map].
      rewrite Z2Nat.id by lia. rewrite Hnth.
      rewrite Z.quot_div_nonneg by lia.
      apply put_hex_digit.
      split; [apply Z.div_pos; lia|apply Z.div_lt_upper_bound; lia].
    + rewrite Hline. cbn [bind]. eexists. split; [reflexivity|].
      unfold Rows, Cols in *. subst line.
      replace (Z.to_nat (row + 1)) with (Datatypes.S (Z.to_nat row)) by lia.
      rewrite Z_below_succ, map_app, concat_app. cbn [map concat].
      rewrite app_nil_r. unfold put_endl, frame_line.
      replace (Z.of_nat (Z.to_nat row)) with row by lia.
      replace (Z.to_nat (0 + Z.of_nat (Z.to_nat (S - 0)))) with (Z.to_nat S) by lia.
      rewrite <- app_assoc. reflexivity.
  - rewrite Hloop. unfold Rows in Hout. rewrite Hout.
    replace (Z.to_nat (0 + Z.of_nat (Z.to_nat (S - 0)))) with (Z.to_nat S) by lia.
    reflexivity.
Qed.

Lemma Z_below_length : forall n, length (Z_below n) = n.
Proof. intros n. unfold Z_below. rewrite length_map, length_seq. reflexivity. Qed.

Lemma Z_below_nth_error :
  forall n k, 0 <= k < Z.of_nat n -> nth_error (Z_below n) (Z.to_nat k) = Some k.
Proof.
  intros n k Hk. unfold Z_below. rewrite nth_error_map, nth_error_seq.
  replace (Z.to_nat k <? n)%nat with true by (symmetry; apply Nat.ltb_lt; lia).
  cbn. f_equal. lia.
Qed.

(** Cell [c] of line [r] of a text whose lines all have [n] characters. *)
Lemma concat_lines_nth_error :
  forall (A : Type) (line : Z -> list A) (n m : nat) (r c : nat),
    (forall k, 0 <= k < Z.of_nat m -> length (line k) = n) ->
    (r < m)%nat -> (c < n)%nat ->
    nth_error (concat (map line (Z_below m))) (r * n + c)
      = nth_error (line (Z.of_nat r)) c /\
    length (concat (map line (Z_below m))) = (m * n)%nat.
Proof.
  intros A line n m. induction m as [|m IH]; intros r c Hn Hr Hc; [lia|].
  rewrite Z_below_succ, map_app, concat_app. cbn [map concat].
  rewrite app_nil_r.
  assert (Hlen : length (concat (map line (Z_below m))) = (m * n)%nat).
  { destruct m as [|m']; [reflexivity|].
    apply (IH 0%nat 0%nat); [intros; apply Hn; lia|lia|lia]. }
  split.
  - destruct (Nat.eq_dec r m) as [->|Hne].
    + rewrite nth_error_app2 by lia. rewrite Hlen. f_equal. lia.
    + rewrite nth_error_app1 by nia.
      apply IH; [intros; apply Hn; lia|lia|lia].
  - rewrite length_app, Hlen, Hn by lia. lia.
Qed.

Lemma frame_line_length :
  forall S frame row, length (frame_line S frame row) = Datatypes.S (Z.to_nat S).
Proof.
  intros S frame row. unfold frame_line.
  rewrite length_app, length_map, Z_below_length. cbn [length]. lia.
Qed.

Lemma frame_line_nth_error :
  forall S frame row col, 0 <= col < S ->
    nth_error (frame_line S frame row) (Z.to_nat col)
      = Some (hex_digit (nth (Z.to_nat (row * S + col)) frame 0 / 16)).
Proof.
  intros S frame row col Hcol. unfold frame_line.
  rewrite nth_error_app1 by (rewrite length_map, Z_below_length; lia).
  rewrite nth_error_map, Z_below_nth_error by lia. reflexivity.
Qed.

Lemma frame_line_end :
  forall S frame row, 0 <= S ->
    nth_error (frame_line S frame row) (Z.to_nat S) = Some newline.
Proof.
  intros S frame row HS. unfold frame_line.
  rewrite nth_error_app2 by (rewrite length_map, Z_below_length; lia).
  rewrite length_map, Z_below_length, Nat.sub_diag. reflexivity.
Qed.

(** X7.  For a frame of bytes [DrawFrame] returns [kCroppedFrameSize]
    lines of [kCroppedFrameSize] characters and a line end each: the
    character of row [row] and column [col] is the hexadecimal digit of
    [frame[row * kCroppedFrameSize + col] / 16]. *)
Theorem DrawFrame_draws_every_cell :
  forall (S : Z) (frame : FrameData),
    0 <= S ->
    Z.of_nat (length frame) = S * S ->
    Forall (fun v => 0 <= v <= 255) frame ->
    exists text,
      DrawFrame S frame = Ok text /\
      Z.of_nat (length text) = S * (S + 1) /\
      forall row, 0 <= row < S ->
        nth_error text (Z.to_nat (row * (S + 1) + S)) = Some newline /\
        forall col, 0 <= col < S ->
          nth_error text (Z.to_nat (row * (S + 1) + col))
            = Some (hex_digit (nth (Z.to_nat (row * S + col)) frame 0 / 16)).
Proof.
  intros S frame HS Hlen Hbytes.
  exists (concat (map (frame_line S frame) (Z_below (Z.to_nat S)))).
  split; [apply DrawFrame_lines; assumption|].
  assert (Hcell : forall row c, 0 <= row < S -> 0 <= c <= S ->
            nth_error (concat (map (frame_line S frame) (Z_below (Z.to_nat S))))
                      (Z.to_nat (row * (S + 1) + c))
              = nth_error (frame_line S frame row) (Z.to_nat c) /\
            Z.of_nat (length (concat (map (frame_line S frame) (Z_below (Z.to_nat S)))))
              = S * (S + 1)).
  { intros row c Hrow Hc.
    destruct (concat_lines_nth_error _ (frame_line S frame)
                (Datatypes.S (Z.to_nat S)) (Z.to_nat S) (Z.to_nat row) (Z.to_nat c))
      as [Hnth Hl]; [intros; apply frame_line_length|lia|lia|].
    rewrite Z2Nat.id in Hnth by lia. rewrite <- Hnth. split; [f_equal; nia|nia]. }
  split.
  - destruct (Z.eq_dec S 0) as [->|Hne]; [reflexivity|].
    apply (Hcell 0 0); lia.
  - intros row Hrow. split.
    + rewrite (proj1 (Hcell row S Hrow ltac:(lia))). apply frame_line_end. exact HS.
    + intros col Hcol.
      rewrite (proj1 (Hcell row col Hrow ltac:(lia))).
      apply frame_line_nth_error. exact Hcol.
Qed.

Lemma DrawFrame_draws_every_cell_witness :
  0 <= 2 /\
  Z.of_nat (length tiny_frame) = 2 * 2 /\
  Forall (fun v => 0 <= v <= 255) tiny_frame /\
  exists text,
    DrawFrame 2 tiny_frame = Ok text /\
    Z.of_nat (length text) = 2 * (2 + 1) /\
    forall row, 0 <= row < 2 ->
      nth_error text (Z.to_nat (row * (2 + 1) + 2)) = Some newline /\
      forall col, 0 <= col < 2 ->
        nth_error text (Z.to_nat (row * (2 + 1) + col))
          = Some (hex_digit (nth (Z.to_nat (row * 2 + col)) tiny_frame 0 / 16)).
Proof.
  assert (Hb : Forall (fun v => 0 <= v <= 255) tiny_frame)
    by (repeat constructor; lia).
  split; [lia|]. split; [reflexivity|]. split; [exact Hb|].
  apply (DrawFrame_draws_every_cell 2 tiny_frame); [lia|reflexivity|exact Hb].
Defined.

Lemma hex_digit_injective :
  forall a b, 0 <= a < 16 -> 0 <= b < 16 -> hex_digit a = hex_digit b -> a = b.
Proof.
  intros a b Ha Hb H. unfold hex_digit in H.
  apply NoDup_nth in H; [lia| |cbn [length]; lia|cbn [length]; lia].
  repeat (constructor; [cbn [In]; intuition discriminate|]). constructor.
Qed.

(** X8.  Every frame that [PreprocessScreen] returns can be drawn:
    [DrawFrame] returns a text of
    [kCroppedFrameSize * (kCroppedFrameSize + 1)] characters for it. *)
Theorem PreprocessScreen_frame_can_be_drawn :
  forall (S : Z) (raw_screen : ALEScreen) (frame : list Z),
    0 <= S ->
    PreprocessScreen S raw_screen = Ok frame ->
    exists text,
      DrawFrame S frame = Ok text /\ Z.of_nat (length text) = S * (S + 1).
Proof.
  intros S raw_screen frame HS H.
  assert (Hbytes : Forall (fun v => 0 <= v <= 255) frame).
  { apply (PreprocessScreen_cells_nth S raw_screen frame _ HS H).
    intros g i j v. apply resample_cell_in_byte. }
  apply PreprocessScreen_cells in H as (_ & Hlen & _).
  exists (concat (map (frame_line S frame) (Z_below (Z.to_nat S)))).
  split; [apply DrawFrame_lines; [exact HS|nia|exact Hbytes]|].
  destruct (Z.eq_dec S 0) as [->|Hne]; [reflexivity|].
  destruct (concat_lines_nth_error _ (frame_line S frame)
              (Datatypes.S (Z.to_nat S)) (Z.to_nat S) 0%nat 0%nat)
    as [_ Hl]; [intros; apply frame_line_length|lia|lia|].
  rewrite Hl. nia.
Qed.

(** X9.  Two frames of bytes have the same drawing exactly when their
    cells agree up to the low four bits: [DrawFrame] shows [cell / 16] and
    nothing else. *)
Theorem DrawFrame_same_drawing :
  forall (S : Z) (frame1 frame2 : FrameData),
    0 <= S ->
    Z.of_nat (length frame1) = S * S -> Z.of_nat (length frame2) = S * S ->
    Forall (fun v => 0 <= v <= 255) frame1 ->
    Forall (fun v => 0 <= v <= 255) frame2 ->
    (DrawFrame S frame1 = DrawFrame S frame2 <->
     forall k, (k < length frame1)%nat -> nth k frame1 0 / 16 = nth k frame2 0 / 16).
Proof.
  intros S f1 f2 HS Hl1 Hl2 Hb1 Hb2.
  rewrite (DrawFrame_lines S f1 HS Hl1 Hb1), (DrawFrame_lines S f2 HS Hl2 Hb2).
  assert (Hnib : forall f k, Forall (fun v => 0 <= v <= 255) f ->
            0 <= nth k f 0 / 16 < 16).
  { intros f k Hf.
    assert (0 <= nth k f 0 <= 255).
    { destruct (Nat.lt_ge_cases k (length f)) as [Hk|Hk].
      - rewrite Forall_forall in Hf. apply Hf. apply nth_In. exact Hk.
      - rewrite nth_overflow by exact Hk. lia. }
    split; [apply Z.div_pos; lia|apply Z.div_lt_upper_bound; lia]. }
  split.
  - intros H k Hk. injection H as H.
    assert (HS0 : 0 < S) by nia.
    destruct (cell_index_split S (Z.of_nat k) HS0 ltac:(lia)) as (Hi & Hj & E).
    set (row := Z.of_nat k / S) in *. set (col := Z.of_nat k mod S) in *.
    assert (Hcell : forall f,
              nth_error (concat (map (frame_line S f) (Z_below (Z.to_nat S))))
                        (Z.to_nat row * Datatypes.S (Z.to_nat S) + Z.to_nat col)
                = Some (hex_digit (nth k f 0 / 16))).
    { intros f.
      destruct (concat_lines_nth_error _ (frame_line S f)
                  (Datatypes.S (Z.to_nat S)) (Z.to_nat S) (Z.to_nat row) (Z.to_nat col))
        as [Hnth _]; [intros; apply frame_line_length|lia|lia|].
      rewrite Hnth, Z2Nat.id by lia.
      rewrite frame_line_nth_error by lia.
      rewrite <- E, Nat2Z.id. reflexivity. }
    pose proof (Hcell f1) as H1. rewrite H, (Hcell f2) in H1.
    injection H1 as H1. symmetry.
    apply hex_digit_injective; [apply Hnib; assumption|apply Hnib; assumption|exact H1].
  - intros H. do 2 f_equal. apply map_ext_in. intros row Hrow.
    unfold Z_below in Hrow. apply in_map_iff in Hrow as (r & <- & Hr).
    apply in_seq in Hr. unfold frame_line. f_equal.
    apply map_ext_in. intros col Hcol.
    unfold Z_below in Hcol. apply in_map_iff in Hcol as (c & <- & Hc).
    apply in_seq in Hc. f_equal. apply H. nia.
Qed.

Lemma PreprocessScreen_frame_can_be_drawn_witness :
  0 <= 4 /\
  PreprocessScreen 4 small_screen = Ok small_frame /\
  exists text,
    DrawFrame 4 small_frame = Ok text /\ Z.of_nat (length text) = 4 * (4 + 1).
Proof.
  split; [lia|]. split; [exact small_frame_run|].
  apply (PreprocessScreen_frame_can_be_drawn 4 small_screen small_frame);
    [lia|exact small_frame_run].
Defined.

Lemma DrawFrame_same_drawing_witness :
  0 <= 2 /\
  Z.of_nat (length tiny_frame) = 2 * 2 /\ Z.of_nat (length tiny_frame') = 2 * 2 /\
  Forall (fun v => 0 <= v <= 255) tiny_frame /\
  Forall (fun v => 0 <= v <= 255) tiny_frame' /\
  (DrawFrame 2 tiny_frame = DrawFrame 2 tiny_frame' <->
   forall k, (k < length tiny_frame)%nat ->
     nth k tiny_frame 0 / 16 = nth k tiny_frame' 0 / 16).
Proof.
  assert (Hb : Forall (fun v => 0 <= v <= 255) tiny_frame)
    by (repeat constructor; lia).
  assert (Hb' : Forall (fun v => 0 <= v <= 255) tiny_frame')
    by (repeat constructor; lia).
  split; [lia|]. split; [reflexivity|]. split; [reflexivity|].
  split; [exact Hb|]. split; [exact Hb'|].
  apply (DrawFrame_same_drawing 2 tiny_frame tiny_frame');
    [lia|reflexivity|reflexivity|exact Hb|exact Hb'].
Defined.

(** ** The text of [PrintQValues] *)

Section PrintingFacts.

Variable Action : Type.
Variable action_to_string : Action -> list ascii.
Variable replace_all_copy : list ascii -> list ascii -> list ascii -> list ascii.
Variable to_string : spec_float -> list ascii.

Local Abbreviation name :=
  (fun action : Action => replace_all_copy (action_to_string action) PLAYER_A_ []).
Local Abbreviation col := (column action_to_string replace_all_copy to_string).

Lemma put_width_app :
  forall o w s, put_width o w s = o ++ put_width [] w s.
Proof. reflexivity. Qed.

Lemma firstn_succ_nth_error :
  forall (A : Type) (l : list A) (n : nat) (x : A),
    nth_error l n = Some x -> firstn (S n) l = firstn n l ++ [x].
Proof.
  intros A l. induction l as [|y l IH]; intros n x H.
  - destruct n; discriminate.
  - destruct n as [|n].
    + injection H as ->. reflexivity.
    + cbn [nth_error] in H. rewrite !firstn_cons, (IH n x H). reflexivity.
Qed.

Lemma nth_error_combine_Some :
  forall (A B : Type) (l : list A) (l' : list B) (n : nat) (x : A) (y : B),
    nth_error l n = Some x -> nth_error l' n = Some y ->
    nth_error (combine l l') n = Some (x, y).
Proof.
  intros A B l. induction l as [|a l IH]; intros l' n x y Hx Hy.
  - destruct n; discriminate.
  - destruct l' as [|b l']; [destruct n; discriminate|].
    destruct n as [|n].
    + injection Hx as ->. injection Hy as ->. reflexivity.
    + cbn [nth_error combine] in *. apply IH; assumption.
Qed.

Lemma print_loop :
  forall (q_values : list spec_float) (actions : list Action),
    length q_values = length actions ->
    Z.of_nat (length q_values) <= INT_MAX ->
    let cols := map (fun p => col (fst p) (snd p)) (combine actions q_values) in
    for_below 0 (Z.of_nat (length q_values))
      (print_column action_to_string replace_all_copy to_string q_values actions)
      ([], [])
      = Ok (concat (map fst cols), concat (map snd cols)).
Proof.
  intros q a Hlen Hmax cols. unfold for_below.
  set (Inv := fun (i : Z) (bufs : list ascii * list ascii) =>
         bufs = (concat (map fst (firstn (Z.to_nat i) cols)),
                 concat (map snd (firstn (Z.to_nat i) cols)))).
  assert (Hcols : length cols = length q).
  { unfold cols. rewrite length_map, length_combine. lia. }
  destruct (loop_total _ Inv
              (print_column action_to_string replace_all_copy to_string q a)
              (Z.to_nat (Z.of_nat (length q) - 0)) 0 ([], [])) as (bufs & Hloop & Hinv).
  - reflexivity.
  - intros i bufs Hi Hb. unfold Inv in Hb. subst bufs. unfold print_column.
    destruct (nth_error a (Z.to_nat i)) as [action|] eqn:Ea;
      [|apply nth_error_None in Ea; lia].
    destruct (nth_error q (Z.to_nat i)) as [q_value|] eqn:Eq;
      [|apply nth_error_None in Eq; lia].
    assert (Hi0 : 0 <= i) by lia.
    rewrite (proj2 (read_Ok _ a i action) (conj Hi0 Ea)). cbn [bind].
    rewrite (proj2 (read_Ok _ q i q_value) (conj Hi0 Eq)). cbn [bind].
    unfold int_arith, fits_int.
    replace ((INT_MIN <=? i + 1) && (i + 1 <=? INT_MAX)) with true
      by (symmetry; apply andb_true_iff; unfold INT_MIN, INT_MAX in *; lia).
    cbn [bind]. eexists. split; [reflexivity|]. unfold Inv.
    replace (Z.to_nat (i + 1)) with (S (Z.to_nat i)) by lia.
    assert (Hc : nth_error cols (Z.to_nat i) = Some (col action q_value)).
    { unfold cols. rewrite nth_error_map.
      rewrite (nth_error_combine_Some _ _ _ _ _ _ _ Ea Eq). reflexivity. }
    rewrite (firstn_succ_nth_error _ _ _ _ Hc), !map_app, !concat_app.
    cbn [map concat fst snd]. rewrite !app_nil_r.
    rewrite (put_width_app (concat _)), (put_width_app (concat (map snd _))).
    reflexivity.
  - rewrite Hloop. unfold Inv in Hinv. rewrite Hinv.
    replace (Z.to_nat (0 + Z.of_nat (Z.to_nat (Z.of_nat (length q) - 0))))
      with (length cols) by lia.
    rewrite firstn_all. reflexivity.
Qed.

(** A column holds the name and the value, each after at least one
    space, in fields of one width, the longer of the two after exactly one. *)
Lemma column_fields :
  forall (action : Action) (q_value : spec_float),
    exists pa pq : nat,
      col action q_value
        = (repeat " "%char pa ++ name action, repeat " "%char pq ++ to_string q_value) /\
      (pa + length (name action) = pq + length (to_string q_value))%nat /\
      (1 <= pa)%nat /\ (1 <= pq)%nat /\ (pa = 1 \/ pq = 1)%nat.
Proof.
  intros action q_value. unfold column, put_width. cbn [app].
  set (la := length (name action)). set (lq := length (to_string q_value)).
  exists (Z.to_nat (Z.max (Z.of_nat la) (Z.of_nat lq) + 1 - Z.of_nat la)),
         (Z.to_nat (Z.max (Z.of_nat la) (Z.of_nat lq) + 1 - Z.of_nat lq)).
  split; [reflexivity|]. lia.
Qed.

Lemma concat_fields_length :
  forall (cols : list (list ascii * list ascii)),
    Forall (fun c => length (fst c) = length (snd c)) cols ->
    length (concat (map fst cols)) = length (concat (map snd cols)).
Proof.
  intros cols H. induction H as [|c cols Hc _ IH]; [reflexivity|].
  cbn [map concat]. rewrite !length_app, Hc, IH. reflexivity.
Qed.

(** X10.  For as many values as actions, at least one, [PrintQValues]
    returns two lines of one length, the names above the values: column
    [i] holds the name of action [i] and the text of value [i], each
    after at least one space and the longer of the two after exactly one,
    in two fields of the same width. *)
Theorem PrintQValues_aligns_columns :
  forall (q_values : list spec_float) (actions : list Action),
    q_values <> [] ->
    length q_values = length actions ->
    Z.of_nat (length q_values) <= INT_MAX ->
    exists cols : list (list ascii * list ascii),
      PrintQValues action_to_string replace_all_copy to_string q_values actions
        = inr (Ok (concat (map fst cols) ++ [newline]
                   ++ concat (map snd cols) ++ [newline])) /\
      length cols = length q_values /\
      length (concat (map fst cols)) = length (concat (map snd cols)) /\
      forall (i : nat) (action : Action) (q_value : spec_float),
        nth_error actions i = Some action ->
        nth_error q_values i = Some q_value ->
        exists pa pq : nat,
          nth_error cols i
            = Some (repeat " "%char pa ++ name action,
                    repeat " "%char pq ++ to_string q_value) /\
          (pa + length (name action) = pq + length (to_string q_value))%nat /\
          (1 <= pa)%nat /\ (1 <= pq)%nat /\ (pa = 1 \/ pq = 1)%nat.
Proof.
  intros q a Hne Hlen Hmax.
  exists (map (fun p => col (fst p) (snd p)) (combine a q)).
  split; [|split; [|split]].
  - unfold PrintQValues.
    destruct q as [|q0 q']; [contradiction|].
    destruct a as [|a0 a']; [discriminate|].
    rewrite Hlen, Nat.eqb_refl. cbn [negb]. rewrite <- Hlen.
    rewrite (print_loop (q0 :: q') (a0 :: a') Hlen Hmax). cbn [bind].
    unfold put_endl. rewrite <- app_assoc. reflexivity.
  - rewrite length_map, length_combine. lia.
  - apply concat_fields_length. apply Forall_forall. intros c Hc.
    apply in_map_iff in Hc as ([action q_value] & <- & _). cbn [fst snd].
    destruct (column_fields action q_value) as (pa & pq & -> & Hw & _).
    cbn [fst snd]. rewrite !length_app, !repeat_length. exact Hw.
  - intros i action q_value Ha Hq.
    destruct (column_fields action q_value) as (pa & pq & Hc & Hw).
    exists pa, pq. split; [|exact Hw].
    rewrite nth_error_map, (nth_error_combine_Some _ _ _ _ _ _ _ Ha Hq).
    cbn [option_map fst snd]. rewrite Hc. reflexivity.
Qed.
End PrintingFacts.

Lemma PrintQValues_aligns_columns_witness :
  [S754_zero false; Fp.d1_0] <> [] /\
  length [S754_zero false; Fp.d1_0] = length [0; 1] /\
  Z.of_nat (length [S754_zero false; Fp.d1_0]) <= INT_MAX /\
  exists cols : list (list ascii * list ascii),
    PrintQValues demo_action_to_string demo_replace_all_copy demo_to_string
                 [S754_zero false; Fp.d1_0] [0; 1]
      = inr (Ok (concat (map fst cols) ++ [newline]
                 ++ concat (map snd cols) ++ [newline])) /\
    length cols = length [S754_zero false; Fp.d1_0] /\
    length (concat (map fst cols)) = length (concat (map snd cols)) /\
    forall (i : nat) (action : Z) (q_value : spec_float),
      nth_error [0; 1] i = Some action ->
      nth_error [S754_zero false; Fp.d1_0] i = Some q_value ->
      exists pa pq : nat,
        nth_error cols i
          = Some (repeat " "%char pa
                    ++ demo_replace_all_copy (demo_action_to_string action) PLAYER_A_ [],
                  repeat " "%char pq ++ demo_to_string q_value) /\
        (pa + length (demo_replace_all_copy (demo_action_to_string action) PLAYER_A_ [])
         = pq + length (demo_to_string q_value))%nat /\
        (1 <= pa)%nat /\ (1 <= pq)%nat /\ (pa = 1 \/ pq = 1)%nat.
Proof.
  split; [discriminate|]. split; [reflexivity|].
  split; [vm_compute; discriminate|].
  apply (PrintQValues_aligns_columns Z demo_action_to_string demo_replace_all_copy
           demo_to_string [S754_zero false; Fp.d1_0] [0; 1]);
    [discriminate|reflexivity|vm_compute; discriminate].
Defined.

(** The text behind the last example. *)
Example PrintQValues_demo_run :
  PrintQValues demo_action_to_string demo_replace_all_copy demo_to_string
               [S754_zero false; Fp.d1_0] [0; 1]
    = inr (Ok ([" "; " "; " "; " "; " "; "N"; "O"; "O"; "P";
                " "; " "; " "; " "; " "; "F"; "I"; "R"; "E"; newline;
                " "; "0"; "."; "0"; "0"; "0"; "0"; "0"; "0";
                " "; "1"; "."; "0"; "0"; "0"; "0"; "0"; "0"; newline]%char)).
Proof. vm_compute. reflexivity. Qed.

(** ** The arrays of [PredictNextFrame] and [Update] *)

Lemma splice_nil :
  forall (A : Type) (a : list A) (p : nat), splice a p [] = a.
Proof.
  intros A a p. unfold splice. cbn [app length]. rewrite Nat.add_0_r.
  apply firstn_skipn.
Qed.

(** Two copies side by side are one copy of the two sources in a row. *)
Lemma splice_app :
  forall (A : Type) (a s1 s2 : list A) (p : nat),
    (p + length s1 + length s2 <= length a)%nat ->
    splice (splice a p s1) (p + length s1) s2 = splice a p (s1 ++ s2).
Proof.
  intros A a s1 s2 p H. apply nth_error_ext. intros k.
  rewrite !splice_nth_error;
    rewrite ?splice_length, ?length_app; try lia.
  destruct (Nat.ltb_spec k p); destruct (Nat.ltb_spec k (p + length s1));
    destruct (Nat.ltb_spec k (p + length s1 + length s2));
    destruct (Nat.ltb_spec k (p + (length s1 + length s2)));
    try lia; try reflexivity.
  - rewrite nth_error_app1 by lia. reflexivity.
  - rewrite nth_error_app2 by lia. f_equal. lia.
Qed.

Lemma concat_firstn_succ :
  forall (A : Type) (l : list (list A)) (n : nat) (x : list A),
    nth_error l n = Some x ->
    concat (firstn (S n) l) = concat (firstn n l) ++ x.
Proof.
  intros A l. induction l as [|y l IH]; intros n x H.
  - destruct n; discriminate.
  - destruct n as [|n].
    + injection H as ->. cbn. rewrite app_nil_r. reflexivity.
    + cbn [nth_error] in H. rewrite !firstn_cons. cbn [concat].
      rewrite (IH n x H). apply app_assoc.
Qed.

Lemma length_concat_sized :
  forall (A : Type) (l : list (list A)) (n : nat),
    Forall (fun x => length x = n) l -> length (concat l) = (length l * n)%nat.
Proof.
  intros A l n H. induction H as [|x l Hx _ IH]; [reflexivity|].
  cbn [concat length]. rewrite length_app, IH, Hx. lia.
Qed.
Lemma skipn_repeat :
  forall (A : Type) (v : A) (n k : nat), skipn k (repeat v n) = repeat v (n - k).
Proof.
  intros A v n. induction n as [|n IH]; intros k.
  - rewrite skipn_nil. reflexivity.
  - destruct k as [|k]; [reflexivity|]. cbn [repeat skipn]. apply IH.
Qed.
Section AgentRows.

Variable Action : Type.
Variable action_to_int : Action -> Z.
Variable Engine : Type.
Variable uniform_int_distribution : Z -> Z -> Engine -> Z * Engine.
Hypothesis uniform_int_distribution_range :
  forall a b g, a <= b ->
    a <= fst (uniform_int_distribution a b g) <= b.
Variables kCroppedFrameSize kInputFrameCount kMinibatchSize kOutputCount : Z.

Local Abbreviation D := (kCroppedFrameDataSize kCroppedFrameSize).
Local Abbreviation KD := (kInputDataSize kCroppedFrameSize kInputFrameCount).
Local Abbreviation valid :=
  (valid_transition action_to_int kCroppedFrameSize kInputFrameCount kOutputCount).
Local Abbreviation sample :=
  (sample_transitions (Action := Action) uniform_int_distribution).

Lemma frames_concat_length :
  forall (frames : InputFrames),
    Z.of_nat (length frames) = kInputFrameCount ->
    Forall (frame_sized kCroppedFrameSize) frames ->
    forall j, (j <= length frames)%nat ->
      Z.of_nat (length (concat (firstn j frames))) = Z.of_nat j * D.
Proof.
  intros frames HK Hsz j Hj.
  assert (HD : 0 <= D) by (unfold kCroppedFrameDataSize; nia).
  rewrite (length_concat_sized _ _ (Z.to_nat D)).
  - rewrite length_firstn. nia.
  - apply Forall_forall. intros f Hf. rewrite Forall_forall in Hsz.
    unfold frame_sized in Hsz.
    assert (In f frames).
    { rewrite <- (firstn_skipn j frames). apply in_or_app. left. exact Hf. }
    specialize (Hsz f H). lia.
Qed.

(** A loop that copies the frames one after the other lays them side by
    side from its first offset on. *)
Lemma copy_frames_side_by_side :
  forall (frames : InputFrames) (at_ : Z -> Z) (off : Z) (dest : list Z),
    Z.of_nat (length frames) = kInputFrameCount ->
    Forall (frame_sized kCroppedFrameSize) frames ->
    (forall j, at_ j = off + j * D) ->
    0 <= off -> off + KD <= Z.of_nat (length dest) ->
    for_below 0 kInputFrameCount (fun j frames_input =>
      frame_data <- read frames j ;;
      copy frame_data frames_input (at_ j)) dest
      = Ok (splice dest (Z.to_nat off) (concat frames)) /\
    Z.of_nat (length (concat frames)) = KD.
Proof.
  intros frames at_ off fi HK Hsz Hat Hoff Hlen.
  assert (HD : 0 <= D) by (unfold kCroppedFrameDataSize; nia).
  pose proof (frames_concat_length frames HK Hsz) as Hcl.
  assert (HKD : KD = kInputFrameCount * D) by (unfold kInputDataSize; lia).
  unfold for_below.
  set (Inv := fun (j : Z) (a : list Z) =>
         a = splice fi (Z.to_nat off) (concat (firstn (Z.to_nat j) frames))).
  destruct (loop_total _ Inv
              (fun j frames_input =>
                 frame_data <- read frames j ;;
                 copy frame_data frames_input (at_ j))
              (Z.to_nat (kInputFrameCount - 0)) 0 fi) as (fi' & Hloop & Hfi').
  - unfold Inv. cbn [Z.to_nat firstn concat]. rewrite splice_nil. reflexivity.
  - intros j a Hj Ha. unfold Inv in Ha. subst a.
    destruct (read_in_range _ frames j ltac:(lia)) as (f & Hread & Hin).
    rewrite Hread. cbn [bind].
    apply read_Ok in Hread as [_ Hnth].
    rewrite Forall_forall in Hsz. pose proof (Hsz f Hin) as Hf. unfold frame_sized in Hf.
    pose proof (Hcl (Z.to_nat j) ltac:(lia)) as Hcj.
    assert (Hjd : (j + 1) * D <= kInputFrameCount * D) by nia.
    assert (Hfits : (Z.to_nat off + length (concat (firstn (Z.to_nat j) frames))
                     <= length fi)%nat) by nia.
    rewrite Hat.
    rewrite copy_Ok; [|nia|rewrite splice_length by exact Hfits; nia].
    eexists. split; [reflexivity|]. unfold Inv.
    replace (Z.to_nat (j + 1)) with (S (Z.to_nat j)) by lia.
    transitivity (splice fi (Z.to_nat off)
                    (concat (firstn (Z.to_nat j) frames) ++ f));
      [|f_equal; symmetry; exact (concat_firstn_succ _ _ _ _ Hnth)].
    rewrite <- splice_app by nia.
    f_equal. nia.
  - unfold Inv in Hfi'. rewrite Hloop, Hfi'.
    replace (Z.to_nat (0 + Z.of_nat (Z.to_nat (kInputFrameCount - 0))))
      with (length frames) by lia.
    rewrite firstn_all. split; [reflexivity|].
    rewrite <- (firstn_all frames) at 1. rewrite Hcl by lia. nia.
Qed.

Lemma copy_input_frames_spec :
  forall (frames : InputFrames) (i : Z) (frames_input : list Z),
    Z.of_nat (length frames) = kInputFrameCount ->
    Forall (frame_sized kCroppedFrameSize) frames ->
    0 <= i -> (i + 1) * KD <= Z.of_nat (length frames_input) ->
    copy_input_frames kCroppedFrameSize kInputFrameCount frames i frames_input
      = Ok (splice frames_input (Z.to_nat (i * KD)) (concat frames)) /\
    Z.of_nat (length (concat frames)) = KD.
Proof.
  intros frames i fi HK Hsz Hi Hlen.
  assert (HD : 0 <= D) by (unfold kCroppedFrameDataSize; nia).
  assert (HKD : 0 <= KD) by (unfold kInputDataSize; nia).
  unfold copy_input_frames.
  apply (copy_frames_side_by_side frames (fun j => i * KD + j * D) (i * KD) fi HK Hsz);
    [reflexivity|nia|nia].
Qed.

(** X11.  Whatever its two arrays held before, [PredictNextFrame] hands
    the network the [kInputFrameCount] input frames side by side, followed
    by zeros up to the end of [frames_input], and a [target_input] of
    zeros. *)
Theorem PredictNextFrame_inputs :
  forall (input_frames : InputFrames) (frames_input target_input : list Z),
    Z.of_nat (length input_frames) = kInputFrameCount ->
    Forall (frame_sized kCroppedFrameSize) input_frames ->
    KD <= Z.of_nat (length frames_input) ->
    PredictNextFrame kCroppedFrameSize kInputFrameCount
                     input_frames frames_input target_input
      = Ok (concat input_frames
              ++ repeat 0 (length frames_input - Z.to_nat KD),
            repeat 0 (length target_input)).
Proof.
  intros frames fi ti HK Hsz Hlen.
  assert (HD : 0 <= D) by (unfold kCroppedFrameDataSize; nia).
  assert (HKD : 0 <= KD) by (unfold kInputDataSize; nia).
  assert (Hfill : forall a : list Z,
            fill a 0 (Z.of_nat (length a)) 0 = Ok (repeat 0 (length a))).
  { intros a. rewrite fill_Ok by lia. unfold splice.
    rewrite repeat_length, Z.sub_0_r, Nat2Z.id. cbn [Z.to_nat firstn app Nat.add].
    rewrite skipn_all, app_nil_r. reflexivity. }
  unfold PredictNextFrame. rewrite !Hfill. cbn [bind].
  destruct (copy_frames_side_by_side frames (fun j => j * D) 0
              (repeat 0 (length fi)) HK Hsz) as [Hcopy Hcl];
    [intros; lia|lia|rewrite repeat_length; lia|].
  rewrite Hcopy. cbn [bind]. unfold splice.
  cbn [Z.to_nat firstn app Nat.add]. rewrite skipn_repeat.
  do 4 f_equal. lia.
Qed.

(** The rows that [Update] assembles: what both arrays hold for row [i]. *)
Lemma Update_rows :
  forall (d : DQN Action Engine) (frames_input target_input : list Z),
    Z.of_nat (length frames_input) = kMinibatchSize * KD ->
    Z.of_nat (length target_input) = kMinibatchSize * D ->
    (1 <= length (replay_memory_ d))%nat ->
    Z.of_nat (length (replay_memory_ d)) <= 2 ^ 31 ->
    Forall valid (replay_memory_ d) ->
    exists transitions d' frames_input' target_input',
      sample (Z.to_nat kMinibatchSize) d [] = Ok (transitions, d') /\
      Update action_to_int uniform_int_distribution
             kCroppedFrameSize kInputFrameCount kMinibatchSize kOutputCount
             frames_input target_input d
        = Ok (frames_input', target_input', d') /\
      length frames_input' = length frames_input /\
      length target_input' = length target_input /\
      forall i, 0 <= i < kMinibatchSize ->
        exists idx t,
          read transitions i = Ok idx /\
          read (replay_memory_ d) idx = Ok t /\
          row KD i frames_input' = concat (tr_frames t) /\
          row D i target_input' = target_of kCroppedFrameSize t.
Proof.
  intros d fi ti Hfi Hti Hne Hsz Hvalid.
  assert (HD : 0 <= D) by (unfold kCroppedFrameDataSize; nia).
  set (inrange := fun idx => 0 <= idx < Z.of_nat (length (replay_memory_ d))).
  destruct (sample_transitions_spec _ _ uniform_int_distribution
              inrange (Z.to_nat kMinibatchSize) d [])
    as (transitions & d1 & Es & Hlen & Hmem & Hall).
  { rewrite size_minus_1_small by assumption. lia. }
  unfold Update. rewrite Es. cbn [bind].
  assert (Hin : Forall inrange transitions).
  { apply Hall; [constructor|]. intros g. unfold inrange.
    rewrite size_minus_1_small by assumption.
    pose proof (uniform_int_distribution_range 0
                  (Z.of_nat (length (replay_memory_ d)) - 1) g ltac:(lia)). lia. }
  rewrite Forall_forall in Hin.
  set (rowok := fun (k : Z) (io : list Z * list Z) =>
         exists idx t, read transitions k = Ok idx /\
                       read (replay_memory_ d) idx = Ok t /\
                       row KD k (fst io) = concat (tr_frames t) /\
                       row D k (snd io) = target_of kCroppedFrameSize t).
  set (Inv := fun (i : Z) (io : list Z * list Z) =>
         length (fst io) = length fi /\ length (snd io) = length ti /\
         forall k, 0 <= k < i -> rowok k io).
  destruct (loop_total _ Inv
              (assemble_row action_to_int kCroppedFrameSize kInputFrameCount
                            kOutputCount d1 transitions)
              (Z.to_nat (kMinibatchSize - 0)) 0 (fi, ti)) as (io & Hloop & Hinv).
  - split; [reflexivity|]. split; [reflexivity|]. intros; lia.
  - intros i [fi1 ti1] Hi (Hl1 & Hl2 & Hrows). cbn [fst snd] in Hl1, Hl2.
    unfold assemble_row.
    destruct (read_in_range _ transitions i ltac:(simpl in Hlen; lia))
      as (idx & Hidx & Hidx_in).
    specialize (Hin idx Hidx_in). unfold inrange in Hin.
    rewrite Hidx. cbn [bind]. rewrite Hmem.
    destruct (read_in_range _ (replay_memory_ d) idx Hin) as (t & Ht & Ht_in).
    rewrite Ht. cbn [bind].
    rewrite Forall_forall in Hvalid.
    destruct (Hvalid t Ht_in) as (HK & Hframes & Hnext & Hact & Hrew).
    unfold assert.
    replace (action_to_int (tr_action t) <? kOutputCount) with true
      by (symmetry; apply Z.ltb_lt; exact Hact).
    rewrite Hrew. cbn [bind].
    destruct (assemble_target_total _ kCroppedFrameSize kMinibatchSize
                t i ti1 Hnext ltac:(lia) ltac:(lia)) as [Hat Htl].
    rewrite Hat. cbn [bind].
    assert (HKD0 : 0 <= KD) by (unfold kInputDataSize; nia).
    assert (Hrowfit : (i + 1) * KD <= kMinibatchSize * KD) by nia.
    destruct (copy_input_frames_spec (tr_frames t) i fi1 HK Hframes ltac:(lia)
                ltac:(lia)) as (Hcopy & Hcl).
    rewrite Hcopy. cbn [bind].
    eexists. split; [reflexivity|].
    assert (Hfit : (Z.to_nat (i * KD) + length (concat (tr_frames t)) <= length fi1)%nat)
      by nia.
    assert (Hfit' : (Z.to_nat (i * D) + length (target_of kCroppedFrameSize t)
                     <= length ti1)%nat) by (rewrite Htl; nia).
    split; [cbn [fst]; rewrite splice_length by exact Hfit; exact Hl1|].
    split; [cbn [snd]; rewrite splice_length by exact Hfit'; exact Hl2|].
    intros k Hk. unfold rowok. cbn [fst snd].
    destruct (Z.eq_dec k i) as [->|Hne'].
    + exists idx, t. split; [exact Hidx|]. split; [exact Ht|]. split.
      * unfold row. replace (Z.to_nat KD) with (length (concat (tr_frames t))) by lia.
        apply splice_window_same. exact Hfit.
      * unfold row. rewrite <- Htl. apply splice_window_same. exact Hfit'.
    + destruct (Hrows k ltac:(lia)) as (idx' & t' & H1 & H2 & H3 & H4).
      cbn [fst snd] in H3, H4.
      exists idx', t'. split; [exact H1|]. split; [exact H2|]. split.
      * rewrite <- H3. unfold row. apply splice_window_other; [exact Hfit|].
        left. nia.
      * rewrite <- H4. unfold row. apply splice_window_other; [exact Hfit'|].
        left. nia.
  - destruct io as [fi' ti']. destruct Hinv as (Hl1 & Hl2 & Hrows).
    cbn [fst snd] in Hl1, Hl2.
    exists transitions, d1, fi', ti'.
    unfold for_below. rewrite Hloop. cbn [bind].
    split; [reflexivity|].
    split; [reflexivity|]. split; [exact Hl1|]. split; [exact Hl2|].
    intros i Hi. destruct (Hrows i ltac:(lia)) as (idx & t & H1 & H2 & H3 & H4).
    exists idx, t. cbn [fst snd] in H3, H4. repeat split; assumption.
Qed.

(** X12.  With a non-empty replay memory of valid transitions, [Update]
    assembles its two arrays at their lengths, and row [i] of
    [frames_input] holds the [kInputFrameCount] frames of the transition
    sampled for row [i], side by side. *)
Theorem Update_input_rows :
  forall (d : DQN Action Engine) (frames_input target_input : list Z),
    Z.of_nat (length frames_input) = kMinibatchSize * KD ->
    Z.of_nat (length target_input) = kMinibatchSize * D ->
    (1 <= length (replay_memory_ d))%nat ->
    Z.of_nat (length (replay_memory_ d)) <= 2 ^ 31 ->
    Forall valid (replay_memory_ d) ->
    exists transitions d' frames_input' target_input',
      sample (Z.to_nat kMinibatchSize) d [] = Ok (transitions, d') /\
      Update action_to_int uniform_int_distribution
             kCroppedFrameSize kInputFrameCount kMinibatchSize kOutputCount
             frames_input target_input d
        = Ok (frames_input', target_input', d') /\
      length frames_input' = length frames_input /\
      length target_input' = length target_input /\
      forall i, 0 <= i < kMinibatchSize ->
        exists idx t,
          read transitions i = Ok idx /\
          read (replay_memory_ d) idx = Ok t /\
          row KD i frames_input' = concat (tr_frames t).
Proof.
  intros d fi ti Hfi Hti Hne Hsz Hvalid.
  destruct (Update_rows d fi ti Hfi Hti Hne Hsz Hvalid)
    as (transitions & d1 & fi' & ti' & Es & HU & Hl1 & Hl2 & Hrows).
  exists transitions, d1, fi', ti'.
  split; [exact Es|]. split; [exact HU|]. split; [exact Hl1|]. split; [exact Hl2|].
  intros i Hi. destruct (Hrows i Hi) as (idx & t & H1 & H2 & H3 & _).
  exists idx, t. repeat split; assumption.
Qed.

(** A tensor is its rows. *)
Lemma rows_ext :
  forall (n M : Z) (l1 l2 : list Z),
    0 <= n -> Z.of_nat (length l1) = M * n -> Z.of_nat (length l2) = M * n ->
    (forall i, 0 <= i < M -> row n i l1 = row n i l2) ->
    l1 = l2.
Proof.
  intros n M l1 l2 Hn H1 H2 Hrows. apply nth_error_ext. intros k.
  destruct (Nat.lt_ge_cases k (length l1)) as [Hk|Hk].
  - assert (Hn0 : 0 < n).
    { destruct (Z.eq_dec n 0) as [->|]; [rewrite Z.mul_0_r in H1|]; lia. }
    pose proof (Z.div_mod (Z.of_nat k) n ltac:(lia)) as Hdm.
    pose proof (Z.mod_pos_bound (Z.of_nat k) n Hn0) as Hmb.
    set (i := Z.of_nat k / n) in *. set (o := Z.of_nat k mod n) in *.
    assert (Hi : 0 <= i < M).
    { split; [apply Z.div_pos; lia|]. apply Z.div_lt_upper_bound; lia. }
    assert (Hin0 : 0 <= i * n) by (apply Z.mul_nonneg_nonneg; lia).
    assert (Hik : k = (Z.to_nat (i * n) + Z.to_nat o)%nat) by lia.
    assert (Hw : forall l : list Z,
              nth_error (row n i l) (Z.to_nat o) = nth_error l k).
    { intros l. unfold row. rewrite window_nth_error.
      replace (Z.to_nat o <? Z.to_nat n)%nat with true
        by (symmetry; apply Nat.ltb_lt; lia).
      f_equal. lia. }
    rewrite <- (Hw l1), <- (Hw l2), (Hrows i Hi). reflexivity.
  - rewrite (proj2 (nth_error_None l1 k)) by lia.
    rewrite (proj2 (nth_error_None l2 k)) by lia. reflexivity.
Qed.

(** X19.  [Update] overwrites every cell of its two arrays: with a
    non-empty replay memory of valid transitions, two calls from the same
    agent on arrays of the right lengths return the same arrays and the
    same agent, whatever the arrays held before. *)
Theorem Update_ignores_initial_contents :
  forall (d : DQN Action Engine)
         (frames_input target_input frames_input' target_input' : list Z),
    Z.of_nat (length frames_input) = kMinibatchSize * KD ->
    Z.of_nat (length target_input) = kMinibatchSize * D ->
    Z.of_nat (length frames_input') = kMinibatchSize * KD ->
    Z.of_nat (length target_input') = kMinibatchSize * D ->
    (1 <= length (replay_memory_ d))%nat ->
    Z.of_nat (length (replay_memory_ d)) <= 2 ^ 31 ->
    Forall valid (replay_memory_ d) ->
    Update action_to_int uniform_int_distribution
           kCroppedFrameSize kInputFrameCount kMinibatchSize kOutputCount
           frames_input target_input d
    = Update action_to_int uniform_int_distribution
             kCroppedFrameSize kInputFrameCount kMinibatchSize kOutputCount
             frames_input' target_input' d.
Proof.
  intros d fi ti fi' ti' Hfi Hti Hfi' Hti' Hne Hsz Hvalid.
  assert (HD : 0 <= D) by (unfold kCroppedFrameDataSize; nia).
  destruct (Update_rows d fi ti Hfi Hti Hne Hsz Hvalid)
    as (transitions & d1 & a & b & Es & HU & Hla & Hlb & Hrows).
  destruct (Update_rows d fi' ti' Hfi' Hti' Hne Hsz Hvalid)
    as (transitions' & d1' & a' & b' & Es' & HU' & Hla' & Hlb' & Hrows').
  rewrite Es in Es'. injection Es' as <- <-.
  rewrite HU, HU'.
  assert (Ha : a = a').
  { assert (HKD : 0 <= KD).
    { destruct (replay_memory_ d) as [|t0 rest] eqn:Em; [simpl in Hne; lia|].
      apply Forall_inv in Hvalid. destruct Hvalid as (HK & _).
      pose proof (Zle_0_nat (length (tr_frames t0))).
      unfold kInputDataSize. apply Z.mul_nonneg_nonneg; lia. }
    apply (rows_ext KD kMinibatchSize); [exact HKD|lia|lia|].
    intros i Hi.
    destruct (Hrows i Hi) as (idx & t & H1 & H2 & H3 & _).
    destruct (Hrows' i Hi) as (idx' & t' & H1' & H2' & H3' & _).
    rewrite H1 in H1'. injection H1' as <-.
    rewrite H2 in H2'. injection H2' as <-.
    rewrite H3, H3'. reflexivity. }
  assert (Hb : b = b').
  { apply (rows_ext D kMinibatchSize); [exact HD|lia|lia|].
    intros i Hi.
    destruct (Hrows i Hi) as (idx & t & H1 & H2 & _ & H4).
    destruct (Hrows' i Hi) as (idx' & t' & H1' & H2' & _ & H4').
    rewrite H1 in H1'. injection H1' as <-.
    rewrite H2 in H2'. injection H2' as <-.
    rewrite H4, H4'. reflexivity. }
  rewrite Ha, Hb. reflexivity.
Qed.

(** X15.  With no legal action [SelectAction] builds its distribution
    with the bounds (0, -1): undefined behaviour at the draw, whatever the
    engine, before the empty vector is indexed; never an action. *)
Theorem SelectAction_no_legal_action :
  forall (d : DQN Action Engine) (last_frames : InputFrames) (epsilon : Fp.double),
    legal_actions_ d = [] ->
    SelectAction uniform_int_distribution last_frames epsilon d
      = Undefined InvertedBounds.
Proof.
  intros d last_frames epsilon Hempty. unfold SelectAction.
  rewrite Hempty, size_minus_1_empty. reflexivity.
Qed.

Lemma push_all_above_capacity :
  forall (ts : list (Transition Action)) (d : DQN Action Engine),
    replay_memory_capacity_ d < Z.of_nat (length (replay_memory_ d)) ->
    push_all ts d = Ok (with_memory d (replay_memory_ d ++ ts)).
Proof.
  intros ts. induction ts as [|t ts IH]; intros d H.
  - cbn [push_all]. rewrite app_nil_r. destruct d. reflexivity.
  - cbn [push_all]. unfold AddTransition.
    replace (Z.of_nat (length (replay_memory_ d)) =? replay_memory_capacity_ d)
      with false by (symmetry; apply Z.eqb_neq; lia).
    cbn [bind]. rewrite IH.
    + unfold with_memory. cbn. rewrite <- app_assoc. reflexivity.
    + cbn. rewrite length_app. cbn [length]. lia.
Qed.

(** X16.  [AddTransition] drops an entry only when the size equals the
    capacity.  A memory that holds more than its capacity (any memory, when
    the capacity is negative) is never trimmed: every push succeeds and
    the memory grows by the transitions pushed.  With a capacity of 0 the
    push onto the empty memory pops the empty deque: undefined
    behaviour. *)
Theorem AddTransition_outside_capacity :
  forall (d : DQN Action Engine),
    (replay_memory_capacity_ d < Z.of_nat (length (replay_memory_ d)) ->
     forall ts, push_all ts d = Ok (with_memory d (replay_memory_ d ++ ts))) /\
    (replay_memory_capacity_ d = 0 -> replay_memory_ d = [] ->
     forall t, AddTransition t d = Undefined PopEmpty).
Proof.
  intros d. split.
  - intros H ts. apply push_all_above_capacity. exact H.
  - intros HC Hm t. unfold AddTransition. rewrite HC, Hm. reflexivity.
Qed.

End AgentRows.

(** ** The arrays and the agent on concrete states *)

Lemma PredictNextFrame_inputs_witness :
  Z.of_nat (length [demo_frame 1; demo_frame 2]) = 2 /\
  Forall (frame_sized 2) [demo_frame 1; demo_frame 2] /\
  kInputDataSize 2 2 <= Z.of_nat (length (repeat 5 24)) /\
  PredictNextFrame 2 2 [demo_frame 1; demo_frame 2] (repeat 5 24) (repeat 9 12)
    = Ok (concat [demo_frame 1; demo_frame 2]
            ++ repeat 0 (length (repeat 5 24) - Z.to_nat (kInputDataSize 2 2)),
          repeat 0 (length (repeat 9 12))).
Proof.
  assert (Hs : Forall (frame_sized 2) [demo_frame 1; demo_frame 2])
    by (repeat constructor).
  split; [reflexivity|]. split; [exact Hs|]. split; [vm_compute; discriminate|].
  apply (PredictNextFrame_inputs 2 2 [demo_frame 1; demo_frame 2]
           (repeat 5 24) (repeat 9 12));
    [reflexivity|exact Hs|vm_compute; discriminate].
Defined.

Lemma Update_input_rows_witness :
  Z.of_nat (length (repeat 5 24)) = 3 * kInputDataSize 2 2 /\
  Z.of_nat (length (repeat 9 12)) = 3 * kCroppedFrameDataSize 2 /\
  (1 <= length (replay_memory_ (demo_agent demo_memory)))%nat /\
  Z.of_nat (length (replay_memory_ (demo_agent demo_memory))) <= 2 ^ 31 /\
  Forall (valid_transition (fun a : Z => a) 2 2 18)
         (replay_memory_ (demo_agent demo_memory)) /\
  exists transitions d' frames_input' target_input',
    sample_transitions lcg_uniform 3 (demo_agent demo_memory) [] = Ok (transitions, d') /\
    Update (fun a : Z => a) lcg_uniform 2 2 3 18
           (repeat 5 24) (repeat 9 12) (demo_agent demo_memory)
      = Ok (frames_input', target_input', d') /\
    length frames_input' = length (repeat 5 24) /\
    length target_input' = length (repeat 9 12) /\
    forall i, 0 <= i < 3 ->
      exists idx t,
        read transitions i = Ok idx /\
        read (replay_memory_ (demo_agent demo_memory)) idx = Ok t /\
        row (kInputDataSize 2 2) i frames_input' = concat (tr_frames t).
Proof.
  split; [vm_compute; reflexivity|]. split; [vm_compute; reflexivity|].
  split; [simpl; lia|]. split; [simpl; lia|].
  split; [exact demo_memory_valid|].
  apply (Update_input_rows Z (fun a : Z => a) Z lcg_uniform lcg_uniform_range
           2 2 3 18 (demo_agent demo_memory) (repeat 5 24) (repeat 9 12)).
  - vm_compute; reflexivity.
  - vm_compute; reflexivity.
  - simpl; lia.
  - simpl; lia.
  - exact demo_memory_valid.
Defined.

Lemma Update_ignores_initial_contents_witness :
  Z.of_nat (length (repeat 5 24)) = 3 * kInputDataSize 2 2 /\
  Z.of_nat (length (repeat 9 12)) = 3 * kCroppedFrameDataSize 2 /\
  Z.of_nat (length (repeat 0 24)) = 3 * kInputDataSize 2 2 /\
  Z.of_nat (length (repeat 0 12)) = 3 * kCroppedFrameDataSize 2 /\
  (1 <= length (replay_memory_ (demo_agent demo_memory)))%nat /\
  Z.of_nat (length (replay_memory_ (demo_agent demo_memory))) <= 2 ^ 31 /\
  Forall (valid_transition (fun a : Z => a) 2 2 18)
         (replay_memory_ (demo_agent demo_memory)) /\
  Update (fun a : Z => a) lcg_uniform 2 2 3 18
         (repeat 5 24) (repeat 9 12) (demo_agent demo_memory)
  = Update (fun a : Z => a) lcg_uniform 2 2 3 18
           (repeat 0 24) (repeat 0 12) (demo_agent demo_memory).
Proof.
  split; [vm_compute; reflexivity|]. split; [vm_compute; reflexivity|].
  split; [vm_compute; reflexivity|]. split; [vm_compute; reflexivity|].
  split; [simpl; lia|]. split; [simpl; lia|].
  split; [exact demo_memory_valid|].
  apply (Update_ignores_initial_contents Z (fun a : Z => a) Z lcg_uniform
           lcg_uniform_range 2 2 3 18 (demo_agent demo_memory)
           (repeat 5 24) (repeat 9 12) (repeat 0 24) (repeat 0 12)).
  - vm_compute; reflexivity.
  - vm_compute; reflexivity.
  - vm_compute; reflexivity.
  - vm_compute; reflexivity.
  - simpl; lia.
  - simpl; lia.
  - exact demo_memory_valid.
Defined.

Lemma SelectAction_no_legal_action_witness :
  legal_actions_ (idle_agent 3 []) = [] /\
  SelectAction lcg_uniform [demo_frame 1; demo_frame 2] Fp.d0_0 (idle_agent 3 [])
    = Undefined InvertedBounds.
Proof.
  split; [reflexivity|].
  apply (SelectAction_no_legal_action Z Z lcg_uniform (idle_agent 3 [])). reflexivity.
Defined.

Lemma AddTransition_outside_capacity_witness :
  (replay_memory_capacity_ (idle_agent 1 demo_memory)
     < Z.of_nat (length (replay_memory_ (idle_agent 1 demo_memory))) /\
   push_all demo_pushes (idle_agent 1 demo_memory)
     = Ok (with_memory (idle_agent 1 demo_memory) (demo_memory ++ demo_pushes))) /\
  (replay_memory_capacity_ (idle_agent 0 []) = 0 /\
   replay_memory_ (idle_agent 0 []) = [] /\
   AddTransition (demo_transition 1 None) (idle_agent 0 []) = Undefined PopEmpty).
Proof.
  split.
  - split; [simpl; lia|].
    apply (proj1 (AddTransition_outside_capacity Z Z (idle_agent 1 demo_memory))).
    simpl; lia.
  - split; [reflexivity|]. split; [reflexivity|].
    apply (proj2 (AddTransition_outside_capacity Z Z (idle_agent 0 []))); reflexivity.
Defined.
